(** * The macro-task queue of [test_vectormacrotask.cc]

    A shallow embedding of the prototype macro-task queue: the round-robin
    partitioner [create_worlds], the task record with its lifecycle status,
    the buffer-archive form of a task pointer, the scheduler functions that
    run on universe rank 0, and the fan-out [run_all] / [map] with the
    file-based hand-off of the heavy operands. *)

From Stdlib Require Import ZArith Lia List String Ascii DecimalString DecimalNat Sorted.
From stdpp Require Import base option list strings gmap.

Local Open Scope nat_scope.

(** ** Outcomes of a call

    A call returns, throws ([MADNESS_EXCEPTION], a failed [MADNESS_ASSERT],
    an archive that runs dry or a file that is missing), leaves the
    behaviour defined by the language (an index outside a vector, a modulus
    by zero, a call through a pointer that is not a function), or is still
    waiting at a fence of the universe when the run that is looked at ends. *)

Inductive outcome (A : Type) : Type :=
| Ok (a : A)
| Thrown (what : string)
| Undefined
| Blocked.

Arguments Ok {A} a.
Arguments Thrown {A} what.
Arguments Undefined {A}.
Arguments Blocked {A}.

Global Instance outcome_ret : MRet outcome := fun A a => Ok a.

Global Instance outcome_bind : MBind outcome := fun A B k m =>
  match m with
  | Ok a => k a
  | Thrown w => Thrown w
  | Undefined => Undefined
  | Blocked => Blocked
  end.

(** ** Heavy operands *)

(** Modelled from the spec: [Function<T,NDIM>] of [mra.h], which is not
    among the sources.  It is the heavy field of a payload: a shared pointer
    to an implementation, of which a stream carries the presence and the
    handle, and the side store the content.  The default-constructed or
    cleared function holds no implementation.  The numerical content is
    kept symbolically, by the expression that built it: [f.add_scalar(c)] on
    a fresh function, or the projection of [gaussian(a)].  Doubles are
    carried as their 64-bit patterns. *)
Inductive coefficients : Type :=
| add_scalar (c : Z)
| functor_gaussian (a : Z).

Record FunctionImpl : Type := mkImpl { handle : Z; coeffs : coefficients }.

Definition Function : Type := option FunctionImpl.

Definition is_initialized (f : Function) : bool :=
  match f with Some _ => true | None => false end.

(** ** Tasks *)

Inductive Status : Type := Running | Waiting | Complete | Unknown.

Global Instance Status_eq_dec : EqDecision Status.
Proof. solve_decision. Defined.

Module data_type.
Record t : Type := mk { d : Z; i : Z; f : Function; filename : string }.
End data_type.

(** [priority] is a double that no function of the queue reads; integral
    values are enough to state what the queue does with it. *)
Record MacroTask : Type := mkTask {
  priority : Z;
  stat : Status;
  data : data_type.t;
  result : Function
}.

Definition with_stat (s : Status) (t : MacroTask) : MacroTask :=
  {| priority := priority t; stat := s; data := data t; result := result t |}.

Definition with_priority (p : Z) (t : MacroTask) : MacroTask :=
  {| priority := p; stat := stat t; data := data t; result := result t |}.

Definition set_complete : MacroTask -> MacroTask := with_stat Complete.
Definition set_running : MacroTask -> MacroTask := with_stat Running.
Definition set_waiting : MacroTask -> MacroTask := with_stat Waiting.

(** [MacroTask(const dataT& data)]: the payload is copied, file name
    included; priority, status and result take their defaults. *)
Definition MacroTask_of_data (x : data_type.t) : MacroTask :=
  {| priority := 0; stat := Unknown; data := x; result := None |}.

(** ** The scheduler functions on universe rank 0 *)

Definition is_Waiting (t : MacroTask) : bool :=
  match stat t with Waiting => true | _ => false end.

(** [std::find_if]: the position of the first element that satisfies [p];
    the length of the list stands for [end()]. *)
Fixpoint find_if {A : Type} (p : A -> bool) (l : list A) : nat :=
  match l with
  | [] => 0
  | x :: rest => if p x then 0 else S (find_if p rest)
  end.

(** Modelled from the spec: [MADNESS_ASSERT], a macro that is not among
    the sources; a failed assertion is fatal to the call. *)
Definition MADNESS_ASSERT (cond : bool) (text : string) : outcome unit :=
  if cond then Ok tt else Thrown text.

(** Returns the task number and the task list it leaves behind.  A [long]
    holds every position of a vector, so the position is not wrapped. *)
Definition get_scheduled_task_number_local (rank : nat) (taskq : list MacroTask)
  : outcome (Z * list MacroTask) :=
  _ ← MADNESS_ASSERT (rank =? 0) "universe.rank()==0";
  let it := find_if is_Waiting taskq in
  if negb (it =? length taskq)
  then Ok (Z.of_nat it, alter set_running it taskq)
  else Ok ((-1)%Z, taskq).

(** [taskq[task_number]] outside the vector is undefined. *)
Definition set_complete_local (rank : nat) (task_number : Z) (taskq : list MacroTask)
  : outcome (list MacroTask) :=
  _ ← MADNESS_ASSERT (rank =? 0) "universe.rank()==0";
  if ((0 <=? task_number)%Z && (task_number <? Z.of_nat (length taskq))%Z)%bool
  then Ok (alter set_complete (Z.to_nat task_number) taskq)
  else Undefined.

(** The task numbers handed out by [n] calls in a row, in the order of the
    calls (a call that finds nothing hands out nothing). *)
Fixpoint claim_sequence (n : nat) (taskq : list MacroTask) : list Z :=
  match n with
  | 0 => []
  | S m =>
      match get_scheduled_task_number_local 0 taskq with
      | Ok (element, taskq') =>
          if (element <? 0)%Z then [] else element :: claim_sequence m taskq'
      | _ => []
      end
  end.

(** The positions of the waiting tasks, in increasing order; [k] is the
    position of the head of the list. *)
Fixpoint waiting_positions_from (k : nat) (l : list MacroTask) : list nat :=
  match l with
  | [] => []
  | t :: rest =>
      if is_Waiting t then k :: waiting_positions_from (S k) rest
      else waiting_positions_from (S k) rest
  end.

Definition waiting_positions (taskq : list MacroTask) : list nat :=
  waiting_positions_from 0 taskq.

(** What the specification asks of [next_waiting]: the waiting task of
    highest priority, the smallest position among equals.  [best] is the
    choice so far, [j] the position of the head of the list. *)
Fixpoint spec_next_waiting_from (j : nat) (best : option (nat * Z)) (l : list MacroTask)
  : option (nat * Z) :=
  match l with
  | [] => best
  | t :: rest =>
      let best' :=
        if is_Waiting t then
          match best with
          | Some (_, p) => if (p <? priority t)%Z then Some (j, priority t) else best
          | None => Some (j, priority t)
          end
        else best in
      spec_next_waiting_from (S j) best' rest
  end.

Definition spec_next_waiting (taskq : list MacroTask) : Z :=
  match spec_next_waiting_from 0 None taskq with
  | Some (j, _) => Z.of_nat j
  | None => (-1)%Z
  end.

(** ** The partitioner

    A world is the list of the universe ranks of its group, in the order
    given to [Incl]: the position in the list is the rank in the subworld. *)

Definition World : Type := list nat.

(** [for (int i=0; i<universe.size(); ++i) process_list[i%nworld].push_back(i)],
    over the ranks still to come. *)
Fixpoint fill_process_list (ranks : list nat) (nworld : nat)
    (process_list : list (list nat)) : outcome (list (list nat)) :=
  match ranks with
  | [] => Ok process_list
  | r :: rest =>
      if nworld =? 0 then Undefined
      else fill_process_list rest nworld
             (alter (fun pl => pl ++ [r]) (r mod nworld) process_list)
  end.

(** The second loop: every list that contains the caller resets
    [all_worlds] to a world over that list. *)
Definition assign_world (rank : nat) (process_list : list (list nat)) : option World :=
  fold_left (fun all_worlds pl => if bool_decide (rank ∈ pl) then Some pl else all_worlds)
            process_list None.

Definition create_worlds (universe_size universe_rank nworld : nat)
  : outcome (option World) :=
  if universe_size <? nworld then Thrown "increase number of processes"
  else
    process_list ← fill_process_list (seq 0 universe_size) nworld (replicate nworld []);
    Ok (assign_world universe_rank process_list).

(** [process_list[j]] once the ranks below [m] have been pushed: the ranks
    below [m] that are [j] modulo [nworld], in increasing order. *)
Definition process_group (nworld m j : nat) : list nat :=
  filter (fun r' => r' mod nworld = j) (seq 0 m).

(** The subworld the contract of the partitioner names for rank [r]. *)
Definition round_robin_world (universe_size nworld r : nat) : World :=
  process_group nworld universe_size (r mod nworld).

(** ** The buffer archive *)

(** Modelled from the spec: the buffer archive of [archive.h], which is not
    among the sources.  What [ar & x] does for the fundamental types is
    taken from the wire form the specification gives (the presence byte is
    one byte, the tag and the handles are identifiers of fixed size) and
    from the archive copying the object as it lies in memory: a [bool] is
    one byte, an [int] four, a [double] and a pointer eight, least
    significant byte first.  A byte is a [Z] below 256. *)
Fixpoint store_bytes (n : nat) (v : Z) : list Z :=
  match n with
  | 0 => []
  | S m => Z.land v 255 :: store_bytes m (Z.shiftr v 8)
  end.

Fixpoint load_bytes (bs : list Z) : Z :=
  match bs with
  | [] => 0%Z
  | b :: rest => (b + Z.shiftl (load_bytes rest) 8)%Z
  end.

(** The input archive throws when fewer bytes are left than the object needs. *)
Definition archive_load (n : nat) (ar : list Z) : outcome (Z * list Z) :=
  if length ar <? n then Thrown "BufferInputArchive: not enough data"
  else Ok (load_bytes (take n ar), drop n ar).

Definition store_bool (b : bool) : list Z := [if b then 1%Z else 0%Z].
Definition store_int (v : Z) : list Z := store_bytes 4 v.
Definition store_double (bits : Z) : list Z := store_bytes 8 bits.
Definition store_pointer (p : Z) : list Z := store_bytes 8 p.

(** A byte other than 0 and 1 is not the representation of a [bool]. *)
Definition load_bool (ar : list Z) : outcome (bool * list Z) :=
  '(v, ar') ← archive_load 1 ar;
  if (v =? 0)%Z then Ok (false, ar')
  else if (v =? 1)%Z then Ok (true, ar')
  else Undefined.

Definition load_int (ar : list Z) : outcome (Z * list Z) :=
  '(v, ar') ← archive_load 4 ar;
  Ok (if (v <? 2 ^ 31)%Z then v else (v - 2 ^ 32)%Z, ar').

Definition load_double (ar : list Z) : outcome (Z * list Z) := archive_load 8 ar.
Definition load_pointer (ar : list Z) : outcome (Z * list Z) := archive_load 8 ar.

(** [std::to_string] of a number that is not negative. *)
Definition to_string (n : nat) : string := NilEmpty.string_of_uint (Nat.to_uint n).

(** [data_type()]: the default member initializer of [filename] reads and
    increments the static counter [ii]. *)
Definition data_type_default (ii : nat) : data_type.t * nat :=
  ({| data_type.d := 0; data_type.i := 0; data_type.f := None;
      data_type.filename := "dummy" +:+ to_string ii |}, S ii).

(** [data_type(i, d, f)] *)
Definition data_type_new (ii : nat) (i d : Z) (f : Function) : data_type.t * nat :=
  ({| data_type.d := d; data_type.i := i; data_type.f := f;
      data_type.filename := "dummy" +:+ to_string ii |}, S ii).

Section Archive.

(** The address of [allocate_and_deserialize] of the one task type of the
    program, and the implementations found behind the handles a stream
    carries. *)
Variable allocate_and_deserialize_address : Z.
Variable implementation_at : Z -> coefficients.

(** [data_type::serialize] on an output archive; of [f] it writes the
    pointer to the implementation, a 64-bit value. *)
Definition data_type_store (x : data_type.t) : list Z :=
  let fexist := is_initialized (data_type.f x) in
  store_int (data_type.i x) ++ store_double (data_type.d x) ++ store_bool fexist ++
  match data_type.f x with
  | Some impl => store_pointer (handle impl)
  | None => []
  end.

(** [data_type::serialize] on an input archive, on the object [x]. *)
Definition data_type_load (x : data_type.t) (ar : list Z)
  : outcome (data_type.t * list Z) :=
  '(i', ar) ← load_int ar;
  '(d', ar) ← load_double ar;
  '(fexist, ar) ← load_bool ar;
  if fexist : bool then
    '(impl, ar) ← load_pointer ar;
    Ok ({| data_type.d := d'; data_type.i := i';
           data_type.f := Some (mkImpl impl (implementation_at impl));
           data_type.filename := data_type.filename x |}, ar)
  else
    Ok ({| data_type.d := d'; data_type.i := i'; data_type.f := data_type.f x;
           data_type.filename := data_type.filename x |}, ar).

(** [MacroTask::serialize] is [ar & data]. *)
Definition MacroTask_store (t : MacroTask) : list Z := data_type_store (data t).

(** [new macrotaskT] followed by [t->serialize(ar)]. *)
Definition allocate_and_deserialize (ii : nat) (ar : list Z)
  : outcome (MacroTask * nat * list Z) :=
  let '(x, ii') := data_type_default ii in
  '(x', ar') ← data_type_load x ar;
  Ok ({| priority := 0; stat := Unknown; data := x'; result := None |}, ii', ar').

(** [ArchiveStoreImpl<Archive,MacroTaskBase*>::store] *)
Definition store (mtb_ptr : option MacroTask) : list Z :=
  let exist' := bool_decide (is_Some mtb_ptr) in
  store_bool exist' ++
  match mtb_ptr with
  | Some t => store_pointer allocate_and_deserialize_address ++ MacroTask_store t
  | None => []
  end.

(** [ArchiveLoadImpl<Archive,MacroTaskBase*>::load]; the call through
    [voodoo] is defined when [voodoo] is the address of the function. *)
Definition load (ii : nat) (ar : list Z) : outcome (option MacroTask * nat * list Z) :=
  '(exist', ar) ← load_bool ar;
  if exist' : bool then
    '(voodoo, ar) ← load_pointer ar;
    if (voodoo =? allocate_and_deserialize_address)%Z then
      '(t, ii', ar') ← allocate_and_deserialize ii ar;
      Ok (Some t, ii', ar')
    else Undefined
  else Ok (None, ii, ar).

End Archive.

(** The implementation found behind the handle of [impl]. *)
Definition found_behind (implementation_at : Z -> coefficients) (impl : FunctionImpl)
  : FunctionImpl :=
  mkImpl (handle impl) (implementation_at (handle impl)).

(** ** The side store and the universe *)

(** Modelled from the spec: the side store, a mapping from a name to a
    persisted object, which the parallel archives ([ParallelOutputArchive],
    [save], [load], not among the sources) write and read.  A file holds
    what [ar & d & i & f] or [save(f, name)] wrote; of a function it holds
    the content, not the handle.  What a parallel archive does with a
    function that holds no implementation is not said: the model lets such a
    write through, so that it covers every run that gets past it. *)
Inductive archive_file : Type :=
| data_archive (d i : Z) (f : option coefficients)
| function_archive (f : option coefficients).

(** What a run leaves in the log: the steps of the loop of [run_all] in a
    subworld on a task number, the writes of [store_task_data] and the
    reads of [map] on the universe, and the [remove] of [localize]. *)
Inductive event : Type :=
| claimed (subworld element : nat)
| loaded_data (subworld element : nat) (name : string)
| ran (subworld element : nat)
| reported_complete (subworld element : nat)
| stored_data (subworld element : nat) (name : string)
| stored_result (subworld element : nat) (name : string)
| universe_stored_data (element : nat) (name : string)
| universe_loaded_result (i : nat) (name : string)
| removed (name : string).

Global Instance event_eq_dec : EqDecision event.
Proof. solve_decision. Defined.

Inductive access : Type :=
| Write (name : string)
| Read (name : string)
| Remove (name : string).

Global Instance access_eq_dec : EqDecision access.
Proof. solve_decision. Defined.

Definition access_of (e : event) : option access :=
  match e with
  | loaded_data _ _ name | universe_loaded_result _ name => Some (Read name)
  | stored_data _ _ name | stored_result _ _ name | universe_stored_data _ name =>
      Some (Write name)
  | removed name => Some (Remove name)
  | claimed _ _ | ran _ _ | reported_complete _ _ => None
  end.

Definition accesses (tr : list event) : list access := omap access_of tr.

(** The task number a step of the loop is about. *)
Definition element_of (e : event) : option nat :=
  match e with
  | claimed _ j | loaded_data _ j _ | ran _ j | reported_complete _ j
  | stored_data _ j _ | stored_result _ j _ => Some j
  | universe_stored_data _ _ | universe_loaded_result _ _ | removed _ => None
  end.

Definition steps_on (j : nat) (tr : list event) : list event :=
  filter (fun e => element_of e = Some j) tr.

(** Where a subworld stands in the loop of [run_all]: before the call of
    [get_scheduled_task_number], before one of the five calls of the body
    with the task number and its copy of the task, or past the [break]. *)
Inductive loop_point : Type :=
| at_get_data
| at_run
| at_set_complete
| at_store_and_clear_data
| at_store_and_clear_result.

Inductive subworld_state : Type :=
| polling
| working (element : nat) (pc : loop_point) (task : MacroTask)
| left_loop.

Global Instance loop_point_eq_dec : EqDecision loop_point.
Proof. solve_decision. Defined.

(** The task list of universe rank 0, the files, the log, the subworlds
    and the next handle an allocation of a function implementation gets. *)
Record universe_state : Type := mkUniverse {
  taskq : list MacroTask;
  files : gmap string archive_file;
  trace : list event;
  subworlds : list subworld_state;
  next_handle : Z
}.

Definition result_name (element : nat) : string := "result_of_task" +:+ to_string element.

Definition with_data (x : data_type.t) (t : MacroTask) : MacroTask :=
  {| priority := priority t; stat := stat t; data := x; result := result t |}.

Definition with_result (r : Function) (t : MacroTask) : MacroTask :=
  {| priority := priority t; stat := stat t; data := data t; result := r |}.

Definition with_f (f : Function) (x : data_type.t) : data_type.t :=
  {| data_type.d := data_type.d x; data_type.i := data_type.i x; data_type.f := f;
     data_type.filename := data_type.filename x |}.

(** [data_type::store_and_clear]: the file written, and the payload with
    the function cleared. *)
Definition store_and_clear (x : data_type.t) : archive_file * data_type.t :=
  (data_archive (data_type.d x) (data_type.i x) (coeffs <$> data_type.f x),
   with_f None x).

(** [data_type::load]: [d], [i] and [f] come from the file named by the
    payload; the function read is a new implementation.  The file is what
    the last write left; a read that follows the write of another subworld
    with no fence of the universe between them, as two tasks that share a
    file can produce, is served that write. *)
Definition data_type_read (fs : gmap string archive_file) (h : Z) (x : data_type.t)
  : outcome data_type.t :=
  match fs !! data_type.filename x with
  | Some (data_archive d' i' c) =>
      Ok {| data_type.d := d'; data_type.i := i'; data_type.f := mkImpl h <$> c;
            data_type.filename := data_type.filename x |}
  | Some (function_archive _) => Thrown "ParallelInputArchive: type mismatch"
  | None => Thrown "ParallelInputArchive: no such file"
  end.

(** [get_result]: the function in the file [name], as a new implementation. *)
Definition function_read (fs : gmap string archive_file) (h : Z) (name : string)
  : outcome Function :=
  match fs !! name with
  | Some (function_archive c) => Ok (mkImpl h <$> c)
  | Some (data_archive _ _ _) => Thrown "ParallelInputArchive: type mismatch"
  | None => Thrown "ParallelInputArchive: no such file"
  end.

(** [MacroTask::run]: [result=g], the projection of [gaussian(data.d)];
    [f2] is computed and dropped. *)
Definition run (h : Z) (t : MacroTask) : MacroTask :=
  with_result (Some (mkImpl h (functor_gaussian (data_type.d (data t))))) t.

(** One step of subworld [sw] in the loop of [run_all].  The ranks of a
    subworld go through the loop together and are one party here.  Every
    rank has its own replica of the task list, with the payloads of the list
    of rank 0; the subworld takes its copy of the task from that list and
    works on the copy.  The calls to universe rank 0 take effect as they are
    made.  [set_complete] is called by every rank of the subworld: the step
    stands for the first of these calls, and the later ones find the task
    [Complete] and leave it so.  On universe rank 0 the task of the list and
    the task the subworld works on are one object; the list of this model
    keeps the payload with its function cleared, which is what that object
    holds once the body is through when no two tasks share a file, and does
    not follow the result of that object.  A subworld that has left the
    loop, and a number that names no subworld, change nothing. *)
Definition loop_step (sw : nat) (u : universe_state) : outcome universe_state :=
  match subworlds u !! sw with
  | None | Some left_loop => Ok u
  | Some polling =>
      '(element, taskq') ← get_scheduled_task_number_local 0 (taskq u);
      if (element <? 0)%Z then
        Ok (mkUniverse (taskq u) (files u) (trace u)
              (<[sw := left_loop]> (subworlds u)) (next_handle u))
      else
        match taskq' !! Z.to_nat element with
        | Some task =>
            Ok (mkUniverse taskq' (files u)
                  (trace u ++ [claimed sw (Z.to_nat element)])
                  (<[sw := working (Z.to_nat element) at_get_data task]> (subworlds u))
                  (next_handle u))
        | None => Undefined
        end
  | Some (working element at_get_data task) =>
      x ← data_type_read (files u) (next_handle u) (data task);
      Ok (mkUniverse (taskq u) (files u)
            (trace u ++ [loaded_data sw element (data_type.filename (data task))])
            (<[sw := working element at_run (with_data x task)]> (subworlds u))
            (next_handle u + 1)%Z)
  | Some (working element at_run task) =>
      Ok (mkUniverse (taskq u) (files u)
            (trace u ++ [ran sw element])
            (<[sw := working element at_set_complete (run (next_handle u) task)]>
               (subworlds u))
            (next_handle u + 1)%Z)
  | Some (working element at_set_complete task) =>
      taskq' ← set_complete_local 0 (Z.of_nat element) (taskq u);
      Ok (mkUniverse taskq' (files u)
            (trace u ++ [reported_complete sw element])
            (<[sw := working element at_store_and_clear_data task]> (subworlds u))
            (next_handle u))
  | Some (working element at_store_and_clear_data task) =>
      let '(file, x) := store_and_clear (data task) in
      Ok (mkUniverse (taskq u)
            (<[data_type.filename (data task) := file]> (files u))
            (trace u ++ [stored_data sw element (data_type.filename (data task))])
            (<[sw := working element at_store_and_clear_result (with_data x task)]>
               (subworlds u))
            (next_handle u))
  | Some (working element at_store_and_clear_result task) =>
      Ok (mkUniverse (taskq u)
            (<[result_name element := function_archive (coeffs <$> result task)]> (files u))
            (trace u ++ [stored_result sw element (result_name element)])
            (<[sw := polling]> (subworlds u))
            (next_handle u))
  end.

(** The subworlds run side by side; a schedule names the subworld that
    takes each next step. *)
Fixpoint loop_steps (schedule : list nat) (u : universe_state) : outcome universe_state :=
  match schedule with
  | [] => Ok u
  | sw :: rest => u' ← loop_step sw u; loop_steps rest u'
  end.

Definition has_left (w : subworld_state) : bool :=
  match w with left_loop => true | _ => false end.

(** [universe.gop.fence()] after the loop: passed once every subworld has
    left its loop. *)
Definition fence_after_loop (u : universe_state) : outcome universe_state :=
  if forallb has_left (subworlds u) then Ok u else Blocked.

(** [add_replicated_task] on every task of [vtask], then [set_waiting] on
    every task of the list where the rank is 0. *)
Definition add_replicated_task (taskq : list MacroTask) (task : MacroTask) : list MacroTask :=
  taskq ++ [task].

Definition enroll (rank : nat) (vtask taskq : list MacroTask) : list MacroTask :=
  let taskq' := foldl add_replicated_task taskq vtask in
  if rank =? 0 then set_waiting <$> taskq' else taskq'.

(** [store_task_data]: [store_and_clear_data(universe)] on every task of
    the list, from position [j] on. *)
Fixpoint store_task_data_from (j : nat) (l : list MacroTask)
    (fs : gmap string archive_file) (tr : list event)
  : list MacroTask * gmap string archive_file * list event :=
  match l with
  | [] => ([], fs, tr)
  | t :: rest =>
      let '(file, x) := store_and_clear (data t) in
      let '(rest', fs', tr') :=
        store_task_data_from (S j) rest
          (<[data_type.filename (data t) := file]> fs)
          (tr ++ [universe_stored_data j (data_type.filename (data t))]) in
      (with_data x t :: rest', fs', tr')
  end.

Definition store_task_data (u : universe_state) : universe_state :=
  let '(taskq', fs', tr') := store_task_data_from 0 (taskq u) (files u) (trace u) in
  mkUniverse taskq' fs' tr' (subworlds u) (next_handle u).

(** [run_all] up to the loop, as universe rank 0 goes through it: the
    tasks are enrolled and their data stored, and every subworld stands
    before its first call of [get_scheduled_task_number]. *)
Definition run_all_enter (vtask : list MacroTask) (u : universe_state) : universe_state :=
  let u1 := mkUniverse (enroll 0 vtask (taskq u)) (files u) (trace u)
              (subworlds u) (next_handle u) in
  let u2 := store_task_data u1 in
  mkUniverse (taskq u2) (files u2) (trace u2)
    (replicate (length (subworlds u2)) polling) (next_handle u2).

(** [run_all]: the loop in every subworld, and the fence after it. *)
Definition run_all (schedule : list nat) (vtask : list MacroTask) (u : universe_state)
  : outcome universe_state :=
  u4 ← loop_steps schedule (run_all_enter vtask u);
  fence_after_loop u4.

(** The second loop of [map]: [vtask[i]] is the task at [first + i] of the
    list; [get_result] fills its result from the file [result_of_task<i>]. *)
Fixpoint collect (first i n : nat) (u : universe_state)
  : outcome (list Function * universe_state) :=
  match n with
  | 0 => Ok ([], u)
  | S m =>
      r ← function_read (files u) (next_handle u) (result_name i);
      '(vresult, u') ←
        collect first (S i) m
          (mkUniverse (alter (with_result r) (first + i) (taskq u)) (files u)
             (trace u ++ [universe_loaded_result i (result_name i)])
             (subworlds u) (next_handle u + 1)%Z);
      Ok (r :: vresult, u')
  end.

(** [map]; [task1] is not used. *)
Definition map (schedule : list nat) (task1 : MacroTask) (vdata : list data_type.t)
    (u : universe_state) : outcome (list Function * universe_state) :=
  let vtask := MacroTask_of_data <$> vdata in
  u' ← run_all schedule vtask u;
  collect (length (taskq u)) 0 (length vdata) u'.

(** [macro_taskq(universe, nworld)] over the files [fs]: an empty task list
    and the subworlds of [create_worlds]. *)
Definition macro_taskq (universe_size nworld : nat) (fs : gmap string archive_file)
    (h : Z) : outcome universe_state :=
  _ ← create_worlds universe_size 0 nworld;
  Ok (mkUniverse [] fs [] (replicate nworld polling) h).

(** [localize] of a function from one world to another is the one place
    that removes a file: it saves [data] under [filename+id] when the
    function is initialized and bound to the origin, loads the file into
    the destination and removes it. *)
Definition localize (bound_to_origin : bool) (data : Function) (id : nat)
    (filename : string) (u : universe_state) : outcome (Function * universe_state) :=
  let name := filename +:+ to_string id in
  let saves := (is_initialized data && bound_to_origin)%bool in
  let fs := if saves then <[name := function_archive (coeffs <$> data)]> (files u)
            else files u in
  let tr := if saves then trace u ++ [universe_stored_data id name] else trace u in
  r ← function_read fs (next_handle u) name;
  Ok (r, mkUniverse (taskq u) (delete name fs)
           (tr ++ [universe_loaded_result id name; removed name])
           (subworlds u) (next_handle u + 1)%Z).

(** ** Queues and batches used as examples *)

(** A payload as [main] builds it: [dataT(i,i,f)] with [f.add_scalar(i)];
    [bits] is the pattern of the double. *)
Definition example_data (ii : nat) (i bits h : Z) : data_type.t :=
  fst (data_type_new ii i bits (Some (mkImpl h (add_scalar i)))).

Definition task_with (p : Z) (s : Status) (k : nat) : MacroTask :=
  {| priority := p; stat := s; data := example_data k (Z.of_nat k) 0 (Z.of_nat k);
     result := None |}.

(** Ten waiting tasks with the priorities [0,0,5,0,5,0,0,5,0,0]. *)
Definition ten_tasks : list MacroTask :=
  imap (fun k p => task_with p Waiting k) [0; 0; 5; 0; 5; 0; 0; 5; 0; 0]%Z.

(** The payloads whose plain fields fit their C++ types: [i] an [int],
    [d] the pattern of a double, the handle of [f] a 64-bit value. *)
Definition representable (x : data_type.t) : Prop :=
  (- 2 ^ 31 <= data_type.i x < 2 ^ 31)%Z /\
  (0 <= data_type.d x < 2 ^ 64)%Z /\
  match data_type.f x with
  | Some impl => (0 <= handle impl < 2 ^ 64)%Z
  | None => True
  end.

(** A task that has been claimed and has run: priority 5, [Running], the
    payload of [main] for [i = 3] under the file name [dummy3], a result. *)
Definition running_task : MacroTask :=
  {| priority := 5; stat := Running; data := example_data 3 3 0 4096;
     result := Some (mkImpl 8192 (functor_gaussian 0)) |}.

(** ** The loop as a transition relation, and what it keeps

    The steps of [loop_step] that return, one rule for each thing a subworld
    can do next, with the events the step adds to the log. *)
Inductive loop_transition (sw : nat) (u : universe_state)
  : list event -> universe_state -> Prop :=
| idles :
    subworlds u !! sw = None \/ subworlds u !! sw = Some left_loop ->
    loop_transition sw u [] u
| leaves :
    subworlds u !! sw = Some polling ->
    (forall t, t ∈ taskq u -> stat t <> Waiting) ->
    loop_transition sw u []
      (mkUniverse (taskq u) (files u) (trace u)
         (<[sw := left_loop]> (subworlds u)) (next_handle u))
| claims (j : nat) (t : MacroTask) :
    subworlds u !! sw = Some polling ->
    taskq u !! j = Some t -> stat t = Waiting ->
    (forall j' t', j' < j -> taskq u !! j' = Some t' -> stat t' <> Waiting) ->
    loop_transition sw u [claimed sw j]
      (mkUniverse (alter set_running j (taskq u)) (files u)
         (trace u ++ [claimed sw j])
         (<[sw := working j at_get_data (set_running t)]> (subworlds u))
         (next_handle u))
| loads (j : nat) (task : MacroTask) (x : data_type.t) :
    subworlds u !! sw = Some (working j at_get_data task) ->
    data_type_read (files u) (next_handle u) (data task) = Ok x ->
    loop_transition sw u [loaded_data sw j (data_type.filename (data task))]
      (mkUniverse (taskq u) (files u)
         (trace u ++ [loaded_data sw j (data_type.filename (data task))])
         (<[sw := working j at_run (with_data x task)]> (subworlds u))
         (next_handle u + 1)%Z)
| runs (j : nat) (task : MacroTask) :
    subworlds u !! sw = Some (working j at_run task) ->
    loop_transition sw u [ran sw j]
      (mkUniverse (taskq u) (files u)
         (trace u ++ [ran sw j])
         (<[sw := working j at_set_complete (run (next_handle u) task)]> (subworlds u))
         (next_handle u + 1)%Z)
| reports (j : nat) (task : MacroTask) :
    subworlds u !! sw = Some (working j at_set_complete task) ->
    j < length (taskq u) ->
    loop_transition sw u [reported_complete sw j]
      (mkUniverse (alter set_complete j (taskq u)) (files u)
         (trace u ++ [reported_complete sw j])
         (<[sw := working j at_store_and_clear_data task]> (subworlds u))
         (next_handle u))
| stores_data (j : nat) (task : MacroTask) :
    subworlds u !! sw = Some (working j at_store_and_clear_data task) ->
    loop_transition sw u [stored_data sw j (data_type.filename (data task))]
      (mkUniverse (taskq u)
         (<[data_type.filename (data task) := fst (store_and_clear (data task))]> (files u))
         (trace u ++ [stored_data sw j (data_type.filename (data task))])
         (<[sw := working j at_store_and_clear_result
                    (with_data (snd (store_and_clear (data task))) task)]> (subworlds u))
         (next_handle u))
| stores_result (j : nat) (task : MacroTask) :
    subworlds u !! sw = Some (working j at_store_and_clear_result task) ->
    loop_transition sw u [stored_result sw j (result_name j)]
      (mkUniverse (taskq u)
         (<[result_name j := function_archive (coeffs <$> result task)]> (files u))
         (trace u ++ [stored_result sw j (result_name j)])
         (<[sw := polling]> (subworlds u))
         (next_handle u)).

(** The body of the loop on task [j] in subworld [sw], in the order of the
    source; [name] is the file of the payload. *)
Definition loop_body_events (sw j : nat) (name : string) : list event :=
  [claimed sw j; loaded_data sw j name; ran sw j; reported_complete sw j;
   stored_data sw j name; stored_result sw j (result_name j)].

(** How many steps of the body lie behind a subworld at a point of the
    loop, and the status rank 0 has for its task there. *)
Definition done_before (pc : loop_point) : nat :=
  match pc with
  | at_get_data => 1
  | at_run => 2
  | at_set_complete => 3
  | at_store_and_clear_data => 4
  | at_store_and_clear_result => 5
  end.

Definition stat_at (pc : loop_point) : Status :=
  match pc with
  | at_get_data | at_run | at_set_complete => Running
  | at_store_and_clear_data | at_store_and_clear_result => Complete
  end.

(** What holds of the task list [tq], the subworlds [sws] and the events
    [tr] of the loop so far: a subworld at work holds a task of the list in
    the status of its point of the loop, and the events on that task are the
    steps of the body behind it; no two subworlds hold one task; a waiting
    task has no event; a running task is held; a complete task is held or
    has the whole body behind it; once a subworld has left, no task waits. *)
Record loop_invariant (tq : list MacroTask) (sws : list subworld_state)
    (tr : list event) : Prop := mkInv {
  inv_held : forall sw j pc task,
    sws !! sw = Some (working j pc task) ->
    exists t, tq !! j = Some t /\ stat t = stat_at pc /\
              data_type.filename (data task) = data_type.filename (data t) /\
              steps_on j tr =
                take (done_before pc) (loop_body_events sw j (data_type.filename (data t)));
  inv_one_holder : forall sw sw' j pc pc' task task',
    sws !! sw = Some (working j pc task) ->
    sws !! sw' = Some (working j pc' task') -> sw = sw';
  inv_waiting : forall j t, tq !! j = Some t -> stat t = Waiting -> steps_on j tr = [];
  inv_running : forall j t, tq !! j = Some t -> stat t = Running ->
    exists sw pc task, sws !! sw = Some (working j pc task);
  inv_complete : forall j t, tq !! j = Some t -> stat t = Complete ->
    (exists sw pc task, sws !! sw = Some (working j pc task)) \/
    (exists sw, steps_on j tr = loop_body_events sw j (data_type.filename (data t)));
  inv_known : forall j t, tq !! j = Some t -> stat t <> Unknown;
  inv_outside : forall j, length tq <= j -> steps_on j tr = [];
  inv_steps : Forall (fun e => is_Some (element_of e)) tr;
  inv_left : forall sw, sws !! sw = Some left_loop ->
    forall t, t ∈ tq -> stat t <> Waiting
}.

(** A payload whose file is not the file of a result. *)
Definition no_result_name (x : data_type.t) : Prop :=
  forall j, data_type.filename x <> result_name j.

(** How often the file [name] is written in a log. *)
Definition writes_of (name : string) (tr : list event) : nat :=
  length (filter (fun e => access_of e = Some (Write name)) tr).

(** The file names of the payloads of a task list. *)
Definition filenames (tq : list MacroTask) : list string :=
  (fun t => data_type.filename (data t)) <$> tq.

(** What every phase of [run_all] and [map] keeps between two states, with
    [ev] the events it adds to the log: the file names of the payloads in
    the task list, the number of subworlds and every file that was there;
    a file that an event of [ev] writes is there afterwards, no event of
    [ev] removes one, and a file that no event of [ev] writes is as it was. *)
Record loop_frame (u u' : universe_state) (ev : list event) : Prop := mkFrame {
  frame_trace : trace u' = trace u ++ ev;
  frame_filenames : filenames (taskq u') = filenames (taskq u);
  frame_subworlds : length (subworlds u') = length (subworlds u);
  frame_files : forall name, is_Some (files u !! name) -> is_Some (files u' !! name);
  frame_written : forall e name,
    e ∈ ev -> access_of e = Some (Write name) -> is_Some (files u' !! name);
  frame_no_remove : forall e name, e ∈ ev -> access_of e <> Some (Remove name);
  frame_unwritten : forall name,
    (forall e, e ∈ ev -> access_of e <> Some (Write name)) ->
    files u' !! name = files u !! name
}.

(** ** Progress of the loop

    The steps a subworld has before it when no further task waits: the rest
    of the body and the call that finds nothing. *)
Definition steps_left (w : subworld_state) : nat :=
  match w with
  | polling => 1
  | working _ pc _ => 7 - done_before pc
  | left_loop => 0
  end.

Definition waiting_count (tq : list MacroTask) : nat :=
  length (filter (fun t => stat t = Waiting) tq).

(** The steps the subworlds have before them in all: six and one for each
    waiting task, the rest for the tasks that are held. *)
Definition work_left (u : universe_state) : nat :=
  6 * waiting_count (taskq u) + sum_list (steps_left <$> subworlds u).

(** A state of the loop in which no step can fail: the invariant holds of
    the events [tr] so far, no payload is in a file named like a result, the
    file of every payload holds a payload, and the file of every result
    written so far holds a function. *)
Record loop_ready (u : universe_state) (tr : list event) : Prop := mkReady {
  ready_invariant : loop_invariant (taskq u) (subworlds u) tr;
  ready_names : forall t, t ∈ taskq u -> no_result_name (data t);
  ready_data : forall name, name ∈ filenames (taskq u) ->
    exists d i c, files u !! name = Some (data_archive d i c);
  ready_results : forall sw j, stored_result sw j (result_name j) ∈ tr ->
    exists c, files u !! result_name j = Some (function_archive c)
}.

(** What a step of subworld [sw] takes off the work that is left: one
    step unless the subworld has left the loop or is no subworld. *)
Definition step_taken (u : universe_state) (sw : nat) : nat :=
  match subworlds u !! sw with
  | Some polling | Some (working _ _ _) => 1
  | Some left_loop | None => 0
  end.

(** [n] rounds in which each of [k] subworlds takes one step. *)
Definition round_robin (k n : nat) : list nat := concat (replicate n (seq 0 k)).

(** A new queue on a universe of one rank with one subworld and no file;
    a batch of one payload; the schedule of seven steps of subworld 0. *)
Definition new_queue : universe_state := mkUniverse [] ∅ [] [polling] 0.

Definition one_input : list data_type.t := [example_data 0 0 0 100].

Definition seven_steps : list nat := replicate 7 0.

(** The universe as the loop of [run_all] finds it for that batch. *)
Definition loop_start : universe_state :=
  run_all_enter (MacroTask_of_data <$> one_input) new_queue.

(** The queue after [map] has run that batch on the new queue. *)
Definition used_queue : universe_state :=
  match map seven_steps (task_with 0 Unknown 0) one_input new_queue with
  | Ok (_, u) => u
  | _ => new_queue
  end.

(** ** What a run of the loop keeps, further *)

(** The task numbers that the calls of [get_scheduled_task_number] have
    handed out, in the order of the log. *)
Definition claimed_elements (tr : list event) : list nat :=
  omap (fun e => match e with claimed _ j => Some j | _ => None end) tr.

(** The file that [store_and_clear] writes for a payload. *)
Definition payload_file (x : data_type.t) : archive_file := fst (store_and_clear x).

(** The points of the loop at which the subworld holds the payload as
    [get_data] has read it, and those at which the task has run. *)
Definition data_loaded (pc : loop_point) : bool :=
  match pc with
  | at_run | at_set_complete | at_store_and_clear_data => true
  | at_get_data | at_store_and_clear_result => false
  end.

Definition has_run (pc : loop_point) : bool :=
  match pc with
  | at_set_complete | at_store_and_clear_data | at_store_and_clear_result => true
  | at_get_data | at_run => false
  end.

(** What a subworld holds, against the payloads [xs] of the task list and
    the files [fs0] of the payloads as the loop found them: a payload that
    has been loaded is what its file holds, and the result of a task that
    has run is the projection of [gaussian(d)] for the [d] of its payload. *)
Definition subworld_content (xs : list data_type.t) (fs0 : gmap string archive_file)
    (w : subworld_state) : Prop :=
  match w with
  | working j pc task =>
      (data_loaded pc = true ->
       fs0 !! data_type.filename (data task) = Some (payload_file (data task))) /\
      (has_run pc = true ->
       exists x h, xs !! j = Some x /\
                   result task = Some (mkImpl h (functor_gaussian (data_type.d x))))
  | polling | left_loop => True
  end.

(** What the loop keeps of the content of the files: the payloads of the
    task list are [xs] throughout, their files are as in [fs0], and the
    result file of a task, once written, holds the projection of
    [gaussian(d)] for the [d] of the payload of that task. *)
Record loop_content (xs : list data_type.t) (fs0 : gmap string archive_file)
    (u : universe_state) (tr : list event) : Prop := mkContent {
  content_ready : loop_ready u tr;
  content_data : data <$> taskq u = xs;
  content_files : forall x, x ∈ xs ->
    files u !! data_type.filename x = fs0 !! data_type.filename x;
  content_subworlds : forall sw w,
    subworlds u !! sw = Some w -> subworld_content xs fs0 w;
  content_stored : forall sw j,
    stored_result sw j (result_name j) ∈ tr ->
    exists x, xs !! j = Some x /\
      files u !! result_name j =
        Some (function_archive (Some (functor_gaussian (data_type.d x))))
}.

(** The files after [store_and_clear_data] on every task of a list, in the
    order of the list. *)
Definition store_all (l : list MacroTask) (fs : gmap string archive_file)
  : gmap string archive_file :=
  foldl (fun fs t => <[data_type.filename (data t) := payload_file (data t)]> fs) fs l.

(** [localize(dataT&, origin, destination)], which
    [MacroTaskIntermediate::localize] calls on the payload of a task:
    [store_and_clear(origin)], then [load(destination)]; [h] is the handle
    of the function that is read. *)
Definition localize_data (x : data_type.t) (fs : gmap string archive_file) (h : Z)
  : outcome (data_type.t * gmap string archive_file) :=
  let '(file, x1) := store_and_clear x in
  let fs' := <[data_type.filename x := file]> fs in
  x2 ← data_type_read fs' h x1;
  Ok (x2, fs').

(** ** [main] *)

Section Main.

(** The bits of the [double] that the conversion of an [int] gives. *)
Variable double_of_int : Z -> Z.

(** The loop of [main] that fills [vdata] and [vtask], for [n] values of
    [i] from [i] on: [f] is a new function with [add_scalar(i)], and each of
    the two [dataT(i,i,f)] takes the next file name of the counter [ii]. *)
Fixpoint main_inputs (n i ii : nat) (h : Z)
  : list data_type.t * list MacroTask * nat * Z :=
  match n with
  | 0 => ([], [], ii, h)
  | S m =>
      let f := Some (mkImpl h (add_scalar (Z.of_nat i))) in
      let '(x, ii1) := data_type_new ii (Z.of_nat i) (double_of_int (Z.of_nat i)) f in
      let '(y, ii2) := data_type_new ii1 (Z.of_nat i) (double_of_int (Z.of_nat i)) f in
      let '(vdata, vtask, ii3, h3) := main_inputs m (S i) ii2 (h + 1)%Z in
      (x :: vdata, MacroTask_of_data y :: vtask, ii3, h3)
  end.

(** [main] on a universe of [universe_size] ranks over the files [fs]:
    five tasks, a queue that runs [vtask] with [run_all], the default task
    [task], and a second queue on which [map] runs [vdata]; the two
    schedules are those of the two loops.  What is returned is [result]. *)
Definition main (universe_size : nat) (schedule schedule1 : list nat)
    (fs : gmap string archive_file) : outcome (list Function * universe_state) :=
  let nworld := Nat.min universe_size 3 in
  let '(vdata, vtask, ii, h) := main_inputs 5 0 0 0 in
  q ← macro_taskq universe_size nworld fs h;
  u ← run_all schedule vtask q;
  let '(x, _) := data_type_default ii in
  let task := MacroTask_of_data x in
  q1 ← macro_taskq universe_size nworld (files u) (next_handle u);
  map schedule1 task vdata q1.

End Main.

(** * Properties *)

Lemma bind_Ok {A B : Type} (a : A) (k : A -> outcome B) : Ok a ≫= k = k a.
Proof. reflexivity. Qed.

(** ** The scheduler functions *)

Lemma is_Waiting_stat (t : MacroTask) : is_Waiting t = true <-> stat t = Waiting.
Proof. unfold is_Waiting. destruct (stat t); split; congruence. Qed.

Lemma find_if_le {A : Type} (p : A -> bool) (l : list A) : find_if p l <= length l.
Proof. induction l as [|x l IH]; simpl; [lia|]. destruct (p x); simpl; lia. Qed.

Lemma find_if_found {A : Type} (p : A -> bool) (l : list A) :
  find_if p l < length l -> exists x, l !! find_if p l = Some x /\ p x = true.
Proof.
  induction l as [|x l IH]; simpl; [lia|].
  destruct (p x) eqn:E; simpl.
  - intros _. exists x. auto.
  - intros H. apply IH. lia.
Qed.

Lemma find_if_before {A : Type} (p : A -> bool) (l : list A) (j : nat) (x : A) :
  j < find_if p l -> l !! j = Some x -> p x = false.
Proof.
  revert j. induction l as [|y l IH]; simpl; intros j; [lia|].
  destruct (p y) eqn:E; [lia|].
  destruct j as [|j]; simpl.
  - intros _ [= <-]. exact E.
  - intros H. apply IH. lia.
Qed.

Lemma find_if_none {A : Type} (p : A -> bool) (l : list A) :
  find_if p l = length l -> forall x, x ∈ l -> p x = false.
Proof.
  intros H x [j Hj]%list_elem_of_lookup.
  apply (find_if_before p l j x); [|exact Hj].
  rewrite H. eapply lookup_lt_Some, Hj.
Qed.

Lemma find_if_split {A : Type} (p : A -> bool) (l : list A) :
  find_if p l < length l ->
  exists pre x post, l = pre ++ x :: post /\ length pre = find_if p l /\
                     p x = true /\ Forall (fun y => p y = false) pre.
Proof.
  induction l as [|y l IH]; simpl; [lia|].
  destruct (p y) eqn:E; simpl.
  - intros _. exists [], y, l. repeat split; auto.
  - intros H. destruct IH as (pre & x & post & -> & Hlen & Hx & Hpre); [lia|].
    exists (y :: pre), x, post. simpl. repeat split; auto.
Qed.

Lemma get_scheduled_task_number_local_found (taskq : list MacroTask) :
  find_if is_Waiting taskq < length taskq ->
  get_scheduled_task_number_local 0 taskq =
    Ok (Z.of_nat (find_if is_Waiting taskq),
        alter set_running (find_if is_Waiting taskq) taskq).
Proof.
  intros H. unfold get_scheduled_task_number_local. simpl.
  destruct (Nat.eqb_spec (find_if is_Waiting taskq) (length taskq)); [lia|reflexivity].
Qed.

Lemma get_scheduled_task_number_local_none (taskq : list MacroTask) :
  find_if is_Waiting taskq = length taskq ->
  get_scheduled_task_number_local 0 taskq = Ok ((-1)%Z, taskq).
Proof.
  intros H. unfold get_scheduled_task_number_local. simpl.
  rewrite H, Nat.eqb_refl. reflexivity.
Qed.

Lemma waiting_positions_from_none (k : nat) (l : list MacroTask) :
  Forall (fun t => is_Waiting t = false) l -> waiting_positions_from k l = [].
Proof.
  revert k. induction l as [|t l IH]; intros k H; [reflexivity|].
  inversion H as [|? ? Ht Hl]; subst. simpl. rewrite Ht. auto.
Qed.

Lemma waiting_positions_from_app (k : nat) (l1 l2 : list MacroTask) :
  waiting_positions_from k (l1 ++ l2) =
  waiting_positions_from k l1 ++ waiting_positions_from (k + length l1) l2.
Proof.
  revert k. induction l1 as [|t l1 IH]; intros k; simpl.
  - f_equal. lia.
  - rewrite IH. replace (S k + length l1) with (k + S (length l1)) by lia.
    destruct (is_Waiting t); reflexivity.
Qed.

Lemma elem_of_waiting_positions_from (k j : nat) (l : list MacroTask) :
  j ∈ waiting_positions_from k l <->
  k <= j /\ exists t, l !! (j - k) = Some t /\ stat t = Waiting.
Proof.
  revert k. induction l as [|t l IH]; intros k; simpl.
  - split; [intros H; inversion H|intros (_ & t & H & _); discriminate].
  - assert (Hstep : j ∈ waiting_positions_from (S k) l <->
                    k < j /\ exists t', (t :: l) !! (j - k) = Some t' /\ stat t' = Waiting).
    { rewrite IH. split.
      - intros (Hk & t' & Ht' & Hs). split; [lia|]. exists t'. split; [|exact Hs].
        replace (j - k) with (S (j - S k)) by lia. exact Ht'.
      - intros (Hk & t' & Ht' & Hs). split; [lia|]. exists t'. split; [|exact Hs].
        replace (j - k) with (S (j - S k)) in Ht' by lia. exact Ht'. }
    destruct (is_Waiting t) eqn:E.
    + rewrite elem_of_cons, Hstep. split.
      * intros [->|(Hk & H)]; [|split; [lia|exact H]].
        split; [lia|]. exists t. rewrite Nat.sub_diag. split; [reflexivity|].
        apply is_Waiting_stat, E.
      * intros (Hk & t' & Ht' & Hs).
        destruct (decide (j = k)) as [->|Hne]; [left; reflexivity|].
        right. split; [lia|]. exists t'. auto.
    + rewrite Hstep. split.
      * intros (Hk & H). split; [lia|exact H].
      * intros (Hk & t' & Ht' & Hs).
        destruct (decide (j = k)) as [->|Hne].
        -- rewrite Nat.sub_diag in Ht'. injection Ht' as <-.
           apply is_Waiting_stat in Hs. congruence.
        -- split; [lia|]. exists t'. auto.
Qed.

Lemma waiting_positions_from_sorted (k : nat) (l : list MacroTask) :
  StronglySorted lt (waiting_positions_from k l).
Proof.
  revert k. induction l as [|t l IH]; intros k; simpl; [constructor|].
  destruct (is_Waiting t); [|apply IH].
  constructor; [apply IH|].
  apply Forall_forall. intros j [Hj _]%elem_of_waiting_positions_from. lia.
Qed.

Lemma claim_sequence_take (n : nat) (taskq : list MacroTask) :
  claim_sequence n taskq = Z.of_nat <$> take n (waiting_positions taskq).
Proof.
  revert taskq. induction n as [|n IH]; intros taskq; [reflexivity|].
  cbn [claim_sequence].
  destruct (Nat.lt_ge_cases (find_if is_Waiting taskq) (length taskq)) as [Hlt|Hge].
  - rewrite get_scheduled_task_number_local_found by exact Hlt.
    destruct (find_if_split _ _ Hlt) as (pre & t & post & Heq & Hlen & Ht & Hpre).
    destruct (Z.ltb_spec (Z.of_nat (find_if is_Waiting taskq)) 0); [lia|].
    rewrite IH. rewrite <- Hlen. clear Hlen Hlt. subst taskq.
    unfold waiting_positions.
    rewrite alter_app_r_alt by lia. rewrite Nat.sub_diag. simpl.
    rewrite !waiting_positions_from_app. simpl.
    rewrite (waiting_positions_from_none 0 pre) by exact Hpre.
    rewrite Ht. simpl. reflexivity.
  - assert (Heq : find_if is_Waiting taskq = length taskq)
      by (pose proof (find_if_le is_Waiting taskq); lia).
    rewrite get_scheduled_task_number_local_none by exact Heq. simpl.
    unfold waiting_positions. rewrite waiting_positions_from_none; [reflexivity|].
    apply Forall_forall. intros x Hx. eapply find_if_none; eauto.
Qed.

(** C10: every call of [get_scheduled_task_number_local] on universe rank 0
    either finds the waiting task of smallest position, returns that
    position, which lies inside the list, and changes the status of that one
    task from [Waiting] to [Running]: the task at the position is [Running]
    after the call and has the priority, the payload and the result it had;
    or the call returns -1 and changes nothing when no task waits.  Every
    other task and the length and order of the list stay as they were. *)
Theorem get_scheduled_task_number_local_step (taskq : list MacroTask) :
  (exists (j : nat) (t t1 : MacroTask) (taskq' : list MacroTask),
      get_scheduled_task_number_local 0 taskq = Ok (Z.of_nat j, taskq') /\
      j < length taskq /\
      taskq !! j = Some t /\ stat t = Waiting /\
      (forall j' t', j' < j -> taskq !! j' = Some t' -> stat t' <> Waiting) /\
      taskq' !! j = Some t1 /\ stat t1 = Running /\
      priority t1 = priority t /\ data t1 = data t /\ result t1 = result t /\
      (forall j', j' <> j -> taskq' !! j' = taskq !! j') /\
      length taskq' = length taskq)
  \/
  (get_scheduled_task_number_local 0 taskq = Ok ((-1)%Z, taskq) /\
   forall t, t ∈ taskq -> stat t <> Waiting).
Proof.
  destruct (Nat.lt_ge_cases (find_if is_Waiting taskq) (length taskq)) as [Hlt|Hge].
  - left. destruct (find_if_found _ _ Hlt) as (t & Ht & Hw).
    exists (find_if is_Waiting taskq), t, (set_running t),
           (alter set_running (find_if is_Waiting taskq) taskq).
    split; [apply get_scheduled_task_number_local_found, Hlt|].
    split; [exact Hlt|]. split; [exact Ht|].
    split; [apply is_Waiting_stat, Hw|].
    split.
    { intros j' t' Hj' Ht' Hs. apply is_Waiting_stat in Hs.
      rewrite (find_if_before _ _ _ _ Hj' Ht') in Hs. discriminate. }
    split; [rewrite list_lookup_alter_eq, Ht; reflexivity|].
    split; [reflexivity|]. split; [reflexivity|]. split; [reflexivity|].
    split; [reflexivity|].
    split; [intros j' Hne; apply list_lookup_alter_ne; congruence|].
    apply length_alter.
  - right.
    assert (Heq : find_if is_Waiting taskq = length taskq)
      by (pose proof (find_if_le is_Waiting taskq); lia).
    split; [apply get_scheduled_task_number_local_none, Heq|].
    intros t Ht Hs. apply is_Waiting_stat in Hs.
    rewrite (find_if_none _ _ Heq t Ht) in Hs. discriminate.
Qed.

(** C1, as the code has it: the calls hand out the waiting tasks by
    increasing position and read no priority.  [n] calls in a row return the
    first [n] positions of waiting tasks in increasing order, so of two
    waiting tasks the one at the smaller position is claimed first, and the
    same positions are returned when the priorities are replaced by any
    others.  A call returns the first waiting position and leaves the task
    there [Running], with its priority, payload and result as they were and
    every other task untouched, so that the waiting positions after the call
    are the others; when no task waits it returns -1 and changes nothing. *)
Theorem claim_sequence_by_position (n : nat) (taskq : list MacroTask) :
  claim_sequence n taskq = Z.of_nat <$> take n (waiting_positions taskq) /\
  StronglySorted lt (waiting_positions taskq) /\
  (forall j, j ∈ waiting_positions taskq <->
             exists t, taskq !! j = Some t /\ stat t = Waiting) /\
  (forall prio : nat -> Z,
      claim_sequence n (imap (fun k t => with_priority (prio k) t) taskq) =
      claim_sequence n taskq) /\
  (forall j rest,
      waiting_positions taskq = j :: rest ->
      exists (t t1 : MacroTask) (taskq' : list MacroTask),
        get_scheduled_task_number_local 0 taskq = Ok (Z.of_nat j, taskq') /\
        taskq !! j = Some t /\ stat t = Waiting /\
        taskq' !! j = Some t1 /\ stat t1 = Running /\
        priority t1 = priority t /\ data t1 = data t /\ result t1 = result t /\
        (forall j', j' <> j -> taskq' !! j' = taskq !! j') /\
        waiting_positions taskq' = rest) /\
  (waiting_positions taskq = [] ->
   get_scheduled_task_number_local 0 taskq = Ok ((-1)%Z, taskq)).
Proof.
  split; [apply claim_sequence_take|].
  split; [apply waiting_positions_from_sorted|].
  split.
  { intros j. unfold waiting_positions. rewrite elem_of_waiting_positions_from.
    rewrite Nat.sub_0_r. split; [intros [_ H]; exact H|intros H; split; [lia|exact H]]. }
  split.
  { intros prio. rewrite !claim_sequence_take. do 2 f_equal.
    unfold waiting_positions. generalize 0. revert prio.
    induction taskq as [|t l IH]; intros prio k; [reflexivity|].
    simpl. rewrite (IH (prio ∘ S)). reflexivity. }
  destruct (Nat.lt_ge_cases (find_if is_Waiting taskq) (length taskq)) as [Hlt|Hge].
  - rewrite get_scheduled_task_number_local_found by exact Hlt.
    destruct (find_if_split _ _ Hlt) as (pre & t & post & Heq & Hlen & Ht & Hpre).
    rewrite <- Hlen. clear Hlt Hlen. subst taskq.
    assert (Hwp : waiting_positions (pre ++ t :: post) =
                  length pre :: waiting_positions_from (S (length pre)) post).
    { unfold waiting_positions. rewrite waiting_positions_from_app.
      rewrite (waiting_positions_from_none 0 pre) by exact Hpre. simpl. rewrite Ht.
      reflexivity. }
    rewrite Hwp. split; [|discriminate].
    intros j rest [= <- <-].
    exists t, (set_running t), (alter set_running (length pre) (pre ++ t :: post)).
    split; [reflexivity|].
    split; [rewrite lookup_app_r, Nat.sub_diag by lia; reflexivity|].
    split; [apply is_Waiting_stat, Ht|].
    split.
    { rewrite list_lookup_alter_eq, lookup_app_r, Nat.sub_diag by lia. reflexivity. }
    split; [reflexivity|]. split; [reflexivity|]. split; [reflexivity|].
    split; [reflexivity|].
    split; [intros j' Hne; apply list_lookup_alter_ne; congruence|].
    rewrite alter_app_r_alt by lia. rewrite Nat.sub_diag. simpl.
    unfold waiting_positions. rewrite waiting_positions_from_app.
    rewrite (waiting_positions_from_none 0 pre) by exact Hpre. simpl. reflexivity.
  - assert (Heq : find_if is_Waiting taskq = length taskq)
      by (pose proof (find_if_le is_Waiting taskq); lia).
    assert (Hwp : waiting_positions taskq = []).
    { unfold waiting_positions. apply waiting_positions_from_none.
      apply Forall_forall. intros x Hx. eapply find_if_none; eauto. }
    rewrite Hwp. split; [discriminate|].
    intros _. apply get_scheduled_task_number_local_none, Heq.
Qed.

(** C1, as stated, fails on the ten tasks of priorities
    [0,0,5,0,5,0,0,5,0,0]: the first call returns position 0, a task of
    priority 0, while the waiting task of highest priority is at position 2;
    three calls hand out 0, 1, 2 and not 2, 4, 7. *)
Lemma first_claim_is_not_highest_priority :
  get_scheduled_task_number_local 0 ten_tasks = Ok (0%Z, alter set_running 0 ten_tasks) /\
  spec_next_waiting ten_tasks = 2%Z /\
  claim_sequence 3 ten_tasks = [0; 1; 2]%Z /\
  (priority <$> ten_tasks !! 0) = Some 0%Z /\
  (priority <$> ten_tasks !! 2) = Some 5%Z /\
  (stat <$> ten_tasks !! 2) = Some Waiting.
Proof. repeat split; reflexivity. Qed.

(** C3, as the code has it: [set_complete_local] asserts that it runs on
    universe rank 0 and nothing else; on rank 0 it returns whatever the
    status of the task at the given position was, and the task is then
    [Complete], with its priority, payload and result as they were; the rest
    of the list is left alone. *)
Theorem set_complete_local_any_status (pre post : list MacroTask) (t : MacroTask)
    (rank : nat) :
  (exists t1,
     set_complete_local 0 (Z.of_nat (length pre)) (pre ++ t :: post) =
       Ok (pre ++ t1 :: post) /\
     stat t1 = Complete /\
     priority t1 = priority t /\ data t1 = data t /\ result t1 = result t) /\
  set_complete_local (S rank) (Z.of_nat (length pre)) (pre ++ t :: post) =
    Thrown "universe.rank()==0".
Proof.
  split; [|reflexivity].
  exists (set_complete t). split; [|repeat split; reflexivity].
  unfold set_complete_local. simpl.
  rewrite length_app. simpl.
  destruct (Z.leb_spec 0 (Z.of_nat (length pre))); [|lia].
  destruct (Z.ltb_spec (Z.of_nat (length pre)) (Z.of_nat (length pre + S (length post))));
    [|lia].
  simpl. rewrite Nat2Z.id.
  rewrite alter_app_r_alt by lia. rewrite Nat.sub_diag. reflexivity.
Qed.

(** C3, as stated, fails on a list of one waiting task: [set_complete_local]
    returns and the task is [Complete]; the same holds for a task that is
    [Unknown] or already [Complete]. *)
Lemma set_complete_local_on_waiting :
  set_complete_local 0 0 [task_with 0 Waiting 0] = Ok [task_with 0 Complete 0] /\
  set_complete_local 0 0 [task_with 0 Unknown 0] = Ok [task_with 0 Complete 0] /\
  set_complete_local 0 0 [task_with 0 Complete 0] = Ok [task_with 0 Complete 0].
Proof. repeat split; reflexivity. Qed.

(** ** The partitioner *)

Section Partitioner.

Variables (N k : nat).
Hypothesis k_positive : 1 <= k.

Lemma fill_process_list_app (l1 l2 : list nat) (pl : list (list nat)) :
  fill_process_list (l1 ++ l2) k pl =
  fill_process_list l1 k pl ≫= fill_process_list l2 k.
Proof.
  revert pl. induction l1 as [|r l1 IH]; intros pl; simpl; [reflexivity|].
  destruct (k =? 0); [reflexivity|]. apply IH.
Qed.

Lemma process_group_S (m j : nat) :
  process_group k (S m) j =
  process_group k m j ++ (if decide (m mod k = j) then [m] else []).
Proof.
  unfold process_group. rewrite seq_S, filter_app. reflexivity.
Qed.

Lemma fill_process_list_seq (m : nat) :
  fill_process_list (seq 0 m) k (replicate k []) = Ok (process_group k m <$> seq 0 k).
Proof.
  induction m as [|m IH].
  - simpl. f_equal. apply list_eq. intros j.
    rewrite list_lookup_fmap. destruct (decide (j < k)) as [Hj|Hj].
    + rewrite lookup_replicate_2 by exact Hj.
      rewrite lookup_seq_lt by exact Hj. reflexivity.
    + rewrite (proj1 (lookup_replicate_None _ _ _)) by lia.
      rewrite lookup_seq_ge by lia. reflexivity.
  - rewrite seq_S, fill_process_list_app, IH. simpl.
    destruct (Nat.eqb_spec k 0); [lia|]. f_equal.
    apply list_eq. intros j.
    destruct (decide (j < k)) as [Hj|Hj].
    + rewrite (list_lookup_fmap (process_group k (S m))), lookup_seq_lt by exact Hj. simpl.
      rewrite process_group_S.
      destruct (decide (m mod k = j)) as [Heq|Hne].
      * rewrite Heq, list_lookup_alter_eq, list_lookup_fmap, lookup_seq_lt by exact Hj.
        reflexivity.
      * rewrite list_lookup_alter_ne by exact Hne.
        rewrite list_lookup_fmap, lookup_seq_lt by exact Hj. simpl.
        rewrite app_nil_r. reflexivity.
    + rewrite !lookup_ge_None_2; [reflexivity| |].
      * rewrite length_fmap, length_seq. lia.
      * rewrite length_alter, length_fmap, length_seq. lia.
Qed.

Lemma elem_of_process_group (m j r : nat) :
  r ∈ process_group k m j <-> r < m /\ r mod k = j.
Proof.
  unfold process_group. rewrite list_elem_of_filter, elem_of_seq. intuition lia.
Qed.

Lemma assign_world_skip (r : nat) (l : list (list nat)) (w : option World) :
  Forall (fun pl => r ∉ pl) l ->
  fold_left (fun all_worlds pl => if bool_decide (r ∈ pl) then Some pl else all_worlds)
            l w = w.
Proof.
  revert w. induction l as [|pl l IH]; intros w H; [reflexivity|].
  inversion H as [|? ? Hpl Hl]; subst. simpl.
  rewrite bool_decide_eq_false_2 by exact Hpl. apply IH, Hl.
Qed.

Lemma assign_world_groups (r : nat) :
  r < N -> assign_world r (process_group k N <$> seq 0 k) = Some (process_group k N (r mod k)).
Proof.
  intros Hr. unfold assign_world.
  assert (Hj : r mod k < k) by (apply Nat.mod_upper_bound; lia).
  assert (Hsplit : seq 0 k = seq 0 (r mod k) ++ seq (r mod k) (S (k - S (r mod k)))).
  { rewrite <- seq_app. f_equal. lia. }
  rewrite Hsplit, fmap_app, fold_left_app. simpl.
  rewrite bool_decide_eq_true_2 by (apply elem_of_process_group; auto).
  apply assign_world_skip.
  apply Forall_forall. intros pl [j [-> Hin]]%list_elem_of_fmap.
  apply elem_of_seq in Hin. rewrite elem_of_process_group. lia.
Qed.

Lemma create_worlds_returns (r : nat) :
  k <= N -> r < N -> create_worlds N r k = Ok (Some (round_robin_world N k r)).
Proof.
  intros HkN Hr. unfold create_worlds.
  destruct (Nat.ltb_spec N k); [lia|].
  rewrite fill_process_list_seq. simpl.
  rewrite assign_world_groups by exact Hr. reflexivity.
Qed.

Lemma elem_of_round_robin_world (r r' : nat) :
  r' ∈ round_robin_world N k r <-> r' < N /\ r' mod k = r mod k.
Proof. apply elem_of_process_group. Qed.

End Partitioner.

(** C5: for a universe of [N] ranks and [1 <= k <= N], [create_worlds]
    gives rank [r] the world of exactly the ranks [r'] with
    [r' mod k = r mod k]; every rank is in its own world, two of these worlds
    are the same world or share no rank, and every member is a rank of the
    universe. *)
Theorem create_worlds_round_robin (N k r : nat) :
  1 <= k -> k <= N -> r < N ->
  create_worlds N r k = Ok (Some (round_robin_world N k r)) /\
  (forall r', r' ∈ round_robin_world N k r <-> r' < N /\ r' mod k = r mod k) /\
  r ∈ round_robin_world N k r /\
  (forall r2, r2 < N ->
     round_robin_world N k r2 = round_robin_world N k r \/
     forall x, x ∈ round_robin_world N k r -> x ∉ round_robin_world N k r2) /\
  (forall r2, r2 < N -> r ∈ round_robin_world N k r2 ->
     round_robin_world N k r2 = round_robin_world N k r) /\
  (forall r', r' ∈ round_robin_world N k r -> r' < N) /\
  NoDup (round_robin_world N k r).
Proof.
  intros Hk HkN Hr.
  pose proof (elem_of_round_robin_world N k Hk) as Hmem.
  split; [apply create_worlds_returns; assumption|].
  split; [intros r'; apply Hmem|].
  split; [apply Hmem; auto|].
  split.
  { intros r2 Hr2. destruct (decide (r2 mod k = r mod k)) as [Heq|Hne].
    - left. unfold round_robin_world. rewrite Heq. reflexivity.
    - right. intros x Hx Hx2.
      apply Hmem in Hx, Hx2. lia. }
  split.
  { intros r2 Hr2 Hin. apply Hmem in Hin.
    unfold round_robin_world. destruct Hin as [_ ->]. reflexivity. }
  split; [intros r' Hin; apply Hmem in Hin; tauto|].
  apply NoDup_filter, NoDup_seq.
Qed.

Lemma create_worlds_round_robin_witness :
  1 <= 2 /\ 2 <= 4 /\ 3 < 4 /\
  create_worlds 4 3 2 = Ok (Some (round_robin_world 4 2 3)) /\
  round_robin_world 4 2 3 = [1; 3].
Proof.
  assert (H1 : 1 <= 2) by lia. assert (H2 : 2 <= 4) by lia. assert (H3 : 3 < 4) by lia.
  split; [exact H1|]. split; [exact H2|]. split; [exact H3|].
  split; [|reflexivity].
  exact (proj1 (create_worlds_round_robin 4 2 3 H1 H2 H3)).
Defined.

(** More subworlds than ranks: the guard throws. *)
Lemma create_worlds_too_many (N k r : nat) :
  N < k -> create_worlds N r k = Thrown "increase number of processes".
Proof.
  intros H. unfold create_worlds. destruct (Nat.ltb_spec N k); [reflexivity|lia].
Qed.

(** C8 at [nworld = 0]: the guard [universe.size() < nworld] lets the call
    through, and the first [i % nworld] is a modulus by zero; the call does
    not throw. *)
Theorem create_worlds_zero_subworlds (N r : nat) :
  create_worlds (S N) r 0 = Undefined.
Proof. reflexivity. Qed.

(** ** Enrollment *)

Lemma foldl_add_replicated_task (vtask taskq : list MacroTask) :
  foldl add_replicated_task taskq vtask = taskq ++ vtask.
Proof.
  revert taskq. induction vtask as [|t vtask IH]; intros taskq; simpl.
  - rewrite app_nil_r. reflexivity.
  - rewrite IH. unfold add_replicated_task. rewrite <- app_assoc. reflexivity.
Qed.

(** C4, as the code has it: after the enrollment of [run_all] every
    universe rank holds the whole task list, the tasks it had followed by
    the new ones in their order, with the same priorities, payloads and
    results on every rank; on rank 0 the status of every task of the list is
    [Waiting], on the other ranks the statuses are those the tasks came
    with. *)
Theorem enroll_replicates (rank : nat) (vtask taskq : list MacroTask) :
  length (enroll rank vtask taskq) = length taskq + length vtask /\
  data <$> enroll rank vtask taskq = data <$> (taskq ++ vtask) /\
  priority <$> enroll rank vtask taskq = priority <$> (taskq ++ vtask) /\
  result <$> enroll rank vtask taskq = result <$> (taskq ++ vtask) /\
  enroll 0 vtask taskq = set_waiting <$> (taskq ++ vtask) /\
  enroll (S rank) vtask taskq = taskq ++ vtask /\
  stat <$> enroll 0 vtask taskq = replicate (length taskq + length vtask) Waiting /\
  (forall t, t ∈ enroll 0 vtask taskq -> stat t = Waiting) /\
  stat <$> enroll (S rank) vtask taskq = stat <$> (taskq ++ vtask).
Proof.
  assert (Hstat : forall l : list MacroTask,
            stat <$> (set_waiting <$> l) = replicate (length l) Waiting).
  { intros l. induction l as [|t l IH]; [reflexivity|].
    rewrite !fmap_cons, IH. reflexivity. }
  assert (Hall : forall (l : list MacroTask) t, t ∈ set_waiting <$> l -> stat t = Waiting).
  { intros l t (t0 & -> & _)%list_elem_of_fmap. reflexivity. }
  unfold enroll. rewrite foldl_add_replicated_task.
  change (0 =? 0) with true. change (S rank =? 0) with false. cbv iota.
  split.
  { destruct rank as [|rank]; simpl; rewrite ?length_fmap, length_app; reflexivity. }
  split.
  { destruct rank as [|rank]; simpl; rewrite <- ?list_fmap_compose; reflexivity. }
  split.
  { destruct rank as [|rank]; simpl; rewrite <- ?list_fmap_compose; reflexivity. }
  split.
  { destruct rank as [|rank]; simpl; rewrite <- ?list_fmap_compose; reflexivity. }
  split; [reflexivity|]. split; [reflexivity|].
  split; [rewrite Hstat, length_app; reflexivity|].
  split; [apply Hall|reflexivity].
Qed.

(** C4, as stated, fails on universe rank 1 with one task handed to
    [run_all] on a new queue: the rank holds the task in its list. *)
Lemma enroll_on_rank_1 :
  enroll 1 [task_with 0 Unknown 0] [] = [task_with 0 Unknown 0] /\
  enroll 1 [task_with 0 Unknown 0] [] <> [] /\
  length (enroll 1 [task_with 0 Unknown 0] []) = length (enroll 0 [task_with 0 Unknown 0] []).
Proof. repeat split; discriminate. Qed.

(** ** The buffer archive *)

Lemma length_store_bytes (n : nat) (v : Z) : length (store_bytes n v) = n.
Proof. revert v. induction n as [|n IH]; intros v; simpl; [|rewrite IH]; reflexivity. Qed.

Lemma load_store_bytes (n : nat) (v : Z) :
  load_bytes (store_bytes n v) = (v mod 2 ^ (8 * Z.of_nat n))%Z.
Proof.
  revert v. induction n as [|n IH]; intros v.
  - simpl. rewrite Z.mod_1_r. reflexivity.
  - cbn [store_bytes load_bytes]. rewrite IH.
    change 255%Z with (Z.ones 8).
    rewrite Z.land_ones, Z.shiftr_div_pow2, Z.shiftl_mul_pow2 by lia.
    replace (8 * Z.of_nat (S n))%Z with (8 + 8 * Z.of_nat n)%Z by lia.
    rewrite Z.pow_add_r by lia.
    rewrite Z.rem_mul_r by lia. lia.
Qed.

Lemma archive_load_store_bytes (n : nat) (v : Z) (rest : list Z) :
  archive_load n (store_bytes n v ++ rest) = Ok ((v mod 2 ^ (8 * Z.of_nat n))%Z, rest).
Proof.
  unfold archive_load.
  destruct (Nat.ltb_spec (length (store_bytes n v ++ rest)) n) as [H|_].
  - rewrite length_app, length_store_bytes in H. lia.
  - rewrite take_app_length', drop_app_length' by (symmetry; apply length_store_bytes).
    rewrite load_store_bytes. reflexivity.
Qed.

Lemma load_store_bool (b : bool) (rest : list Z) :
  load_bool (store_bool b ++ rest) = Ok (b, rest).
Proof. destruct b; reflexivity. Qed.

Lemma load_store_int (v : Z) (rest : list Z) :
  (- 2 ^ 31 <= v < 2 ^ 31)%Z -> load_int (store_int v ++ rest) = Ok (v, rest).
Proof.
  intros Hv. unfold load_int, store_int. rewrite archive_load_store_bytes. simpl.
  f_equal. f_equal.
  change (2 ^ (8 * Z.of_nat 4))%Z with 4294967296%Z.
  change (2 ^ 31)%Z with 2147483648%Z in *. change (2 ^ 32)%Z with 4294967296%Z.
  destruct (Z.lt_ge_cases v 0) as [Hneg|Hpos].
  - assert (Hm : (v mod 4294967296 = v + 4294967296)%Z).
    { symmetry. apply (Z.mod_unique v 4294967296 (-1)); lia. }
    rewrite Hm. destruct (Z.ltb_spec (v + 4294967296) 2147483648); lia.
  - rewrite Z.mod_small by lia.
    destruct (Z.ltb_spec v 2147483648); lia.
Qed.

Lemma load_store_pointer (p : Z) (rest : list Z) :
  (0 <= p < 2 ^ 64)%Z -> load_pointer (store_pointer p ++ rest) = Ok (p, rest).
Proof.
  intros Hp. unfold load_pointer, store_pointer. rewrite archive_load_store_bytes.
  change (2 ^ (8 * Z.of_nat 8))%Z with (2 ^ 64)%Z.
  rewrite Z.mod_small by exact Hp. reflexivity.
Qed.

Lemma load_store_double (bits : Z) (rest : list Z) :
  (0 <= bits < 2 ^ 64)%Z -> load_double (store_double bits ++ rest) = Ok (bits, rest).
Proof. apply load_store_pointer. Qed.

Section ArchiveRoundTrip.

Variable address : Z.
Variable implementation_at : Z -> coefficients.

Lemma data_type_load_store (x0 x : data_type.t) (rest : list Z) :
  representable x -> data_type.f x0 = None ->
  data_type_load implementation_at x0 (data_type_store x ++ rest) =
  Ok ({| data_type.d := data_type.d x; data_type.i := data_type.i x;
         data_type.f := found_behind implementation_at <$> data_type.f x;
         data_type.filename := data_type.filename x0 |}, rest).
Proof.
  intros (Hi & Hd & Hf) Hx0. unfold data_type_load, data_type_store.
  rewrite <- !app_assoc.
  rewrite load_store_int by exact Hi. rewrite bind_Ok.
  rewrite load_store_double by exact Hd. rewrite bind_Ok.
  rewrite load_store_bool. rewrite bind_Ok.
  destruct (data_type.f x) as [impl|]; cbn [is_initialized].
  - rewrite load_store_pointer by exact Hf. reflexivity.
  - rewrite Hx0. reflexivity.
Qed.

Lemma allocate_and_deserialize_store (ii : nat) (t : MacroTask) (rest : list Z) :
  representable (data t) ->
  allocate_and_deserialize implementation_at ii (MacroTask_store t ++ rest) =
  Ok ({| priority := 0; stat := Unknown;
         data := {| data_type.d := data_type.d (data t);
                    data_type.i := data_type.i (data t);
                    data_type.f := found_behind implementation_at <$> data_type.f (data t);
                    data_type.filename := "dummy" +:+ to_string ii |};
         result := None |}, S ii, rest).
Proof.
  intros Hrep. unfold allocate_and_deserialize, MacroTask_store, data_type_default.
  rewrite data_type_load_store by (exact Hrep || reflexivity). reflexivity.
Qed.

(** C7, as the code has it: the stream of a task is the presence byte 1,
    the address of the deserializer of its type, and the body [i], [d],
    the presence of [f] and the handle of [f]; a null pointer is the one
    byte 0 and loads as a null pointer.  Loading what was stored gives a
    task with the same [i] and [d], the same presence and the same handle
    of [f]; the priority, the status and the result are those of a new
    task, and the file name of the payload is the next [dummy] name. *)
Theorem load_store_round_trip (ii : nat) (t : MacroTask) (rest : list Z) :
  (0 <= address < 2 ^ 64)%Z ->
  representable (data t) ->
  store address (Some t) = 1%Z :: store_pointer address ++ MacroTask_store t /\
  store address None = [0%Z] /\
  load address implementation_at ii (store address None ++ rest) = Ok (None, ii, rest) /\
  exists t',
    load address implementation_at ii (store address (Some t) ++ rest) =
      Ok (Some t', S ii, rest) /\
    data_type.i (data t') = data_type.i (data t) /\
    data_type.d (data t') = data_type.d (data t) /\
    is_initialized (data_type.f (data t')) = is_initialized (data_type.f (data t)) /\
    handle <$> data_type.f (data t') = handle <$> data_type.f (data t) /\
    priority t' = 0%Z /\ stat t' = Unknown /\ result t' = None /\
    data_type.filename (data t') = "dummy" +:+ to_string ii.
Proof.
  intros Haddr Hrep.
  split; [reflexivity|]. split; [reflexivity|]. split; [reflexivity|].
  eexists. split.
  - unfold load, store.
    rewrite bool_decide_eq_true_2 by eauto.
    rewrite <- app_assoc, load_store_bool, bind_Ok.
    rewrite <- app_assoc, load_store_pointer by exact Haddr. rewrite bind_Ok.
    rewrite Z.eqb_refl.
    rewrite allocate_and_deserialize_store by exact Hrep. reflexivity.
  - simpl. destruct (data_type.f (data t)); repeat split; reflexivity.
Qed.

End ArchiveRoundTrip.

Lemma load_store_round_trip_witness :
  (0 <= 4198400 < 2 ^ 64)%Z /\ representable (data running_task) /\
  exists t',
    load 4198400 (fun _ => add_scalar 3) 7 (store 4198400 (Some running_task)) =
      Ok (Some t', 8, []) /\
    data_type.i (data t') = 3%Z /\
    handle <$> data_type.f (data t') = Some 4096%Z.
Proof.
  assert (Ha : (0 <= 4198400 < 2 ^ 64)%Z) by lia.
  assert (Hr : representable (data running_task))
    by (unfold representable; simpl; lia).
  split; [exact Ha|]. split; [exact Hr|].
  destruct (load_store_round_trip 4198400 (fun _ => add_scalar 3) 7 running_task []
              Ha Hr) as (_ & _ & _ & t' & Hload & Hi & _ & _ & Hh & _).
  exists t'. rewrite app_nil_r in Hload. auto.
Defined.

(** C7, as stated, fails on a running task of priority 5 whose payload is
    in the file [dummy3] and whose result is initialized: the task that is
    loaded, with the counter [ii] at 7, has priority 0, status [Unknown],
    the file name [dummy7] and no result. *)
Lemma load_store_drops_fields :
  exists t',
    load 4198400 (fun _ => add_scalar 3) 7 (store 4198400 (Some running_task)) =
      Ok (Some t', 8, []) /\
    priority t' <> priority running_task /\
    stat t' <> stat running_task /\
    data_type.filename (data t') <> data_type.filename (data running_task) /\
    is_initialized (result t') <> is_initialized (result running_task).
Proof.
  eexists. split; [vm_compute; reflexivity|].
  repeat split; discriminate.
Qed.

(** ** The loop of [run_all] *)

Lemma with_stat_same (t : MacroTask) : with_stat (stat t) t = t.
Proof. destruct t; reflexivity. Qed.

Lemma alter_with_stat_id (s : Status) (j : nat) (tq : list MacroTask) (t : MacroTask) :
  tq !! j = Some t -> stat t = s -> alter (with_stat s) j tq = tq.
Proof.
  intros Hj Hs. apply list_eq. intros j1.
  destruct (decide (j = j1)) as [<-|Hne].
  - rewrite list_lookup_alter_eq, Hj. simpl. rewrite <- Hs, with_stat_same. reflexivity.
  - rewrite list_lookup_alter_ne by exact Hne. reflexivity.
Qed.

Lemma lookup_alter_with_stat (s : Status) (j j1 : nat) (tq : list MacroTask)
    (t1 : MacroTask) :
  alter (with_stat s) j tq !! j1 = Some t1 ->
  exists t0, tq !! j1 = Some t0 /\ data t1 = data t0 /\
             ((j1 = j /\ stat t1 = s) \/ (j1 <> j /\ t1 = t0)).
Proof.
  destruct (decide (j = j1)) as [<-|Hne].
  - rewrite list_lookup_alter_eq. destruct (tq !! j) as [t0|]; [|discriminate].
    intros [= <-]. exists t0. auto.
  - rewrite list_lookup_alter_ne by exact Hne. intros H. exists t1. auto.
Qed.

Lemma lookup_insert_subworld (sws : list subworld_state) (sw sw1 : nat)
    (w0 w w1 : subworld_state) :
  sws !! sw = Some w0 -> <[sw := w]> sws !! sw1 = Some w1 ->
  (sw1 = sw /\ w1 = w) \/ (sw1 <> sw /\ sws !! sw1 = Some w1).
Proof.
  intros Hsw. destruct (decide (sw = sw1)) as [<-|Hne].
  - rewrite list_lookup_insert_eq by (eapply lookup_lt_Some, Hsw).
    intros [= <-]. auto.
  - rewrite list_lookup_insert_ne by exact Hne. auto.
Qed.

Lemma lookup_insert_subworld_eq (sws : list subworld_state) (sw : nat)
    (w0 w : subworld_state) :
  sws !! sw = Some w0 -> <[sw := w]> sws !! sw = Some w.
Proof. intros Hsw. apply list_lookup_insert_eq. eapply lookup_lt_Some, Hsw. Qed.

Lemma lookup_insert_subworld_ne (sws : list subworld_state) (sw sw1 : nat)
    (w w1 : subworld_state) :
  sw1 <> sw -> sws !! sw1 = Some w1 -> <[sw := w]> sws !! sw1 = Some w1.
Proof. intros Hne H. rewrite list_lookup_insert_ne by congruence. exact H. Qed.

Lemma steps_on_snoc (j : nat) (tr : list event) (e : event) :
  steps_on j (tr ++ [e]) =
  steps_on j tr ++ (if decide (element_of e = Some j) then [e] else []).
Proof. unfold steps_on. rewrite filter_app. reflexivity. Qed.

Lemma steps_on_snoc_eq (j : nat) (tr : list event) (e : event) :
  element_of e = Some j -> steps_on j (tr ++ [e]) = steps_on j tr ++ [e].
Proof. intros H. rewrite steps_on_snoc, decide_True by exact H. reflexivity. Qed.

Lemma steps_on_snoc_ne (j j1 : nat) (tr : list event) (e : event) :
  element_of e = Some j -> j1 <> j -> steps_on j1 (tr ++ [e]) = steps_on j1 tr.
Proof.
  intros H Hne. rewrite steps_on_snoc, decide_False by congruence.
  apply app_nil_r.
Qed.

Lemma stat_at_not_Waiting (pc : loop_point) : stat_at pc <> Waiting.
Proof. destruct pc; discriminate. Qed.

Lemma stat_at_not_Unknown (pc : loop_point) : stat_at pc <> Unknown.
Proof. destruct pc; discriminate. Qed.

(** What [loop_step] returns is a transition of the loop. *)
Lemma loop_step_transition (sw : nat) (u u' : universe_state) :
  loop_step sw u = Ok u' -> exists ev, loop_transition sw u ev u'.
Proof.
  unfold loop_step.
  destruct (subworlds u !! sw) as [[|j pc task|]|] eqn:Hsw.
  - destruct (Nat.lt_ge_cases (find_if is_Waiting (taskq u)) (length (taskq u)))
      as [Hlt|Hge].
    + rewrite get_scheduled_task_number_local_found, bind_Ok by exact Hlt.
      destruct (find_if_found _ _ Hlt) as (t & Ht & Hw).
      destruct (Z.ltb_spec (Z.of_nat (find_if is_Waiting (taskq u))) 0); [lia|].
      rewrite Nat2Z.id, list_lookup_alter_eq, Ht. simpl.
      intros [= <-]. eexists. apply claims; auto.
      * apply is_Waiting_stat, Hw.
      * intros j' t' Hj' Ht' Hs. apply is_Waiting_stat in Hs.
        rewrite (find_if_before _ _ _ _ Hj' Ht') in Hs. discriminate.
    + assert (Heq : find_if is_Waiting (taskq u) = length (taskq u))
        by (pose proof (find_if_le is_Waiting (taskq u)); lia).
      rewrite get_scheduled_task_number_local_none, bind_Ok by exact Heq.
      simpl. intros [= <-]. eexists. apply leaves; auto.
      intros t Ht Hs. apply is_Waiting_stat in Hs.
      rewrite (find_if_none _ _ Heq t Ht) in Hs. discriminate.
  - destruct pc.
    + destruct (data_type_read (files u) (next_handle u) (data task)) as [x| | |] eqn:Hx;
        try discriminate.
      rewrite bind_Ok. intros [= <-]. eexists. apply loads; auto.
    + intros [= <-]. eexists. apply runs; auto.
    + unfold set_complete_local. simpl.
      destruct (Z.leb_spec 0 (Z.of_nat j)); [|lia].
      destruct (Z.ltb_spec (Z.of_nat j) (Z.of_nat (length (taskq u)))); simpl;
        [|discriminate].
      rewrite Nat2Z.id. intros [= <-]. eexists. apply reports; auto. lia.
    + simpl. intros [= <-]. eexists. apply stores_data; auto.
    + intros [= <-]. eexists. apply stores_result; auto.
  - intros [= <-]. eexists. apply idles; auto.
  - intros [= <-]. eexists. apply idles; auto.
Qed.

Section LoopInvariant.

Variables (tq : list MacroTask) (sws : list subworld_state) (tr : list event).
Hypothesis Inv : loop_invariant tq sws tr.


Lemma other_holder_other_task (sw sw1 j j1 : nat) (pc pc1 : loop_point)
    (task task1 : MacroTask) :
  sws !! sw = Some (working j pc task) ->
  sws !! sw1 = Some (working j1 pc1 task1) -> sw1 <> sw -> j1 <> j.
Proof.
  intros Hsw H1 Hne ->. apply Hne. eapply (inv_one_holder _ _ _ Inv); eauto.
Qed.

(** A step of the body that keeps the subworld on its task: the status
    of rank 0 becomes that of the new point, the event is the next of the
    body. *)
Lemma loop_invariant_advance (sw j : nat) (pc pc' : loop_point)
    (task task' : MacroTask) (e : event) :
  sws !! sw = Some (working j pc task) ->
  data_type.filename (data task') = data_type.filename (data task) ->
  element_of e = Some j ->
  take (done_before pc') (loop_body_events sw j (data_type.filename (data task))) =
    take (done_before pc) (loop_body_events sw j (data_type.filename (data task))) ++ [e] ->
  loop_invariant (alter (with_stat (stat_at pc')) j tq)
                 (<[sw := working j pc' task']> sws) (tr ++ [e]).
Proof.
  intros Hsw Hfn He Htake.
  destruct (inv_held _ _ _ Inv _ _ _ _ Hsw) as (t & Ht & Hst & Hname & Hev).
  rewrite Hname in Htake.
  assert (Hkeep : forall sw1 w1,
            sws !! sw1 = Some w1 -> (forall pc1 task1, w1 <> working j pc1 task1) ->
            <[sw := working j pc' task']> sws !! sw1 = Some w1).
  { intros sw1 w1 H1 Hw1. apply lookup_insert_subworld_ne; [|exact H1].
    intros ->. rewrite Hsw in H1. injection H1 as <-. eapply Hw1; reflexivity. }
  split.
  - intros sw1 j1 pc1 task1 H1.
    destruct (lookup_insert_subworld _ _ _ _ _ _ Hsw H1) as [[-> Hw]|[Hne H1']].
    + injection Hw as -> -> ->. exists (with_stat (stat_at pc') t).
      split; [rewrite list_lookup_alter_eq, Ht; reflexivity|].
      split; [reflexivity|]. split; [simpl; congruence|].
      rewrite steps_on_snoc_eq by exact He. rewrite Hev. symmetry. exact Htake.
    + pose proof (other_holder_other_task _ _ _ _ _ _ _ _ Hsw H1' Hne) as Hj1.
      destruct (inv_held _ _ _ Inv _ _ _ _ H1') as (t1 & Ht1 & ? & ? & ?).
      exists t1. rewrite list_lookup_alter_ne by congruence.
      rewrite (steps_on_snoc_ne j) by (exact He || exact Hj1). auto.
  - intros sw1 sw2 j1 pc1 pc2 task1 task2 H1 H2.
    destruct (lookup_insert_subworld _ _ _ _ _ _ Hsw H1) as [[-> Hw1]|[Hne1 H1']],
             (lookup_insert_subworld _ _ _ _ _ _ Hsw H2) as [[-> Hw2]|[Hne2 H2']];
      [reflexivity| | |].
    + injection Hw1 as -> -> ->.
      eapply (inv_one_holder _ _ _ Inv); [exact Hsw|exact H2'].
    + injection Hw2 as -> -> ->.
      eapply (inv_one_holder _ _ _ Inv); [exact H1'|exact Hsw].
    + eapply (inv_one_holder _ _ _ Inv); eauto.
  - intros j1 t1 H1 Hs1.
    destruct (lookup_alter_with_stat _ _ _ _ _ H1) as (t0 & Ht0 & _ & [[-> Hs]|[Hne ->]]).
    + rewrite Hs in Hs1. destruct (stat_at_not_Waiting _ Hs1).
    + rewrite (steps_on_snoc_ne j) by (exact He || exact Hne).
      eapply (inv_waiting _ _ _ Inv); eauto.
  - intros j1 t1 H1 Hs1.
    destruct (lookup_alter_with_stat _ _ _ _ _ H1) as (t0 & Ht0 & _ & [[-> Hs]|[Hne ->]]).
    + exists sw, pc', task'. eapply lookup_insert_subworld_eq, Hsw.
    + destruct (inv_running _ _ _ Inv _ _ Ht0 Hs1) as (sw1 & pc1 & task1 & H).
      exists sw1, pc1, task1. apply Hkeep; [exact H|]. intros ? ? [= ? ? ?]. congruence.
  - intros j1 t1 H1 Hs1.
    destruct (lookup_alter_with_stat _ _ _ _ _ H1) as (t0 & Ht0 & Hd & [[-> Hs]|[Hne ->]]).
    + left. exists sw, pc', task'. eapply lookup_insert_subworld_eq, Hsw.
    + destruct (inv_complete _ _ _ Inv _ _ Ht0 Hs1) as [(sw1 & pc1 & task1 & H)|(sw1 & H)].
      * left. exists sw1, pc1, task1. apply Hkeep; [exact H|].
        intros ? ? [= ? ? ?]. congruence.
      * right. exists sw1. rewrite (steps_on_snoc_ne j) by (exact He || exact Hne). exact H.
  - intros j1 t1 H1 Hs1.
    destruct (lookup_alter_with_stat _ _ _ _ _ H1) as (t0 & Ht0 & _ & [[-> Hs]|[Hne ->]]).
    + rewrite Hs in Hs1. destruct (stat_at_not_Unknown _ Hs1).
    + eapply (inv_known _ _ _ Inv); eauto.
  - intros j1 Hlen. rewrite length_alter in Hlen. apply lookup_lt_Some in Ht.
    rewrite (steps_on_snoc_ne j) by (exact He || lia).
    apply (inv_outside _ _ _ Inv). lia.
  - apply Forall_app. split; [apply (inv_steps _ _ _ Inv)|].
    constructor; [rewrite He; eauto|constructor].
  - intros sw1 H1 t1 Hin Hs1.
    destruct (lookup_insert_subworld _ _ _ _ _ _ Hsw H1) as [[-> Hw]|[Hne H1']];
      [discriminate|].
    apply list_elem_of_lookup in Hin as [j1 Hj1].
    destruct (lookup_alter_with_stat _ _ _ _ _ Hj1) as (t0 & Ht0 & _ & [[-> Hs]|[Hne' ->]]).
    + rewrite Hs in Hs1. destruct (stat_at_not_Waiting _ Hs1).
    + eapply (inv_left _ _ _ Inv sw1 H1' t0); [|exact Hs1].
      eapply list_elem_of_lookup_2, Ht0.
Qed.

(** A polling subworld claims the waiting task [j]. *)
Lemma loop_invariant_claim (sw j : nat) (t : MacroTask) :
  sws !! sw = Some polling -> tq !! j = Some t -> stat t = Waiting ->
  loop_invariant (alter (with_stat Running) j tq)
                 (<[sw := working j at_get_data (with_stat Running t)]> sws)
                 (tr ++ [claimed sw j]).
Proof.
  intros Hsw Ht Hst.
  assert (He : element_of (claimed sw j) = Some j) by reflexivity.
  assert (Hfree : forall sw1 pc1 task1, sws !! sw1 <> Some (working j pc1 task1)).
  { intros sw1 pc1 task1 H1.
    destruct (inv_held _ _ _ Inv _ _ _ _ H1) as (t1 & Ht1 & Hs1 & _).
    rewrite Ht in Ht1. injection Ht1 as <-. rewrite Hst in Hs1.
    symmetry in Hs1. destruct (stat_at_not_Waiting _ Hs1). }
  assert (Hkeep : forall sw1 j1 pc1 task1, sws !! sw1 = Some (working j1 pc1 task1) ->
            <[sw := working j at_get_data (with_stat Running t)]> sws !! sw1 =
              Some (working j1 pc1 task1)).
  { intros sw1 j1 pc1 task1 H1. apply lookup_insert_subworld_ne; [|exact H1].
    intros ->. rewrite Hsw in H1. discriminate. }
  split.
  - intros sw1 j1 pc1 task1 H1.
    destruct (lookup_insert_subworld _ _ _ _ _ _ Hsw H1) as [[-> Hw]|[Hne H1']].
    + injection Hw as -> -> ->. exists (with_stat Running t).
      split; [rewrite list_lookup_alter_eq, Ht; reflexivity|].
      split; [reflexivity|]. split; [reflexivity|].
      rewrite steps_on_snoc_eq by exact He.
      rewrite (inv_waiting _ _ _ Inv _ _ Ht Hst). reflexivity.
    + assert (Hj1 : j1 <> j) by (intros ->; exact (Hfree _ _ _ H1')).
      destruct (inv_held _ _ _ Inv _ _ _ _ H1') as (t1 & Ht1 & ? & ? & ?).
      exists t1. rewrite list_lookup_alter_ne by congruence.
      rewrite (steps_on_snoc_ne j) by (exact He || exact Hj1). auto.
  - intros sw1 sw2 j1 pc1 pc2 task1 task2 H1 H2.
    destruct (lookup_insert_subworld _ _ _ _ _ _ Hsw H1) as [[-> Hw1]|[Hne1 H1']],
             (lookup_insert_subworld _ _ _ _ _ _ Hsw H2) as [[-> Hw2]|[Hne2 H2']];
      [reflexivity| | |].
    + injection Hw1 as -> -> ->. destruct (Hfree _ _ _ H2').
    + injection Hw2 as -> -> ->. destruct (Hfree _ _ _ H1').
    + eapply (inv_one_holder _ _ _ Inv); eauto.
  - intros j1 t1 H1 Hs1.
    destruct (lookup_alter_with_stat _ _ _ _ _ H1) as (t0 & Ht0 & _ & [[-> Hs]|[Hne ->]]).
    + congruence.
    + rewrite (steps_on_snoc_ne j) by (exact He || exact Hne).
      eapply (inv_waiting _ _ _ Inv); eauto.
  - intros j1 t1 H1 Hs1.
    destruct (lookup_alter_with_stat _ _ _ _ _ H1) as (t0 & Ht0 & _ & [[-> Hs]|[Hne ->]]).
    + exists sw, at_get_data, (with_stat Running t).
      eapply lookup_insert_subworld_eq, Hsw.
    + destruct (inv_running _ _ _ Inv _ _ Ht0 Hs1) as (sw1 & pc1 & task1 & H).
      exists sw1, pc1, task1. apply Hkeep, H.
  - intros j1 t1 H1 Hs1.
    destruct (lookup_alter_with_stat _ _ _ _ _ H1) as (t0 & Ht0 & Hd & [[-> Hs]|[Hne ->]]).
    + congruence.
    + destruct (inv_complete _ _ _ Inv _ _ Ht0 Hs1) as [(sw1 & pc1 & task1 & H)|(sw1 & H)].
      * left. exists sw1, pc1, task1. apply Hkeep, H.
      * right. exists sw1. rewrite (steps_on_snoc_ne j) by (exact He || exact Hne). exact H.
  - intros j1 t1 H1 Hs1.
    destruct (lookup_alter_with_stat _ _ _ _ _ H1) as (t0 & Ht0 & _ & [[-> Hs]|[Hne ->]]).
    + congruence.
    + eapply (inv_known _ _ _ Inv); eauto.
  - intros j1 Hlen. rewrite length_alter in Hlen. apply lookup_lt_Some in Ht.
    rewrite (steps_on_snoc_ne j) by (exact He || lia).
    apply (inv_outside _ _ _ Inv). lia.
  - apply Forall_app. split; [apply (inv_steps _ _ _ Inv)|].
    constructor; [rewrite He; eauto|constructor].
  - intros sw1 H1 t1 Hin Hs1.
    destruct (lookup_insert_subworld _ _ _ _ _ _ Hsw H1) as [[-> Hw]|[Hne H1']];
      [discriminate|].
    eapply (inv_left _ _ _ Inv sw1 H1' t); [|exact Hst].
    eapply list_elem_of_lookup_2, Ht.
Qed.

(** A subworld writes the result of its task and polls again. *)
Lemma loop_invariant_store_result (sw j : nat) (task : MacroTask) :
  sws !! sw = Some (working j at_store_and_clear_result task) ->
  loop_invariant tq (<[sw := polling]> sws) (tr ++ [stored_result sw j (result_name j)]).
Proof.
  intros Hsw.
  assert (He : element_of (stored_result sw j (result_name j)) = Some j) by reflexivity.
  destruct (inv_held _ _ _ Inv _ _ _ _ Hsw) as (t & Ht & Hst & Hname & Hev).
  assert (Hkeep : forall sw1 j1 pc1 task1, sws !! sw1 = Some (working j1 pc1 task1) ->
            j1 <> j -> <[sw := polling]> sws !! sw1 = Some (working j1 pc1 task1)).
  { intros sw1 j1 pc1 task1 H1 Hj1. apply lookup_insert_subworld_ne; [|exact H1].
    intros ->. rewrite Hsw in H1. injection H1 as ? ? ?. congruence. }
  split.
  - intros sw1 j1 pc1 task1 H1.
    destruct (lookup_insert_subworld _ _ _ _ _ _ Hsw H1) as [[-> Hw]|[Hne H1']];
      [discriminate|].
    pose proof (other_holder_other_task _ _ _ _ _ _ _ _ Hsw H1' Hne) as Hj1.
    destruct (inv_held _ _ _ Inv _ _ _ _ H1') as (t1 & Ht1 & ? & ? & ?).
    exists t1. rewrite (steps_on_snoc_ne j) by (exact He || exact Hj1). auto.
  - intros sw1 sw2 j1 pc1 pc2 task1 task2 H1 H2.
    destruct (lookup_insert_subworld _ _ _ _ _ _ Hsw H1) as [[-> Hw1]|[Hne1 H1']];
      [discriminate|].
    destruct (lookup_insert_subworld _ _ _ _ _ _ Hsw H2) as [[-> Hw2]|[Hne2 H2']];
      [discriminate|].
    eapply (inv_one_holder _ _ _ Inv); eauto.
  - intros j1 t1 H1 Hs1.
    assert (Hne : j1 <> j) by (intros ->; rewrite Ht in H1; injection H1 as <-;
                                simpl in Hst; congruence).
    rewrite (steps_on_snoc_ne j) by (exact He || exact Hne).
    eapply (inv_waiting _ _ _ Inv); eauto.
  - intros j1 t1 H1 Hs1.
    assert (Hne : j1 <> j) by (intros ->; rewrite Ht in H1; injection H1 as <-;
                                simpl in Hst; congruence).
    destruct (inv_running _ _ _ Inv _ _ H1 Hs1) as (sw1 & pc1 & task1 & H).
    exists sw1, pc1, task1. apply Hkeep; assumption.
  - intros j1 t1 H1 Hs1. destruct (decide (j1 = j)) as [->|Hne].
    + right. exists sw. rewrite Ht in H1. injection H1 as <-.
      rewrite steps_on_snoc_eq by exact He. rewrite Hev. reflexivity.
    + destruct (inv_complete _ _ _ Inv _ _ H1 Hs1) as [(sw1 & pc1 & task1 & H)|(sw1 & H)].
      * left. exists sw1, pc1, task1. apply Hkeep; assumption.
      * right. exists sw1. rewrite (steps_on_snoc_ne j) by (exact He || exact Hne). exact H.
  - apply (inv_known _ _ _ Inv).
  - intros j1 Hlen. apply lookup_lt_Some in Ht.
    rewrite (steps_on_snoc_ne j) by (exact He || lia).
    apply (inv_outside _ _ _ Inv). lia.
  - apply Forall_app. split; [apply (inv_steps _ _ _ Inv)|].
    constructor; [rewrite He; eauto|constructor].
  - intros sw1 H1.
    destruct (lookup_insert_subworld _ _ _ _ _ _ Hsw H1) as [[-> Hw]|[Hne H1']];
      [discriminate|].
    apply (inv_left _ _ _ Inv sw1 H1').
Qed.

(** A polling subworld finds no waiting task and leaves the loop. *)
Lemma loop_invariant_leave (sw : nat) :
  sws !! sw = Some polling ->
  (forall t, t ∈ tq -> stat t <> Waiting) ->
  loop_invariant tq (<[sw := left_loop]> sws) tr.
Proof.
  intros Hsw Hnone.
  assert (Hkeep : forall sw1 j1 pc1 task1, sws !! sw1 = Some (working j1 pc1 task1) ->
            <[sw := left_loop]> sws !! sw1 = Some (working j1 pc1 task1)).
  { intros sw1 j1 pc1 task1 H1. apply lookup_insert_subworld_ne; [|exact H1].
    intros ->. rewrite Hsw in H1. discriminate. }
  assert (Hback : forall sw1 j1 pc1 task1,
            <[sw := left_loop]> sws !! sw1 = Some (working j1 pc1 task1) ->
            sws !! sw1 = Some (working j1 pc1 task1)).
  { intros sw1 j1 pc1 task1 H1.
    destruct (lookup_insert_subworld _ _ _ _ _ _ Hsw H1) as [[-> Hw]|[Hne H1']];
      [discriminate|exact H1']. }
  split.
  - intros sw1 j1 pc1 task1 H1. apply (inv_held _ _ _ Inv), Hback, H1.
  - intros sw1 sw2 j1 pc1 pc2 task1 task2 H1 H2.
    eapply (inv_one_holder _ _ _ Inv); eapply Hback; eauto.
  - apply (inv_waiting _ _ _ Inv).
  - intros j1 t1 H1 Hs1.
    destruct (inv_running _ _ _ Inv _ _ H1 Hs1) as (sw1 & pc1 & task1 & H).
    exists sw1, pc1, task1. apply Hkeep, H.
  - intros j1 t1 H1 Hs1.
    destruct (inv_complete _ _ _ Inv _ _ H1 Hs1) as [(sw1 & pc1 & task1 & H)|H].
    + left. exists sw1, pc1, task1. apply Hkeep, H.
    + right. exact H.
  - apply (inv_known _ _ _ Inv).
  - apply (inv_outside _ _ _ Inv).
  - apply (inv_steps _ _ _ Inv).
  - intros _ _. exact Hnone.
Qed.

End LoopInvariant.

Lemma loop_frame_refl (u : universe_state) : loop_frame u u [].
Proof.
  split; auto.
  - rewrite app_nil_r. reflexivity.
  - intros e name He. inversion He.
  - intros e name He. inversion He.
Qed.

Lemma loop_frame_trans (u u1 u2 : universe_state) (ev1 ev2 : list event) :
  loop_frame u u1 ev1 -> loop_frame u1 u2 ev2 -> loop_frame u u2 (ev1 ++ ev2).
Proof.
  intros [Ht1 Hn1 Hs1 Hf1 Hw1 Hr1 Hu1] [Ht2 Hn2 Hs2 Hf2 Hw2 Hr2 Hu2]. split.
  - rewrite Ht2, Ht1, app_assoc. reflexivity.
  - congruence.
  - congruence.
  - auto.
  - intros e name [He|He]%elem_of_app Ha; eauto.
  - intros e name [He|He]%elem_of_app; eauto.
  - intros name Hnw. rewrite Hu2, Hu1; [reflexivity| |].
    + intros e He. apply Hnw, elem_of_app. auto.
    + intros e He. apply Hnw, elem_of_app. auto.
Qed.

Lemma filenames_length (tq tq' : list MacroTask) :
  filenames tq' = filenames tq -> length tq' = length tq.
Proof.
  intros H. apply (f_equal length) in H. unfold filenames in H.
  rewrite !length_fmap in H. exact H.
Qed.

Lemma filenames_alter_with_stat (s : Status) (j : nat) (tq : list MacroTask) :
  filenames (alter (with_stat s) j tq) = filenames tq.
Proof.
  unfold filenames. apply list_eq. intros j1. rewrite !list_lookup_fmap.
  destruct (decide (j = j1)) as [<-|Hne].
  - rewrite list_lookup_alter_eq. destruct (tq !! j); reflexivity.
  - rewrite list_lookup_alter_ne by exact Hne. reflexivity.
Qed.

Lemma data_type_read_filename (fs : gmap string archive_file) (h : Z)
    (x x' : data_type.t) :
  data_type_read fs h x = Ok x' -> data_type.filename x' = data_type.filename x.
Proof.
  unfold data_type_read.
  destruct (fs !! data_type.filename x) as [[? ? ?|?]|]; [|discriminate..].
  intros [= <-]. reflexivity.
Qed.

(** A transition keeps the frame and adds at most one event. *)
Lemma loop_transition_frame (sw : nat) (u u' : universe_state) (ev : list event) :
  loop_transition sw u ev u' ->
  loop_frame u u' ev /\
  forall tr, loop_invariant (taskq u) (subworlds u) tr ->
             loop_invariant (taskq u') (subworlds u') (tr ++ ev).
Proof.
  assert (Hone : forall (e : event) (P : event -> Prop), P e -> forall e', e' ∈ [e] -> P e').
  { intros e P HP e' ->%list_elem_of_singleton. exact HP. }
  intros Htrans. inversion Htrans as
    [Hsw|Hsw Hnone|j t Hsw Ht Hst Hmin|j task x Hsw Hx|j task Hsw|j task Hsw Hj
    |j task Hsw|j task Hsw]; subst; simpl.
  - split; [apply loop_frame_refl|]. intros tr. rewrite app_nil_r. auto.
  - split.
    + split; simpl; [rewrite app_nil_r; reflexivity|reflexivity|apply length_insert|auto|..].
      * intros e name He. inversion He.
      * intros e name He. inversion He.
      * intros name _. reflexivity.
    + intros tr Inv. rewrite app_nil_r. apply loop_invariant_leave; assumption.
  - split.
    + split; simpl; [reflexivity|apply filenames_alter_with_stat|apply length_insert|auto|..].
      * intros e name He. revert name. pattern e. eapply Hone; [|exact He]. discriminate.
      * intros e name He. revert name. pattern e. eapply Hone; [|exact He]. discriminate.
      * intros name _. reflexivity.
    + intros tr Inv. apply loop_invariant_claim; assumption.
  - split.
    + split; simpl; [reflexivity|reflexivity|apply length_insert|auto|..].
      * intros e name He. revert name. pattern e. eapply Hone; [|exact He]. discriminate.
      * intros e name He. revert name. pattern e. eapply Hone; [|exact He]. discriminate.
      * intros name _. reflexivity.
    + intros tr Inv.
      destruct (inv_held _ _ _ Inv _ _ _ _ Hsw) as (t & Ht & Hst & _).
      rewrite <- (alter_with_stat_id (stat_at at_run) j (taskq u) t Ht Hst).
      eapply loop_invariant_advance; eauto.
      apply (data_type_read_filename _ _ _ _ Hx).
  - split.
    + split; simpl; [reflexivity|reflexivity|apply length_insert|auto|..].
      * intros e name He. revert name. pattern e. eapply Hone; [|exact He]. discriminate.
      * intros e name He. revert name. pattern e. eapply Hone; [|exact He]. discriminate.
      * intros name _. reflexivity.
    + intros tr Inv.
      destruct (inv_held _ _ _ Inv _ _ _ _ Hsw) as (t & Ht & Hst & _).
      rewrite <- (alter_with_stat_id (stat_at at_set_complete) j (taskq u) t Ht Hst).
      eapply loop_invariant_advance; eauto.
  - split.
    + split; simpl; [reflexivity|apply filenames_alter_with_stat|apply length_insert|auto|..].
      * intros e name He. revert name. pattern e. eapply Hone; [|exact He]. discriminate.
      * intros e name He. revert name. pattern e. eapply Hone; [|exact He]. discriminate.
      * intros name _. reflexivity.
    + intros tr Inv.
      eapply (loop_invariant_advance _ _ _ Inv sw j at_set_complete at_store_and_clear_data);
        eauto.
  - split.
    + split; simpl; [reflexivity|reflexivity|apply length_insert|..].
      * intros name Hn. rewrite lookup_insert. case_decide; eauto.
      * intros e name He. revert name. pattern e. eapply Hone; [|exact He].
        simpl. intros name [= <-]. rewrite lookup_insert_eq. eauto.
      * intros e name He. revert name. pattern e. eapply Hone; [|exact He]. discriminate.
      * intros name Hnw. apply lookup_insert_ne. intros <-.
        eapply Hnw; [left|reflexivity].
    + intros tr Inv.
      destruct (inv_held _ _ _ Inv _ _ _ _ Hsw) as (t & Ht & Hst & _).
      rewrite <- (alter_with_stat_id (stat_at at_store_and_clear_result) j (taskq u) t Ht Hst).
      eapply loop_invariant_advance; eauto.
  - split.
    + split; simpl; [reflexivity|reflexivity|apply length_insert|..].
      * intros name Hn. rewrite lookup_insert. case_decide; eauto.
      * intros e name He. revert name. pattern e. eapply Hone; [|exact He].
        simpl. intros name [= <-]. rewrite lookup_insert_eq. eauto.
      * intros e name He. revert name. pattern e. eapply Hone; [|exact He]. discriminate.
      * intros name Hnw. apply lookup_insert_ne. intros <-.
        eapply Hnw; [left|reflexivity].
    + intros tr Inv. eapply loop_invariant_store_result; eauto.
Qed.

Lemma loop_steps_frame (schedule : list nat) (u u' : universe_state) :
  loop_steps schedule u = Ok u' ->
  exists ev, loop_frame u u' ev /\
    forall tr, loop_invariant (taskq u) (subworlds u) tr ->
               loop_invariant (taskq u') (subworlds u') (tr ++ ev).
Proof.
  revert u. induction schedule as [|sw rest IH]; intros u; simpl.
  - intros [= <-]. exists []. split; [apply loop_frame_refl|].
    intros tr. rewrite app_nil_r. auto.
  - destruct (loop_step sw u) as [u1| | |] eqn:Hstep; try discriminate.
    rewrite bind_Ok. intros Hrest.
    destruct (loop_step_transition _ _ _ Hstep) as (ev1 & Htrans).
    destruct (loop_transition_frame _ _ _ _ Htrans) as (Hf1 & Hi1).
    destruct (IH u1 Hrest) as (ev2 & Hf2 & Hi2).
    exists (ev1 ++ ev2). split; [eapply loop_frame_trans; eauto|].
    intros tr Inv. rewrite app_assoc. auto.
Qed.

(** The invariant holds when the loop starts: every task waits, every
    subworld polls, nothing has happened. *)
Lemma loop_invariant_start (tq : list MacroTask) (k : nat) :
  Forall (fun t => stat t = Waiting) tq -> loop_invariant tq (replicate k polling) [].
Proof.
  intros Hall.
  assert (Hpoll : forall sw w, replicate k polling !! sw = Some w -> w = polling).
  { intros sw w [-> _]%lookup_replicate. reflexivity. }
  assert (Hw : forall j t, tq !! j = Some t -> stat t = Waiting).
  { intros j t Hj. eapply Forall_lookup_1 in Hall; eauto. }
  split; try reflexivity.
  - intros sw j pc task H. apply Hpoll in H. discriminate.
  - intros sw sw' j pc pc' task task' H. apply Hpoll in H. discriminate.
  - intros j t Hj Hs. rewrite (Hw _ _ Hj) in Hs. discriminate.
  - intros j t Hj Hs. rewrite (Hw _ _ Hj) in Hs. discriminate.
  - intros j t Hj Hs. rewrite (Hw _ _ Hj) in Hs. discriminate.
  - constructor.
  - intros sw H. apply Hpoll in H. discriminate.
Qed.

(** While the loop runs, the events on a task are a beginning of the body. *)
Lemma loop_invariant_prefix (tq : list MacroTask) (sws : list subworld_state)
    (tr : list event) (j : nat) (t : MacroTask) :
  loop_invariant tq sws tr -> tq !! j = Some t ->
  exists sw n,
    steps_on j tr = take n (loop_body_events sw j (data_type.filename (data t))).
Proof.
  intros Inv Hj.
  assert (Hheld : forall sw pc task, sws !! sw = Some (working j pc task) ->
            exists sw n, steps_on j tr =
                         take n (loop_body_events sw j (data_type.filename (data t)))).
  { intros sw pc task H.
    destruct (inv_held _ _ _ Inv _ _ _ _ H) as (t1 & Ht1 & _ & _ & Hev).
    rewrite Hj in Ht1. injection Ht1 as <-. eauto. }
  destruct (stat t) eqn:Hs.
  - destruct (inv_running _ _ _ Inv _ _ Hj Hs) as (sw & pc & task & H). eauto.
  - exists 0, 0. apply (inv_waiting _ _ _ Inv _ _ Hj Hs).
  - destruct (inv_complete _ _ _ Inv _ _ Hj Hs) as [(sw & pc & task & H)|(sw & H)]; eauto.
    exists sw, 6. exact H.
  - destruct (inv_known _ _ _ Inv _ _ Hj Hs).
Qed.

(** Once every subworld has left the loop, every task is complete and has
    the whole body behind it. *)
Lemma loop_invariant_finished (tq : list MacroTask) (sws : list subworld_state)
    (tr : list event) (j : nat) (t : MacroTask) :
  loop_invariant tq sws tr -> 0 < length sws -> forallb has_left sws = true ->
  tq !! j = Some t ->
  stat t = Complete /\
  exists sw, steps_on j tr = loop_body_events sw j (data_type.filename (data t)).
Proof.
  intros Inv Hlen Hall Hj.
  assert (Hleft : forall sw w, sws !! sw = Some w -> w = left_loop).
  { intros sw w Hw. rewrite forallb_forall in Hall.
    apply list_elem_of_lookup_2, list_elem_of_In, Hall in Hw.
    destruct w; simpl in Hw; congruence. }
  assert (Hnone : forall sw pc task, sws !! sw <> Some (working j pc task)).
  { intros sw pc task H. apply Hleft in H. discriminate. }
  destruct (lookup_lt_is_Some_2 sws 0 Hlen) as [w Hw].
  pose proof (Hleft _ _ Hw) as ->.
  assert (Hs : stat t = Complete).
  { destruct (stat t) eqn:Hs; [| |reflexivity|].
    - destruct (inv_running _ _ _ Inv _ _ Hj Hs) as (sw & pc & task & H).
      destruct (Hnone _ _ _ H).
    - destruct (inv_left _ _ _ Inv 0 Hw t (list_elem_of_lookup_2 _ _ _ Hj) Hs).
    - destruct (inv_known _ _ _ Inv _ _ Hj Hs). }
  split; [exact Hs|].
  destruct (inv_complete _ _ _ Inv _ _ Hj Hs) as [(sw & pc & task & H)|H]; [|exact H].
  destruct (Hnone _ _ _ H).
Qed.

(** ** File names *)

Lemma to_string_inj (n m : nat) : to_string n = to_string m -> n = m.
Proof.
  unfold to_string. intros H. apply Unsigned.to_uint_inj.
  pose proof (NilEmpty.usu (Nat.to_uint n)) as Hn.
  pose proof (NilEmpty.usu (Nat.to_uint m)) as Hm.
  rewrite H in Hn. congruence.
Qed.

Lemma result_name_inj (j j' : nat) : result_name j = result_name j' -> j = j'.
Proof. unfold result_name. simpl. intros [= H]. apply to_string_inj, H. Qed.

(** The names the default member initializer gives are no result names. *)
Lemma dummy_no_result_name (x : data_type.t) (k : nat) :
  data_type.filename x = "dummy" +:+ to_string k -> no_result_name x.
Proof. intros H j. rewrite H. unfold result_name. simpl. discriminate. Qed.

(** ** [store_task_data] and the collection of the results *)

Lemma store_task_data_from_spec (j : nat) (l l' : list MacroTask)
    (fs fs' : gmap string archive_file) (tr tr' : list event) :
  store_task_data_from j l fs tr = (l', fs', tr') ->
  exists ev,
    tr' = tr ++ ev /\
    filenames l' = filenames l /\
    stat <$> l' = stat <$> l /\
    (forall name, is_Some (fs !! name) -> is_Some (fs' !! name)) /\
    (forall name, name ∈ filenames l -> is_Some (fs' !! name)) /\
    Forall (fun e => exists k name, e = universe_stored_data k name /\ name ∈ filenames l) ev.
Proof.
  revert j l' fs fs' tr tr'. induction l as [|t l IH]; intros j l' fs fs' tr tr'.
  - simpl. intros [= <- <- <-]. exists []. rewrite app_nil_r. repeat split; auto.
    intros name H. inversion H.
  - simpl.
    destruct (store_task_data_from (S j) l _ _) as [[l1 fs1] tr1] eqn:Hrec.
    intros [= <- <- <-].
    destruct (IH _ _ _ _ _ _ Hrec) as (ev & -> & Hn & Hs & Hf & Hin & Hev).
    exists (universe_stored_data j (data_type.filename (data t)) :: ev).
    split; [rewrite <- app_assoc; reflexivity|].
    split; [unfold filenames in *; rewrite !fmap_cons; f_equal; exact Hn|].
    split; [rewrite !fmap_cons; f_equal; exact Hs|].
    split.
    { intros name H. apply Hf. rewrite lookup_insert. case_decide; eauto. }
    split.
    { intros name [->|H]%elem_of_cons; [|auto].
      apply Hf. rewrite lookup_insert_eq. eauto. }
    constructor.
    + exists j, (data_type.filename (data t)). split; [reflexivity|]. left.
    + eapply Forall_impl; [exact Hev|]. intros e (k & name & -> & H).
      exists k, name. split; [reflexivity|]. right. exact H.
Qed.

Lemma collect_spec (first i n : nat) (u u' : universe_state) (vresult : list Function) :
  collect first i n u = Ok (vresult, u') ->
  length vresult = n /\
  files u' = files u /\
  stat <$> taskq u' = stat <$> taskq u /\
  loop_frame u u' ((fun k => universe_loaded_result k (result_name k)) <$> seq i n).
Proof.
  revert i u u' vresult. induction n as [|n IH]; intros i u u' vresult; simpl.
  - intros [= <- <-]. repeat split; auto.
    + rewrite app_nil_r. reflexivity.
    + intros e name H. inversion H.
    + intros e name H. inversion H.
  - destruct (function_read (files u) (next_handle u) (result_name i)) as [r| | |];
      try discriminate.
    rewrite bind_Ok.
    destruct (collect first (S i) n _) as [[v u1]| | |] eqn:Hrec; try discriminate.
    rewrite bind_Ok. intros [= <- <-].
    destruct (IH _ _ _ _ Hrec) as (Hlen & Hfiles & Hstat & [Ht Hn Hs Hf Hw Hr Hu]).
    simpl in *.
    assert (Hfn : forall tq : list MacroTask,
              filenames (alter (with_result r) (first + i) tq) = filenames tq).
    { intros tq. unfold filenames. apply list_eq. intros j1. rewrite !list_lookup_fmap.
      destruct (decide (first + i = j1)) as [<-|Hne].
      - rewrite list_lookup_alter_eq. destruct (tq !! (first + i)); reflexivity.
      - rewrite list_lookup_alter_ne by exact Hne. reflexivity. }
    assert (Hst : forall tq : list MacroTask,
              stat <$> alter (with_result r) (first + i) tq = stat <$> tq).
    { intros tq. apply list_eq. intros j1. rewrite !list_lookup_fmap.
      destruct (decide (first + i = j1)) as [<-|Hne].
      - rewrite list_lookup_alter_eq. destruct (tq !! (first + i)); reflexivity.
      - rewrite list_lookup_alter_ne by exact Hne. reflexivity. }
    split; [congruence|]. split; [exact Hfiles|].
    split; [rewrite Hstat; apply Hst|].
    split; simpl.
    + rewrite Ht, <- app_assoc. reflexivity.
    + rewrite Hn. apply Hfn.
    + exact Hs.
    + exact Hf.
    + intros e name [->|He]%elem_of_cons; [discriminate|]. eauto.
    + intros e name [->|He]%elem_of_cons; [discriminate|]. eauto.
    + intros name _. rewrite Hfiles. reflexivity.
Qed.

(** ** [run_all] *)

Lemma enroll_0 (vtask taskq : list MacroTask) :
  enroll 0 vtask taskq = set_waiting <$> (taskq ++ vtask).
Proof. unfold enroll. rewrite foldl_add_replicated_task. reflexivity. Qed.

Lemma filenames_set_waiting (l : list MacroTask) : filenames (set_waiting <$> l) = filenames l.
Proof. unfold filenames. rewrite <- list_fmap_compose. reflexivity. Qed.

Lemma all_waiting (l l' : list MacroTask) :
  stat <$> l' = stat <$> (set_waiting <$> l) -> Forall (fun t => stat t = Waiting) l'.
Proof.
  intros H. apply Forall_lookup. intros j t Hj.
  apply (f_equal (fun x => x !! j)) in H.
  rewrite <- list_fmap_compose, !list_lookup_fmap, Hj in H. simpl in H.
  destruct (l !! j); simpl in H; congruence.
Qed.

(** What a call of [run_all] that returns has done: the writes of
    [store_task_data], then the events of the loop, in which every task of
    the list has the whole body of the loop, once. *)
Lemma run_all_spec (schedule : list nat) (vtask : list MacroTask) (u u' : universe_state) :
  0 < length (subworlds u) ->
  run_all schedule vtask u = Ok u' ->
  exists ev_store ev_loop,
    trace u' = trace u ++ ev_store ++ ev_loop /\
    filenames (taskq u') = filenames (taskq u ++ vtask) /\
    length (subworlds u') = length (subworlds u) /\
    (forall name, is_Some (files u !! name) -> is_Some (files u' !! name)) /\
    (forall name, name ∈ filenames (taskq u ++ vtask) -> is_Some (files u' !! name)) /\
    Forall (fun e => exists k name, e = universe_stored_data k name /\
                                    name ∈ filenames (taskq u ++ vtask)) ev_store /\
    Forall (fun e => is_Some (element_of e)) ev_loop /\
    (forall e name, e ∈ ev_loop -> access_of e = Some (Write name) ->
                    is_Some (files u' !! name)) /\
    (forall e name, e ∈ ev_loop -> access_of e <> Some (Remove name)) /\
    (forall j t, taskq u' !! j = Some t ->
       stat t = Complete /\
       exists sw, steps_on j ev_loop =
                  loop_body_events sw j (data_type.filename (data t))) /\
    (forall j, length (taskq u') <= j -> steps_on j ev_loop = []).
Proof.
  intros Hk. unfold run_all, run_all_enter, store_task_data. simpl. rewrite enroll_0.
  destruct (store_task_data_from 0 _ (files u) (trace u)) as [[tq2 fs2] tr2] eqn:Hstore.
  simpl.
  destruct (store_task_data_from_spec _ _ _ _ _ _ _ Hstore)
    as (ev_store & -> & Hn2 & Hs2 & Hf2 & Hin2 & Hev2).
  rewrite filenames_set_waiting in Hn2, Hin2, Hev2.
  set (u3 := mkUniverse tq2 fs2 (trace u ++ ev_store)
               (replicate (length (subworlds u)) polling) (next_handle u)).
  destruct (loop_steps schedule u3) as [u4| | |] eqn:Hloop; try discriminate.
  rewrite bind_Ok. unfold fence_after_loop.
  destruct (forallb has_left (subworlds u4)) eqn:Hleft; [|discriminate].
  intros [= <-].
  destruct (loop_steps_frame _ _ _ Hloop) as (ev_loop & [Ht Hn Hs Hf Hw Hr Hu] & Hinv).
  simpl in *.
  specialize (Hinv [] (loop_invariant_start tq2 _ (all_waiting _ _ Hs2))).
  simpl in Hinv. rewrite length_replicate in Hs.
  exists ev_store, ev_loop.
  split; [rewrite Ht, app_assoc; reflexivity|].
  split; [congruence|]. split; [exact Hs|].
  split; [auto|]. split; [auto|]. split; [exact Hev2|].
  split; [apply (inv_steps _ _ _ Hinv)|].
  split; [exact Hw|]. split; [exact Hr|].
  split.
  - intros j t Hj. eapply loop_invariant_finished; eauto. lia.
  - apply (inv_outside _ _ _ Hinv).
Qed.

(** ** Counting the writes of a result file *)

Lemma filter_none {A : Type} (P : A -> Prop) `{forall x, Decision (P x)} (l : list A) :
  (forall x, x ∈ l -> ~ P x) -> filter P l = [].
Proof.
  induction l as [|x l IH]; intros Hl; [reflexivity|].
  rewrite filter_cons_False by (apply Hl; left). apply IH.
  intros y Hy. apply Hl. right. exact Hy.
Qed.

Lemma filter_through {A : Type} (P Q : A -> Prop)
    `{forall x, Decision (P x)} `{forall x, Decision (Q x)} (l : list A) :
  (forall x, x ∈ l -> P x -> Q x) -> filter P l = filter P (filter Q l).
Proof.
  induction l as [|x l IH]; intros Hl; [reflexivity|].
  assert (IH' : filter P l = filter P (filter Q l))
    by (apply IH; intros y Hy; apply Hl; right; exact Hy).
  destruct (decide (P x)) as [HP|HP].
  - rewrite (filter_cons_True P) by exact HP.
    rewrite (filter_cons_True Q) by (apply Hl; [left|exact HP]).
    rewrite (filter_cons_True P) by exact HP. f_equal. exact IH'.
  - rewrite (filter_cons_False P) by exact HP.
    destruct (decide (Q x)) as [HQ|HQ].
    + rewrite (filter_cons_True Q) by exact HQ.
      rewrite (filter_cons_False P) by exact HP. exact IH'.
    + rewrite (filter_cons_False Q) by exact HQ. exact IH'.
Qed.

Lemma writes_of_app (name : string) (l1 l2 : list event) :
  writes_of name (l1 ++ l2) = writes_of name l1 + writes_of name l2.
Proof. unfold writes_of. rewrite filter_app, length_app. reflexivity. Qed.

Lemma writes_of_none (name : string) (l : list event) :
  (forall e, e ∈ l -> access_of e <> Some (Write name)) -> writes_of name l = 0.
Proof. intros H. unfold writes_of. rewrite filter_none by exact H. reflexivity. Qed.

(** The body of the loop on task [j] writes the result file of [j] once,
    when the file of the payload is another file. *)
Lemma writes_of_loop_body (sw j : nat) (name : string) :
  name <> result_name j ->
  writes_of (result_name j) (loop_body_events sw j name) = 1.
Proof.
  intros Hne. unfold writes_of, loop_body_events.
  rewrite filter_cons_False by discriminate.
  rewrite filter_cons_False by discriminate.
  rewrite filter_cons_False by discriminate.
  rewrite filter_cons_False by discriminate.
  rewrite filter_cons_False by (simpl; congruence).
  rewrite filter_cons_True by reflexivity. reflexivity.
Qed.

Lemma elem_of_loop_body_write (sw j : nat) (name name' : string) (e : event) :
  e ∈ loop_body_events sw j name -> access_of e = Some (Write name') ->
  name' = name \/ name' = result_name j.
Proof.
  unfold loop_body_events. rewrite !elem_of_cons.
  intros [->|[->|[->|[->|[->|[->|H]]]]]]; simpl; try discriminate.
  - intros [= <-]. auto.
  - intros [= <-]. auto.
  - inversion H.
Qed.

(** In the events of a loop that has come to its end, the result file of
    every task of the list is written once. *)
Lemma writes_of_loop (tq : list MacroTask) (ev : list event) (j : nat) :
  Forall (fun e => is_Some (element_of e)) ev ->
  (forall j t, tq !! j = Some t ->
     exists sw, steps_on j ev = loop_body_events sw j (data_type.filename (data t))) ->
  (forall j, length tq <= j -> steps_on j ev = []) ->
  (forall t, t ∈ tq -> no_result_name (data t)) ->
  j < length tq ->
  writes_of (result_name j) ev = 1.
Proof.
  intros Hsteps Hbody Hout Hhyg Hj.
  destruct (lookup_lt_is_Some_2 tq j Hj) as [t Ht].
  destruct (Hbody _ _ Ht) as (sw & Hev).
  unfold writes_of.
  rewrite (filter_through _ (fun e => element_of e = Some j)).
  - fold (steps_on j ev). rewrite Hev. apply writes_of_loop_body.
    apply Hhyg. eapply list_elem_of_lookup_2, Ht.
  - intros e He Hw.
    rewrite Forall_forall in Hsteps. destruct (Hsteps e He) as [j1 Hj1].
    assert (Hin : e ∈ steps_on j1 ev) by (apply list_elem_of_filter; auto).
    destruct (Nat.lt_ge_cases j1 (length tq)) as [Hlt|Hge];
      [|rewrite (Hout _ Hge) in Hin; inversion Hin].
    destruct (lookup_lt_is_Some_2 tq j1 Hlt) as [t1 Ht1].
    destruct (Hbody _ _ Ht1) as (sw1 & Hev1). rewrite Hev1 in Hin.
    destruct (elem_of_loop_body_write _ _ _ _ _ Hin Hw) as [Hn|Hn].
    + symmetry in Hn. destruct (Hhyg t1 (list_elem_of_lookup_2 _ _ _ Ht1) j Hn).
    + apply result_name_inj in Hn. congruence.
Qed.

(** ** The order of the body of the loop *)

Lemma run_all_enter_start (vtask : list MacroTask) (u : universe_state) :
  Forall (fun t => stat t = Waiting) (taskq (run_all_enter vtask u)) /\
  subworlds (run_all_enter vtask u) = replicate (length (subworlds u)) polling.
Proof.
  unfold run_all_enter, store_task_data. simpl. rewrite enroll_0.
  destruct (store_task_data_from 0 _ (files u) (trace u)) as [[tq2 fs2] tr2] eqn:Hstore.
  simpl. split; [|reflexivity].
  destruct (store_task_data_from_spec _ _ _ _ _ _ _ Hstore) as (_ & _ & _ & Hs & _).
  eapply all_waiting, Hs.
Qed.

(** C6, as the code has it: in every run of the loop of [run_all], the
    events on a task are a beginning of [get_scheduled_task_number],
    [get_data], [run], [set_complete], [store_and_clear_data],
    [store_and_clear_result], in this order and in one subworld, and they
    are all six once every subworld has left the loop: [set_complete] comes
    after [run] and before the two writes, the result is written last. *)
Theorem loop_body_order (schedule : list nat) (vtask : list MacroTask)
    (u u' : universe_state) :
  loop_steps schedule (run_all_enter vtask u) = Ok u' ->
  exists ev,
    trace u' = trace (run_all_enter vtask u) ++ ev /\
    (forall j t, taskq u' !! j = Some t ->
       exists sw n,
         steps_on j ev =
         take n [claimed sw j; loaded_data sw j (data_type.filename (data t));
                 ran sw j; reported_complete sw j;
                 stored_data sw j (data_type.filename (data t));
                 stored_result sw j (result_name j)]) /\
    (0 < length (subworlds u) -> forallb has_left (subworlds u') = true ->
     forall j t, taskq u' !! j = Some t ->
       exists sw,
         steps_on j ev =
         [claimed sw j; loaded_data sw j (data_type.filename (data t));
          ran sw j; reported_complete sw j;
          stored_data sw j (data_type.filename (data t));
          stored_result sw j (result_name j)]).
Proof.
  intros Hloop.
  destruct (run_all_enter_start vtask u) as [Hall Hsws].
  destruct (loop_steps_frame _ _ _ Hloop) as (ev & Hframe & Hinv).
  rewrite Hsws in Hinv. specialize (Hinv [] (loop_invariant_start _ _ Hall)).
  simpl in Hinv. exists ev.
  split; [apply (frame_trace _ _ _ Hframe)|]. split.
  - intros j t Hj. eapply loop_invariant_prefix; eauto.
  - intros Hk Hleft j t Hj.
    eapply (loop_invariant_finished _ _ _ j t Hinv); eauto.
    rewrite (frame_subworlds _ _ _ Hframe), Hsws, length_replicate. exact Hk.
Qed.

Lemma loop_body_order_witness :
  exists u',
    loop_steps seven_steps (run_all_enter (MacroTask_of_data <$> one_input) new_queue) =
      Ok u' /\
    exists ev,
      trace u' = trace (run_all_enter (MacroTask_of_data <$> one_input) new_queue) ++ ev /\
      steps_on 0 ev =
        [claimed 0 0; loaded_data 0 0 "dummy0"; ran 0 0; reported_complete 0 0;
         stored_data 0 0 "dummy0"; stored_result 0 0 "result_of_task0"].
Proof.
  destruct (loop_steps seven_steps
              (run_all_enter (MacroTask_of_data <$> one_input) new_queue))
    as [u'| | |] eqn:Hloop; [|vm_compute in Hloop; discriminate..].
  exists u'. split; [reflexivity|].
  destruct (loop_body_order _ _ _ _ Hloop) as (ev & Htr & _ & _).
  exists ev. split; [exact Htr|].
  vm_compute in Hloop. injection Hloop as <-.
  vm_compute in Htr. injection Htr as <-. reflexivity.
Defined.

(** C6, as stated, fails on a batch of one task in one subworld: after four
    steps of the loop [set_complete] has been called and rank 0 has the task
    [Complete], and there is no file [result_of_task0] yet; in the whole
    run, [reported_complete] comes before [stored_result]. *)
Lemma set_complete_before_result_is_stored :
  (exists u4, loop_steps (replicate 4 0) loop_start = Ok u4 /\
     trace u4 = [universe_stored_data 0 "dummy0"; claimed 0 0; loaded_data 0 0 "dummy0";
                 ran 0 0; reported_complete 0 0] /\
     stat <$> taskq u4 !! 0 = Some Complete /\
     files u4 !! result_name 0 = None) /\
  (exists u7, run_all seven_steps (MacroTask_of_data <$> one_input) new_queue = Ok u7 /\
     trace u7 =
       [universe_stored_data 0 "dummy0"; claimed 0 0; loaded_data 0 0 "dummy0"; ran 0 0;
        reported_complete 0 0; stored_data 0 0 "dummy0";
        stored_result 0 0 "result_of_task0"]).
Proof.
  split.
  - eexists. split; [vm_compute; reflexivity|]. repeat split; vm_compute; reflexivity.
  - eexists. split; [vm_compute; reflexivity|]. vm_compute. reflexivity.
Qed.

Lemma elem_of_filenames (tq : list MacroTask) (name : string) :
  name ∈ filenames tq <-> exists t, t ∈ tq /\ data_type.filename (data t) = name.
Proof.
  unfold filenames. rewrite list_elem_of_fmap. split.
  - intros (t & -> & Ht). eauto.
  - intros (t & Ht & <-). eauto.
Qed.

(** ** [localize] *)

(** [localize] is the one function of the file that removes what it wrote:
    when it returns, the file is gone and the last event is its removal. *)
Lemma localize_removes (bound_to_origin : bool) (data : Function) (id : nat)
    (filename : string) (u u' : universe_state) (r : Function) :
  localize bound_to_origin data id filename u = Ok (r, u') ->
  files u' !! (filename +:+ to_string id) = None /\
  exists ev, trace u' = ev ++ [removed (filename +:+ to_string id)].
Proof.
  unfold localize.
  destruct (function_read _ _ _) as [r'| | |]; try discriminate.
  rewrite bind_Ok. intros [= <- <-]. simpl. split; [apply lookup_delete_eq|].
  eexists. rewrite (cons_middle (universe_loaded_result _ _)), app_assoc. reflexivity.
Qed.

(** ** The empty batch *)

(** On an empty task list every subworld leaves the loop at its first call. *)
Lemma loop_steps_empty_queue (n i : nat) (fs : gmap string archive_file)
    (tr : list event) (h : Z) :
  loop_steps (seq i n)
    (mkUniverse [] fs tr (replicate i left_loop ++ replicate n polling) h) =
  Ok (mkUniverse [] fs tr (replicate (i + n) left_loop) h).
Proof.
  revert i. induction n as [|n IH]; intros i.
  - simpl. rewrite app_nil_r, Nat.add_0_r. reflexivity.
  - cbn [seq loop_steps]. unfold loop_step. cbn [subworlds taskq].
    rewrite lookup_app_r by (rewrite length_replicate; lia).
    rewrite length_replicate, Nat.sub_diag. cbn [replicate lookup list_lookup].
    change (get_scheduled_task_number_local 0 []) with (Ok ((-1)%Z, @nil MacroTask)).
    rewrite bind_Ok. cbn [Z.ltb Z.compare].
    rewrite insert_app_r_alt by (rewrite length_replicate; lia).
    rewrite length_replicate, Nat.sub_diag. cbn [insert list_insert].
    rewrite bind_Ok. cbn [files trace subworlds next_handle taskq].
    rewrite cons_middle, app_assoc, <- replicate_S_end.
    rewrite IH. replace (S i + n) with (i + S n) by lia. reflexivity.
Qed.

(** C9, on a queue that holds no task: [map] with an empty vector of inputs
    returns the empty vector, adds no event to the log, so reads, writes and
    removes no file, and leaves the files as they are, whatever the
    schedule; and it does return when every subworld takes its one step. *)
Theorem map_empty_batch (task1 : MacroTask) (u : universe_state) :
  taskq u = [] ->
  (forall schedule vresult u',
     map schedule task1 [] u = Ok (vresult, u') ->
     vresult = [] /\ trace u' = trace u /\ files u' = files u /\ taskq u' = []) /\
  map (seq 0 (length (subworlds u))) task1 [] u =
    Ok ([], mkUniverse [] (files u) (trace u)
              (replicate (length (subworlds u)) left_loop) (next_handle u)).
Proof.
  intros Hq. split.
  - intros schedule vresult u'. unfold map, run_all, run_all_enter, store_task_data. simpl.
    rewrite Hq. simpl.
    set (u3 := mkUniverse [] (files u) (trace u)
                 (replicate (length (subworlds u)) polling) (next_handle u)).
    destruct (loop_steps schedule u3) as [u4| | |] eqn:Hloop; try discriminate.
    rewrite bind_Ok. unfold fence_after_loop.
    destruct (forallb has_left (subworlds u4)); [|discriminate].
    rewrite !bind_Ok. intros [= <- <-].
    destruct (loop_steps_frame _ _ _ Hloop) as (ev & Hframe & Hinv).
    specialize (Hinv [] (loop_invariant_start [] _ (List.Forall_nil _))).
    simpl in Hinv.
    assert (Hlen : length (taskq u4) = 0)
      by (rewrite (filenames_length _ _ (frame_filenames _ _ _ Hframe)); reflexivity).
    assert (Hev : ev = []).
    { destruct ev as [|e ev]; [reflexivity|].
      pose proof (inv_steps _ _ _ Hinv) as Hsteps.
      inversion Hsteps as [|? ? [j Hj] _]; subst.
      pose proof (inv_outside _ _ _ Hinv j ltac:(lia)) as Hout.
      unfold steps_on in Hout. rewrite filter_cons_True in Hout by exact Hj.
      discriminate. }
    subst ev.
    split; [reflexivity|].
    split; [rewrite (frame_trace _ _ _ Hframe); apply app_nil_r|].
    split.
    + apply map_eq. intros name.
      apply (frame_unwritten _ _ _ Hframe). intros e He. inversion He.
    + destruct (taskq u4); [reflexivity|discriminate].
  - unfold map, run_all, run_all_enter, store_task_data. simpl. rewrite Hq. simpl.
    rewrite (loop_steps_empty_queue (length (subworlds u)) 0). simpl.
    unfold fence_after_loop. simpl.
    replace (forallb has_left (replicate (length (subworlds u)) left_loop)) with true;
      [reflexivity|].
    induction (length (subworlds u)) as [|n IH]; [reflexivity|exact IH].
Qed.

Lemma map_empty_batch_witness :
  taskq new_queue = [] /\
  map (seq 0 1) (task_with 0 Unknown 0) [] new_queue =
    Ok ([], mkUniverse [] ∅ [] [left_loop] 0).
Proof.
  split; [reflexivity|].
  exact (proj2 (map_empty_batch (task_with 0 Unknown 0) new_queue eq_refl)).
Defined.

(** C9, as stated, fails on a queue that has run a batch: [map] with an
    empty vector of inputs sets the task of that batch to [Waiting] again,
    and [store_task_data] and the loop write and read its files. *)
Lemma map_empty_batch_on_used_queue :
  (exists vresult,
     map seven_steps (task_with 0 Unknown 0) one_input new_queue = Ok (vresult, used_queue)) /\
  exists u',
    map seven_steps (task_with 0 Unknown 0) [] used_queue = Ok ([], u') /\
    accesses (trace u') =
      accesses (trace used_queue) ++
      [Write "dummy0"; Read "dummy0"; Write "dummy0"; Write "result_of_task0"].
Proof.
  split.
  - eexists. vm_compute. reflexivity.
  - eexists. split; vm_compute; reflexivity.
Qed.

(** ** Progress of the loop *)

Lemma sum_list_insert (sws : list subworld_state) (sw : nat) (w w' : subworld_state) :
  sws !! sw = Some w ->
  sum_list (steps_left <$> <[sw := w']> sws) + steps_left w =
  sum_list (steps_left <$> sws) + steps_left w'.
Proof.
  revert sw. induction sws as [|x sws IH]; intros [|sw]; simpl; try discriminate.
  - intros [= ->]. lia.
  - intros H. specialize (IH _ H). unfold fmap in IH. lia.
Qed.

Lemma waiting_count_alter (s : Status) (j : nat) (tq : list MacroTask) (t : MacroTask) :
  tq !! j = Some t -> s <> Waiting ->
  waiting_count (alter (with_stat s) j tq) + (if decide (stat t = Waiting) then 1 else 0) =
  waiting_count tq.
Proof.
  unfold waiting_count. revert j.
  induction tq as [|x tq IH]; intros [|j]; simpl; try discriminate.
  - intros [= ->] Hs. rewrite (filter_cons_False _ (with_stat s t)) by exact Hs.
    destruct (decide (stat t = Waiting)) as [Hw|Hw].
    + rewrite filter_cons_True by exact Hw. simpl. lia.
    + rewrite filter_cons_False by exact Hw. lia.
  - intros H Hs. specialize (IH _ H Hs).
    change (list_alter (with_stat s) j tq) with (alter (with_stat s) j tq).
    destruct (decide (stat x = Waiting)) as [Hw|Hw].
    + rewrite !(filter_cons_True _ x) by exact Hw. simpl. lia.
    + rewrite !(filter_cons_False _ x) by exact Hw. exact IH.
Qed.

Lemma no_result_name_filenames (tq tq' : list MacroTask) :
  filenames tq' = filenames tq ->
  (forall t, t ∈ tq -> no_result_name (data t)) ->
  forall t, t ∈ tq' -> no_result_name (data t).
Proof.
  intros Hn Hall t Ht j.
  assert (Hin : data_type.filename (data t) ∈ filenames tq)
    by (rewrite <- Hn; apply elem_of_filenames; eauto).
  apply elem_of_filenames in Hin as (t0 & Ht0 & <-). apply Hall, Ht0.
Qed.

(** In a ready state every step returns. *)
Lemma loop_step_returns (sw : nat) (u : universe_state) (tr : list event) :
  loop_ready u tr -> exists u', loop_step sw u = Ok u'.
Proof.
  intros [Inv Hnames Hdata Hres]. unfold loop_step.
  destruct (subworlds u !! sw) as [[|j pc task|]|] eqn:Hsw; [| |eauto|eauto].
  - destruct (Nat.lt_ge_cases (find_if is_Waiting (taskq u)) (length (taskq u)))
      as [Hlt|Hge].
    + rewrite get_scheduled_task_number_local_found, bind_Ok by exact Hlt.
      destruct (find_if_found _ _ Hlt) as (t & Ht & Hw).
      destruct (Z.ltb_spec (Z.of_nat (find_if is_Waiting (taskq u))) 0); [lia|].
      rewrite Nat2Z.id, list_lookup_alter_eq, Ht. simpl. eauto.
    + assert (Heq : find_if is_Waiting (taskq u) = length (taskq u))
        by (pose proof (find_if_le is_Waiting (taskq u)); lia).
      rewrite get_scheduled_task_number_local_none, bind_Ok by exact Heq.
      simpl. eauto.
  - destruct (inv_held _ _ _ Inv _ _ _ _ Hsw) as (t & Ht & _ & Hname & _).
    destruct pc; eauto.
    + unfold data_type_read. rewrite Hname.
      destruct (Hdata (data_type.filename (data t))) as (d & i & c & ->).
      { apply elem_of_filenames. exists t. split; [|reflexivity].
        eapply list_elem_of_lookup_2, Ht. }
      rewrite bind_Ok. eauto.
    + unfold set_complete_local. simpl. apply lookup_lt_Some in Ht.
      destruct (Z.leb_spec 0 (Z.of_nat j)); [|lia].
      destruct (Z.ltb_spec (Z.of_nat j) (Z.of_nat (length (taskq u)))); [|lia].
      simpl. eauto.
Qed.

(** A step keeps the state ready, leaves the other subworlds where they
    are, and takes its step off the work that is left. *)
Lemma loop_transition_ready (sw : nat) (u u' : universe_state) (ev tr : list event) :
  loop_transition sw u ev u' -> loop_ready u tr ->
  loop_ready u' (tr ++ ev) /\
  (forall sw', sw' <> sw -> subworlds u' !! sw' = subworlds u !! sw') /\
  work_left u' + step_taken u sw = work_left u.
Proof.
  intros Htrans Hready.
  destruct (loop_transition_frame _ _ _ _ Htrans) as (Hframe & Hinv).
  destruct Hready as [Inv Hnames Hdata Hres].
  assert (Hname_of : forall name j, name ∈ filenames (taskq u) -> name <> result_name j).
  { intros name j (t & Ht & <-)%elem_of_filenames. apply Hnames, Ht. }
  assert (Hother : forall (w : subworld_state) sw',
            sw' <> sw -> <[sw := w]> (subworlds u) !! sw' = subworlds u !! sw').
  { intros w sw' Hne. apply list_lookup_insert_ne. congruence. }
  assert (Hsame : forall j t s, taskq u !! j = Some t -> stat t = s -> s <> Waiting ->
            waiting_count (alter (with_stat s) j (taskq u)) = waiting_count (taskq u)).
  { intros j t s Ht Hs Hw. rewrite (alter_with_stat_id s j _ t Ht Hs). reflexivity. }
  split; [split|].
  - apply Hinv, Inv.
  - eapply no_result_name_filenames; [apply (frame_filenames _ _ _ Hframe)|exact Hnames].
  - intros name Hname. rewrite (frame_filenames _ _ _ Hframe) in Hname.
    destruct (Hdata name Hname) as (d & i & c & Hfile).
    inversion Htrans; subst; simpl; eauto.
    + destruct (decide (data_type.filename (data task) = name)) as [<-|Hne].
      * rewrite lookup_insert_eq. eauto.
      * rewrite lookup_insert_ne by exact Hne. eauto.
    + rewrite lookup_insert_ne by (intros Heq; exact (Hname_of _ _ Hname (eq_sym Heq))).
      eauto.
  - intros sw' j' Hin.
    assert (Hold : stored_result sw' j' (result_name j') ∈ tr ->
                   exists c, files u' !! result_name j' = Some (function_archive c)).
    { intros Hin'. destruct (Hres _ _ Hin') as (c & Hc).
      inversion Htrans; subst; simpl; eauto.
      - destruct (inv_held _ _ _ Inv _ _ _ _ H) as (t & Ht & _ & Hname & _).
        rewrite lookup_insert_ne; [eauto|].
        rewrite Hname. apply Hname_of, elem_of_filenames.
        exists t. split; [eapply list_elem_of_lookup_2, Ht|reflexivity].
      - destruct (decide (j = j')) as [->|Hne].
        + rewrite lookup_insert_eq. eauto.
        + rewrite lookup_insert_ne by (intros Heq; apply Hne, result_name_inj, Heq).
          eauto. }
    apply elem_of_app in Hin as [Hin|Hin]; [exact (Hold Hin)|].
    inversion Htrans; subst; simpl;
      try (inversion Hin; fail);
      apply list_elem_of_singleton in Hin; try discriminate.
    injection Hin as -> ->. rewrite lookup_insert_eq. eauto.
  - split.
    + inversion Htrans; subst; simpl; auto.
    + unfold work_left, step_taken.
      inversion Htrans as
        [Hsw|Hsw Hnone|j t Hsw Ht Hst Hmin|j task x Hsw Hx|j task Hsw|j task Hsw Hj
        |j task Hsw|j task Hsw]; subst; simpl.
      * destruct Hsw as [-> | ->]; lia.
      * rewrite Hsw. pose proof (sum_list_insert _ _ _ left_loop Hsw) as Hsum.
        simpl in Hsum. lia.
      * rewrite Hsw.
        pose proof (sum_list_insert _ _ _ (working j at_get_data (set_running t)) Hsw)
          as Hsum.
        pose proof (waiting_count_alter Running j _ t Ht ltac:(discriminate)) as Hwc.
        rewrite decide_True in Hwc by exact Hst.
        change set_running with (with_stat Running) in *. simpl in Hsum. lia.
      * rewrite Hsw.
        pose proof (sum_list_insert _ _ _ (working j at_run (with_data x task)) Hsw)
          as Hsum.
        simpl in Hsum. lia.
      * rewrite Hsw.
        pose proof (sum_list_insert _ _ _
                      (working j at_set_complete (run (next_handle u) task)) Hsw) as Hsum.
        simpl in Hsum. lia.
      * rewrite Hsw.
        pose proof (sum_list_insert _ _ _ (working j at_store_and_clear_data task) Hsw)
          as Hsum.
        destruct (inv_held _ _ _ Inv _ _ _ _ Hsw) as (t & Ht & Hst & _).
        pose proof (waiting_count_alter Complete j _ t Ht ltac:(discriminate)) as Hwc.
        rewrite decide_False in Hwc by (rewrite Hst; discriminate).
        change set_complete with (with_stat Complete) in *. simpl in Hsum. lia.
      * rewrite Hsw.
        pose proof (sum_list_insert _ _ _
                      (working j at_store_and_clear_result
                         (with_data (snd (store_and_clear (data task))) task)) Hsw)
          as Hsum.
        simpl in Hsum. lia.
      * rewrite Hsw. pose proof (sum_list_insert _ _ _ polling Hsw) as Hsum.
        simpl in Hsum. lia.
Qed.

Lemma loop_step_ready (sw : nat) (u : universe_state) (tr : list event) :
  loop_ready u tr ->
  exists u' ev,
    loop_step sw u = Ok u' /\ loop_ready u' (tr ++ ev) /\
    length (subworlds u') = length (subworlds u) /\
    (forall sw', sw' <> sw -> subworlds u' !! sw' = subworlds u !! sw') /\
    work_left u' + step_taken u sw = work_left u.
Proof.
  intros Hready. destruct (loop_step_returns sw u tr Hready) as (u' & Hstep).
  destruct (loop_step_transition _ _ _ Hstep) as (ev & Htrans).
  destruct (loop_transition_ready _ _ _ _ _ Htrans Hready) as (Hready' & Hother & Hwork).
  destruct (loop_transition_frame _ _ _ _ Htrans) as (Hframe & _).
  exists u', ev. split; [exact Hstep|]. split; [exact Hready'|].
  split; [apply (frame_subworlds _ _ _ Hframe)|]. auto.
Qed.

Lemma loop_steps_ready (schedule : list nat) (u : universe_state) (tr : list event) :
  loop_ready u tr ->
  exists u' ev,
    loop_steps schedule u = Ok u' /\ loop_ready u' (tr ++ ev) /\
    length (subworlds u') = length (subworlds u) /\
    (forall sw, sw ∉ schedule -> subworlds u' !! sw = subworlds u !! sw) /\
    work_left u' <= work_left u.
Proof.
  revert u tr. induction schedule as [|sw rest IH]; intros u tr Hready.
  - exists u, []. rewrite app_nil_r. simpl. auto.
  - destruct (loop_step_ready sw u tr Hready) as (u1 & ev1 & Hstep & Hr1 & Hl1 & Ho1 & Hw1).
    destruct (IH u1 _ Hr1) as (u2 & ev2 & Hsteps & Hr2 & Hl2 & Ho2 & Hw2).
    exists u2, (ev1 ++ ev2). simpl. rewrite Hstep, bind_Ok, app_assoc.
    split; [exact Hsteps|]. split; [exact Hr2|]. split; [congruence|].
    split; [|lia].
    intros sw' Hnot. rewrite not_elem_of_cons in Hnot. destruct Hnot as [Hne Hnot].
    rewrite (Ho2 _ Hnot). apply Ho1, Hne.
Qed.

Lemma loop_steps_app (l1 l2 : list nat) (u u1 : universe_state) :
  loop_steps l1 u = Ok u1 -> loop_steps (l1 ++ l2) u = loop_steps l2 u1.
Proof.
  revert u. induction l1 as [|a l1 IH]; intros u; simpl.
  - intros [= ->]. reflexivity.
  - destruct (loop_step a u); try discriminate. rewrite !bind_Ok. apply IH.
Qed.

Lemma all_left_idle (schedule : list nat) (u : universe_state) :
  forallb has_left (subworlds u) = true -> loop_steps schedule u = Ok u.
Proof.
  intros Hall. induction schedule as [|sw rest IH]; [reflexivity|].
  simpl. unfold loop_step.
  destruct (subworlds u !! sw) as [w|] eqn:Hsw; [|rewrite bind_Ok; exact IH].
  rewrite forallb_forall in Hall.
  pose proof (Hall w (proj1 (list_elem_of_In _ _) (list_elem_of_lookup_2 _ _ _ Hsw))) as Hw.
  destruct w; simpl in Hw; try discriminate. rewrite bind_Ok. exact IH.
Qed.

Lemma not_all_left (sws : list subworld_state) :
  forallb has_left sws = false ->
  exists sw w, sws !! sw = Some w /\ has_left w = false.
Proof.
  induction sws as [|w sws IH]; simpl; [discriminate|].
  destruct (has_left w) eqn:Hw; simpl.
  - intros H. destruct (IH H) as (sw & w' & Hsw & Hw'). exists (S sw), w'. auto.
  - intros _. exists 0, w. auto.
Qed.

Lemma no_steps_left_all_left (sws : list subworld_state) :
  sum_list (steps_left <$> sws) = 0 -> forallb has_left sws = true.
Proof.
  induction sws as [|w sws IH]; [reflexivity|].
  rewrite fmap_cons. simpl. intros H.
  destruct w as [|j pc task|]; simpl in *; [lia|destruct pc; simpl in H; lia|].
  apply IH, H.
Qed.

(** One round of all subworlds takes a step off the work that is left,
    unless every subworld has left the loop. *)
Lemma round_ready (u : universe_state) (tr : list event) :
  loop_ready u tr ->
  exists u' ev,
    loop_steps (seq 0 (length (subworlds u))) u = Ok u' /\ loop_ready u' (tr ++ ev) /\
    length (subworlds u') = length (subworlds u) /\
    (work_left u' < work_left u \/ forallb has_left (subworlds u') = true).
Proof.
  intros Hready.
  destruct (forallb has_left (subworlds u)) eqn:Hall.
  - exists u, []. rewrite app_nil_r, all_left_idle by exact Hall. auto.
  - destruct (not_all_left _ Hall) as (sw & w & Hsw & Hw).
    pose proof (lookup_lt_Some _ _ _ Hsw) as Hlt.
    assert (Hsplit : seq 0 (length (subworlds u)) =
                     seq 0 sw ++ sw :: seq (S sw) (length (subworlds u) - S sw)).
    { replace (length (subworlds u)) with (sw + S (length (subworlds u) - S sw)) at 1
        by lia.
      rewrite seq_app. reflexivity. }
    destruct (loop_steps_ready (seq 0 sw) u tr Hready)
      as (u1 & ev1 & Hs1 & Hr1 & Hl1 & Ho1 & Hw1).
    destruct (loop_step_ready sw u1 _ Hr1) as (u2 & ev2 & Hs2 & Hr2 & Hl2 & _ & Hw2).
    destruct (loop_steps_ready (seq (S sw) (length (subworlds u) - S sw)) u2 _ Hr2)
      as (u3 & ev3 & Hs3 & Hr3 & Hl3 & _ & Hw3).
    exists u3, (ev1 ++ ev2 ++ ev3).
    split.
    { rewrite Hsplit, (loop_steps_app _ _ _ _ Hs1). simpl.
      rewrite Hs2, bind_Ok. exact Hs3. }
    split; [rewrite !app_assoc in *; exact Hr3|].
    split; [congruence|]. left.
    assert (Htaken : step_taken u1 sw = 1).
    { unfold step_taken. rewrite Ho1, Hsw.
      - destruct w; simpl in Hw; congruence.
      - rewrite elem_of_seq. lia. }
    lia.
Qed.

(** Enough rounds bring every subworld out of the loop. *)
Lemma rounds_ready (n : nat) (u : universe_state) (tr : list event) :
  loop_ready u tr -> work_left u <= n ->
  exists u' ev,
    loop_steps (round_robin (length (subworlds u)) n) u = Ok u' /\
    loop_ready u' (tr ++ ev) /\
    length (subworlds u') = length (subworlds u) /\
    forallb has_left (subworlds u') = true.
Proof.
  revert u tr. induction n as [|n IH]; intros u tr Hready Hwork.
  - exists u, []. rewrite app_nil_r. simpl. split; [reflexivity|].
    split; [exact Hready|]. split; [reflexivity|].
    apply no_steps_left_all_left. unfold work_left in Hwork. lia.
  - destruct (round_ready u tr Hready) as (u1 & ev1 & Hs1 & Hr1 & Hl1 & Hcase).
    unfold round_robin. simpl. rewrite (loop_steps_app _ _ _ _ Hs1).
    destruct Hcase as [Hless|Hall].
    + destruct (IH u1 _ Hr1 ltac:(lia)) as (u2 & ev2 & Hs2 & Hr2 & Hl2 & Hall2).
      exists u2, (ev1 ++ ev2). rewrite Hl1 in Hs2. rewrite app_assoc.
      split; [exact Hs2|]. split; [exact Hr2|]. split; [congruence|exact Hall2].
    + exists u1, ev1. rewrite all_left_idle by exact Hall. auto.
Qed.

(** ** [run_all] and [map] return *)

Lemma store_task_data_from_typed (j : nat) (l l' : list MacroTask)
    (fs fs' : gmap string archive_file) (tr tr' : list event) (name : string) :
  store_task_data_from j l fs tr = (l', fs', tr') ->
  name ∈ filenames l \/ (exists d i c, fs !! name = Some (data_archive d i c)) ->
  exists d i c, fs' !! name = Some (data_archive d i c).
Proof.
  revert j l' fs fs' tr tr'. induction l as [|t l IH]; intros j l' fs fs' tr tr'.
  - simpl. intros [= <- <- <-] [H|H]; [inversion H|exact H].
  - simpl.
    destruct (store_task_data_from (S j) l _ _) as [[l1 fs1] tr1] eqn:Hrec.
    intros [= <- <- <-] Hname. apply (IH _ _ _ _ _ _ Hrec).
    destruct (decide (data_type.filename (data t) = name)) as [<-|Hne].
    + right. rewrite lookup_insert_eq. eauto.
    + destruct Hname as [Hin|Hfile].
      * left. apply elem_of_cons in Hin as [Heq|Hin]; [congruence|exact Hin].
      * right. rewrite lookup_insert_ne by exact Hne. exact Hfile.
Qed.

(** The state in which [run_all] enters its loop is ready. *)
Lemma run_all_enter_ready (vtask : list MacroTask) (u : universe_state) :
  (forall t, t ∈ taskq u ++ vtask -> no_result_name (data t)) ->
  loop_ready (run_all_enter vtask u) [].
Proof.
  intros Hnames.
  destruct (run_all_enter_start vtask u) as [Hall Hsws].
  revert Hall Hsws. unfold run_all_enter, store_task_data. simpl. rewrite enroll_0.
  destruct (store_task_data_from 0 _ (files u) (trace u)) as [[tq2 fs2] tr2] eqn:Hstore.
  simpl. intros Hall _.
  destruct (store_task_data_from_spec _ _ _ _ _ _ _ Hstore) as (_ & _ & Hn & _).
  rewrite filenames_set_waiting in Hn.
  split; simpl.
  - apply loop_invariant_start, Hall.
  - eapply no_result_name_filenames; [exact Hn|exact Hnames].
  - intros name Hname. eapply store_task_data_from_typed; [exact Hstore|].
    left. rewrite filenames_set_waiting, <- Hn. exact Hname.
  - intros sw j H. inversion H.
Qed.

Lemma collect_returns (first n i : nat) (u : universe_state) :
  (forall i', i <= i' < i + n ->
     exists c, files u !! result_name i' = Some (function_archive c)) ->
  exists vresult u', collect first i n u = Ok (vresult, u').
Proof.
  revert i u. induction n as [|n IH]; intros i u Hfiles; simpl; [eauto|].
  destruct (Hfiles i ltac:(lia)) as (c & Hc).
  unfold function_read. rewrite Hc, bind_Ok.
  edestruct (IH (S i)) as (v & u' & ->).
  - simpl. intros i' Hi'. apply Hfiles. lia.
  - rewrite bind_Ok. eauto.
Qed.

(** For every batch whose payloads are in files that are not named like a
    result, [map] returns when the subworlds take their steps in turn: as
    many rounds as six for each task and one for each subworld are enough. *)
Lemma map_returns (task1 : MacroTask) (vdata : list data_type.t) (u : universe_state) :
  0 < length (subworlds u) ->
  (forall t, t ∈ taskq u -> no_result_name (data t)) ->
  Forall no_result_name vdata ->
  exists vresult u',
    map (round_robin (length (subworlds u))
           (work_left (run_all_enter (MacroTask_of_data <$> vdata) u)))
        task1 vdata u = Ok (vresult, u').
Proof.
  intros Hk Hold Hnew.
  assert (Hnames : forall t, t ∈ taskq u ++ (MacroTask_of_data <$> vdata) ->
                             no_result_name (data t)).
  { intros t [Ht|Ht]%elem_of_app; [apply Hold, Ht|].
    apply list_elem_of_fmap in Ht as (x & -> & Hx).
    rewrite Forall_forall in Hnew. apply (Hnew x Hx). }
  pose proof (run_all_enter_ready _ u Hnames) as Hready.
  destruct (run_all_enter_start (MacroTask_of_data <$> vdata) u) as [_ Hsws].
  set (u3 := run_all_enter (MacroTask_of_data <$> vdata) u) in *.
  assert (Hk3 : length (subworlds u3) = length (subworlds u))
    by (rewrite Hsws; apply length_replicate).
  destruct (rounds_ready (work_left u3) u3 [] Hready (Nat.le_refl _))
    as (u4 & ev & Hloop & Hready4 & Hl4 & Hall).
  rewrite Hk3 in Hloop. simpl in Hready4.
  unfold map, run_all. fold u3. rewrite Hloop, bind_Ok.
  unfold fence_after_loop. rewrite Hall, bind_Ok.
  apply collect_returns. intros i Hi.
  destruct Hready4 as [Inv _ _ Hres].
  assert (Hlen : length (taskq u4) = length (taskq u) + length vdata).
  { destruct (loop_steps_frame _ _ _ Hloop) as (ev' & Hframe & _).
    rewrite (filenames_length _ _ (frame_filenames _ _ _ Hframe)).
    destruct (run_all_enter_start (MacroTask_of_data <$> vdata) u) as [_ _].
    unfold u3, run_all_enter, store_task_data. simpl. rewrite enroll_0.
    destruct (store_task_data_from 0 _ (files u) (trace u)) as [[tq2 fs2] tr2] eqn:Hstore.
    simpl. destruct (store_task_data_from_spec _ _ _ _ _ _ _ Hstore) as (_ & _ & Hn & _).
    rewrite (filenames_length _ _ Hn), length_fmap, length_app, length_fmap. reflexivity. }
  destruct (lookup_lt_is_Some_2 (taskq u4) i ltac:(lia)) as [t Ht].
  destruct (loop_invariant_finished _ _ _ i t Inv ltac:(lia) Hall Ht) as (_ & sw & Hev).
  apply (Hres sw i).
  assert (Hin : stored_result sw i (result_name i) ∈ steps_on i ev).
  { rewrite Hev. unfold loop_body_events. rewrite !elem_of_cons. auto 10. }
  apply list_elem_of_filter in Hin. tauto.
Qed.

(** ** [map] and the side store *)

(** C2, as the code has it, for payloads whose files are not named like a
    result: [map] returns for a schedule of the subworlds, and in every call
    of [map] that returns, the result file [result_of_task<j>] of every task
    [j] of the list is written once, no file is removed, and the files stay:
    after the call the side store holds every file it held before, the
    result file of every task and the file of the payload of every task. *)
Theorem map_side_store (task1 : MacroTask) (vdata : list data_type.t)
    (u : universe_state) :
  0 < length (subworlds u) ->
  (forall t, t ∈ taskq u -> no_result_name (data t)) ->
  Forall no_result_name vdata ->
  (exists schedule vresult u', map schedule task1 vdata u = Ok (vresult, u')) /\
  forall schedule vresult u',
    map schedule task1 vdata u = Ok (vresult, u') ->
    exists ev,
      trace u' = trace u ++ ev /\
      length (taskq u') = length (taskq u) + length vdata /\
      length vresult = length vdata /\
      (forall j, j < length (taskq u') ->
         writes_of (result_name j) ev = 1 /\ is_Some (files u' !! result_name j)) /\
      (forall name, Remove name ∉ accesses ev) /\
      (forall name, is_Some (files u !! name) -> is_Some (files u' !! name)) /\
      (forall t, t ∈ taskq u' -> is_Some (files u' !! data_type.filename (data t))).
Proof.
  intros Hk Hold Hnew.
  split; [eexists; apply map_returns; assumption|].
  intros schedule vresult u'. unfold map.
  destruct (run_all schedule (MacroTask_of_data <$> vdata) u) as [ur| | |] eqn:Hrun;
    try discriminate.
  rewrite bind_Ok. intros Hcol.
  destruct (run_all_spec _ _ _ _ Hk Hrun)
    as (ev_store & ev_loop & Htr & Hn & Hs & Hf & Hin & Hstore & Hsteps & Hw & Hr
        & Hbody & Hout).
  destruct (collect_spec _ _ _ _ _ _ Hcol) as (Hlen & Hfiles & Hstat & Hframe).
  set (ev_collect := (fun k => universe_loaded_result k (result_name k)) <$>
                       seq 0 (length vdata)) in *.
  pose proof (frame_filenames _ _ _ Hframe) as Hn'.
  assert (Hhyg : forall name, name ∈ filenames (taskq u ++ (MacroTask_of_data <$> vdata)) ->
                              forall j, name <> result_name j).
  { intros name (t & Ht & <-)%elem_of_filenames.
    apply elem_of_app in Ht as [Ht|Ht]; [apply Hold, Ht|].
    apply list_elem_of_fmap in Ht as (x & -> & Hx).
    rewrite Forall_forall in Hnew. apply (Hnew x Hx). }
  assert (Hnames_r : forall t, t ∈ taskq ur -> no_result_name (data t)).
  { intros t Ht j. apply Hhyg. rewrite <- Hn. apply elem_of_filenames. eauto. }
  assert (Hlen_r : length (taskq ur) = length (taskq u) + length vdata).
  { rewrite (filenames_length _ _ Hn), length_app, length_fmap. reflexivity. }
  exists (ev_store ++ ev_loop ++ ev_collect).
  split; [rewrite (frame_trace _ _ _ Hframe), Htr, <- !app_assoc; reflexivity|].
  split; [rewrite (filenames_length _ _ Hn'); exact Hlen_r|].
  split; [exact Hlen|].
  split.
  { intros j Hj. rewrite (filenames_length _ _ Hn') in Hj.
    split.
    - rewrite !writes_of_app.
      rewrite (writes_of_none _ ev_store), (writes_of_none _ ev_collect).
      + rewrite (writes_of_loop (taskq ur)); auto.
        intros j1 t1 Hj1. apply (Hbody j1 t1 Hj1).
      + intros e (k & -> & _)%list_elem_of_fmap. discriminate.
      + intros e He. rewrite Forall_forall in Hstore.
        destruct (Hstore e He) as (k & name & -> & Hname). simpl.
        intros [= ->]. exact (Hhyg _ Hname j eq_refl).
    - rewrite Hfiles.
      destruct (lookup_lt_is_Some_2 (taskq ur) j Hj) as [t Ht].
      destruct (Hbody _ _ Ht) as (_ & sw & Hev).
      apply (Hw (stored_result sw j (result_name j))); [|reflexivity].
      assert (Hin' : stored_result sw j (result_name j) ∈ steps_on j ev_loop).
      { rewrite Hev. unfold loop_body_events. rewrite !elem_of_cons. auto 10. }
      apply list_elem_of_filter in Hin'. tauto. }
  split.
  { intros name (e & He & Ha)%list_elem_of_omap.
    apply elem_of_app in He as [He|He].
    - rewrite Forall_forall in Hstore.
      destruct (Hstore e He) as (k & name' & -> & _). discriminate.
    - apply elem_of_app in He as [He|He].
      + exact (Hr e name He Ha).
      + exact (frame_no_remove _ _ _ Hframe e name He Ha). }
  split.
  { intros name Hname. rewrite Hfiles. auto. }
  intros t Ht. rewrite Hfiles. apply Hin. rewrite <- Hn, <- Hn'.
  apply elem_of_filenames. eauto.
Qed.

Lemma map_side_store_witness :
  0 < length (subworlds new_queue) /\
  (forall t, t ∈ taskq new_queue -> no_result_name (data t)) /\
  Forall no_result_name one_input /\
  exists vresult u',
    map seven_steps (task_with 0 Unknown 0) one_input new_queue = Ok (vresult, u') /\
    exists ev, trace u' = trace new_queue ++ ev /\
      writes_of (result_name 0) ev = 1 /\ is_Some (files u' !! result_name 0).
Proof.
  assert (H1 : 0 < length (subworlds new_queue)) by (simpl; lia).
  assert (H2 : forall t, t ∈ taskq new_queue -> no_result_name (data t))
    by (intros t Ht; inversion Ht).
  assert (H3 : Forall no_result_name one_input).
  { repeat constructor. apply (dummy_no_result_name _ 0). reflexivity. }
  split; [exact H1|]. split; [exact H2|]. split; [exact H3|].
  destruct (map seven_steps (task_with 0 Unknown 0) one_input new_queue)
    as [[vresult u']| | |] eqn:Hmap; [|vm_compute in Hmap; discriminate..].
  exists vresult, u'. split; [reflexivity|].
  destruct (proj2 (map_side_store (task_with 0 Unknown 0) one_input new_queue H1 H2 H3)
              _ _ _ Hmap) as (ev & Htr & Hlen & _ & Hres & _).
  exists ev. split; [exact Htr|]. apply Hres. rewrite Hlen. simpl. lia.
Defined.

(** C2, as stated, fails on a batch of one task on a new queue with one
    subworld: [map] returns, no file has been removed, and the side store
    holds the result file and the file of the payload. *)
Lemma map_leaves_files :
  exists vresult u',
    map seven_steps (task_with 0 Unknown 0) one_input new_queue = Ok (vresult, u') /\
    accesses (trace u') =
      [Write "dummy0"; Read "dummy0"; Write "dummy0";
       Write "result_of_task0"; Read "result_of_task0"] /\
    files u' !! "result_of_task0" = Some (function_archive (Some (functor_gaussian 0))) /\
    files u' !! "dummy0" = Some (data_archive 0 0 (Some (add_scalar 0))) /\
    files u' <> ∅.
Proof.
  eexists _, _. split; [vm_compute; reflexivity|].
  split; [vm_compute; reflexivity|].
  split; [vm_compute; reflexivity|].
  split; [vm_compute; reflexivity|].
  intros H. apply (f_equal (fun m => m !! "dummy0")) in H. vm_compute in H. discriminate.
Qed.

(** ** The scheduler functions, composed *)

Lemma filter_all {A : Type} (P : A -> Prop) `{forall x, Decision (P x)} (l : list A) :
  (forall x, x ∈ l -> P x) -> filter P l = l.
Proof.
  induction l as [|x l IH]; intros Hl; [reflexivity|].
  rewrite filter_cons_True by (apply Hl; left). f_equal. apply IH.
  intros y Hy. apply Hl. right. exact Hy.
Qed.

Lemma waiting_positions_from_alter (s : Status) (j k : nat) (l : list MacroTask) :
  s <> Waiting ->
  waiting_positions_from k (alter (with_stat s) j l) =
  filter (fun p => p <> k + j) (waiting_positions_from k l).
Proof.
  intros Hs. revert j k. induction l as [|t l IH]; intros j k; [reflexivity|].
  destruct j as [|j].
  - cbn [alter list_alter waiting_positions_from].
    assert (Hno : is_Waiting (with_stat s t) = false).
    { unfold is_Waiting. simpl. destruct s; congruence. }
    rewrite Hno.
    assert (Hrest : filter (fun p => p <> k + 0) (waiting_positions_from (S k) l) =
                    waiting_positions_from (S k) l).
    { apply filter_all.
      intros p [Hp _]%elem_of_waiting_positions_from. lia. }
    destruct (is_Waiting t).
    + rewrite filter_cons_False by lia. symmetry. exact Hrest.
    + symmetry. exact Hrest.
  - cbn [alter list_alter waiting_positions_from].
    change (list_alter (with_stat s) j l) with (alter (with_stat s) j l).
    rewrite IH. replace (S k + j) with (k + S j) by lia.
    destruct (is_Waiting t); [|reflexivity].
    rewrite filter_cons_True by lia. reflexivity.
Qed.

Lemma set_complete_local_returns (j : nat) (taskq taskq' : list MacroTask) :
  set_complete_local 0 (Z.of_nat j) taskq = Ok taskq' ->
  j < length taskq /\ taskq' = alter set_complete j taskq.
Proof.
  unfold set_complete_local. simpl.
  destruct (Z.leb_spec 0 (Z.of_nat j)); [|lia].
  destruct (Z.ltb_spec (Z.of_nat j) (Z.of_nat (length taskq))); simpl; [|discriminate].
  rewrite Nat2Z.id. intros [= <-]. split; [lia|reflexivity].
Qed.

(** X1: [set_complete_local] takes the task out of what is still handed out and
    changes nothing else of it: the waiting positions after the call are
    those before it without the position of the task, so the calls of
    [get_scheduled_task_number_local] that follow return the same numbers in
    the same order, that one left out; on a task that did not wait they
    return what they would have returned. *)
Theorem set_complete_local_withdraws (j n : nat) (taskq taskq' : list MacroTask) :
  set_complete_local 0 (Z.of_nat j) taskq = Ok taskq' ->
  waiting_positions taskq' = filter (fun p => p <> j) (waiting_positions taskq) /\
  claim_sequence n taskq' =
    Z.of_nat <$> take n (filter (fun p => p <> j) (waiting_positions taskq)) /\
  (forall t, taskq !! j = Some t -> stat t <> Waiting ->
     claim_sequence n taskq' = claim_sequence n taskq).
Proof.
  intros [Hj ->]%set_complete_local_returns.
  assert (Hwp : waiting_positions (alter set_complete j taskq) =
                filter (fun p => p <> j) (waiting_positions taskq)).
  { unfold waiting_positions, set_complete.
    rewrite waiting_positions_from_alter by discriminate. reflexivity. }
  split; [exact Hwp|]. split.
  - rewrite claim_sequence_take, Hwp. reflexivity.
  - intros t Ht Hs. rewrite !claim_sequence_take, Hwp. do 2 f_equal.
    apply filter_all. intros p Hp ->.
    unfold waiting_positions in Hp. apply elem_of_waiting_positions_from in Hp.
    destruct Hp as (_ & t' & Ht' & Hs'). rewrite Nat.sub_0_r in Ht'. congruence.
Qed.

Lemma set_complete_local_withdraws_witness :
  set_complete_local 0 (Z.of_nat 1) ten_tasks = Ok (alter set_complete 1 ten_tasks) /\
  claim_sequence 3 (alter set_complete 1 ten_tasks) = [0; 2; 3]%Z.
Proof.
  assert (H : set_complete_local 0 (Z.of_nat 1) ten_tasks = Ok (alter set_complete 1 ten_tasks))
    by reflexivity.
  split; [exact H|].
  rewrite (proj1 (proj2 (set_complete_local_withdraws 1 3 _ _ H))). reflexivity.
Defined.

(** X2: A number that [get_scheduled_task_number_local] returns is one that
    [set_complete_local] takes: the call returns, the task is [Complete],
    and the pair of calls has taken the first waiting position off the
    waiting positions and left the others in place. *)
Theorem claim_then_complete (taskq taskq1 : list MacroTask) (element : Z) :
  get_scheduled_task_number_local 0 taskq = Ok (element, taskq1) ->
  (0 <= element)%Z ->
  waiting_positions taskq !! 0 = Some (Z.to_nat element) /\
  set_complete_local 0 element taskq1 = Ok (alter set_complete (Z.to_nat element) taskq) /\
  stat <$> alter set_complete (Z.to_nat element) taskq !! Z.to_nat element = Some Complete /\
  waiting_positions (alter set_complete (Z.to_nat element) taskq) =
    drop 1 (waiting_positions taskq).
Proof.
  intros Hget Hpos.
  destruct (Nat.lt_ge_cases (find_if is_Waiting taskq) (length taskq)) as [Hlt|Hge].
  - rewrite get_scheduled_task_number_local_found in Hget by exact Hlt.
    injection Hget as <- <-. rewrite Nat2Z.id.
    destruct (find_if_split _ _ Hlt) as (pre & t & post & Heq & Hlen & Ht & Hpre).
    rewrite <- Hlen. clear Hlt Hlen. subst taskq.
    assert (Hwp : waiting_positions (pre ++ t :: post) =
                  length pre :: waiting_positions_from (S (length pre)) post).
    { unfold waiting_positions. rewrite waiting_positions_from_app.
      rewrite (waiting_positions_from_none 0 pre) by exact Hpre. simpl. rewrite Ht.
      reflexivity. }
    split; [rewrite Hwp; reflexivity|].
    split.
    { unfold set_complete_local. simpl.
      rewrite length_alter, length_app. simpl.
      destruct (Z.leb_spec 0 (Z.of_nat (length pre))); [|lia].
      destruct (Z.ltb_spec (Z.of_nat (length pre))
                  (Z.of_nat (length pre + S (length post)))); [|lia].
      simpl. rewrite Nat2Z.id. f_equal.
      rewrite !alter_app_r_alt by lia. rewrite Nat.sub_diag. reflexivity. }
    split.
    { rewrite alter_app_r_alt by lia. rewrite Nat.sub_diag.
      rewrite lookup_app_r by lia. rewrite Nat.sub_diag. reflexivity. }
    rewrite Hwp. unfold waiting_positions, set_complete.
    rewrite waiting_positions_from_alter by discriminate.
    fold (waiting_positions (pre ++ t :: post)). rewrite Hwp. simpl.
    rewrite filter_cons_False by lia.
    apply filter_all.
    intros p [Hp _]%elem_of_waiting_positions_from. lia.
  - assert (Heq : find_if is_Waiting taskq = length taskq)
      by (pose proof (find_if_le is_Waiting taskq); lia).
    rewrite get_scheduled_task_number_local_none in Hget by exact Heq.
    injection Hget as <- <-. lia.
Qed.

Lemma claim_then_complete_witness :
  get_scheduled_task_number_local 0 ten_tasks = Ok (0%Z, alter set_running 0 ten_tasks) /\
  (0 <= 0)%Z /\
  set_complete_local 0 0 (alter set_running 0 ten_tasks) = Ok (alter set_complete 0 ten_tasks).
Proof.
  assert (H : get_scheduled_task_number_local 0 ten_tasks =
              Ok (0%Z, alter set_running 0 ten_tasks)) by reflexivity.
  assert (H0 : (0 <= 0)%Z) by lia.
  split; [exact H|]. split; [exact H0|].
  exact (proj1 (proj2 (claim_then_complete _ _ _ H H0))).
Defined.
(** ** The loop of [run_all], state by state *)

(** What every transition keeps holds after every run of the loop. *)
Lemma loop_steps_induction (P : universe_state -> list event -> Prop) :
  (forall sw u ev u' tr, loop_transition sw u ev u' -> P u tr -> P u' (tr ++ ev)) ->
  forall schedule u u' tr,
    loop_steps schedule u = Ok u' -> P u tr ->
    exists ev, trace u' = trace u ++ ev /\ P u' (tr ++ ev).
Proof.
  intros Hstep schedule. induction schedule as [|sw rest IH]; intros u u' tr; simpl.
  - intros [= <-] HP. exists []. rewrite !app_nil_r. auto.
  - destruct (loop_step sw u) as [u1| | |] eqn:Hs; try discriminate.
    rewrite bind_Ok. intros Hrest HP.
    destruct (loop_step_transition _ _ _ Hs) as (ev1 & Htrans).
    destruct (IH _ _ _ Hrest (Hstep _ _ _ _ _ Htrans HP)) as (ev2 & Htr & HP2).
    exists (ev1 ++ ev2). split; [|rewrite app_assoc; exact HP2].
    rewrite Htr, (frame_trace _ _ _ (proj1 (loop_transition_frame _ _ _ _ Htrans))).
    rewrite <- app_assoc. reflexivity.
Qed.

(** The invariant of the loop holds in every state a run of the loop of
    [run_all] comes to. *)
Lemma loop_invariant_reached (schedule : list nat) (vtask : list MacroTask)
    (u u1 : universe_state) :
  loop_steps schedule (run_all_enter vtask u) = Ok u1 ->
  exists ev, trace u1 = trace (run_all_enter vtask u) ++ ev /\
             loop_invariant (taskq u1) (subworlds u1) ev.
Proof.
  intros Hloop.
  destruct (run_all_enter_start vtask u) as [Hall Hsws].
  destruct (loop_steps_frame _ _ _ Hloop) as (ev & Hframe & Hinv).
  rewrite Hsws in Hinv. specialize (Hinv [] (loop_invariant_start _ _ Hall)).
  exists ev. split; [apply (frame_trace _ _ _ Hframe)|exact Hinv].
Qed.

(** A step of a subworld leaves a status as it is or moves it forward. *)
Lemma loop_step_status (schedule : list nat) (vtask : list MacroTask)
    (u u1 u2 : universe_state) (sw : nat) :
  loop_steps schedule (run_all_enter vtask u) = Ok u1 ->
  loop_step sw u1 = Ok u2 ->
  length (taskq u2) = length (taskq u1) /\
  forall j t1 t2, taskq u1 !! j = Some t1 -> taskq u2 !! j = Some t2 ->
    priority t2 = priority t1 /\
    stat t1 <> Unknown /\
    (stat t2 = stat t1 \/
     (stat t1 = Waiting /\ stat t2 = Running) \/
     (stat t1 = Running /\ stat t2 = Complete)).
Proof.
  intros Hloop Hstep.
  destruct (loop_invariant_reached _ _ _ _ Hloop) as (ev & _ & Inv).
  destruct (loop_step_transition _ _ _ Hstep) as (ev1 & Htrans).
  assert (Hsame : forall j t1 t2, taskq u1 !! j = Some t1 -> taskq u1 !! j = Some t2 ->
            priority t2 = priority t1 /\
            stat t1 <> Unknown /\
            (stat t2 = stat t1 \/ (stat t1 = Waiting /\ stat t2 = Running) \/
             (stat t1 = Running /\ stat t2 = Complete))).
  { intros j t1 t2 H1 H2. rewrite H1 in H2. injection H2 as <-.
    pose proof (inv_known _ _ _ Inv _ _ H1) as Hk. auto 10. }
  assert (Halter : forall s j0 j t1 t2,
            taskq u1 !! j = Some t1 -> alter (with_stat s) j0 (taskq u1) !! j = Some t2 ->
            (forall t0, taskq u1 !! j0 = Some t0 ->
               (stat t0 = Waiting /\ s = Running) \/ (stat t0 = Running /\ s = Complete)) ->
            priority t2 = priority t1 /\
            stat t1 <> Unknown /\
            (stat t2 = stat t1 \/ (stat t1 = Waiting /\ stat t2 = Running) \/
             (stat t1 = Running /\ stat t2 = Complete))).
  { intros s j0 j t1 t2 H1 H2 Hs.
    pose proof (inv_known _ _ _ Inv _ _ H1) as Hk.
    destruct (decide (j0 = j)) as [->|Hne].
    - rewrite list_lookup_alter_eq, H1 in H2. injection H2 as <-. simpl.
      split; [reflexivity|]. split; [exact Hk|]. destruct (Hs _ H1) as [[-> ->]|[-> ->]]; auto.
    - rewrite list_lookup_alter_ne, H1 in H2 by exact Hne. injection H2 as <-.
      auto 10. }
  inversion Htrans as
    [Hsw|Hsw Hnone|j t Hsw Ht Hst Hmin|j task x Hsw Hx|j task Hsw|j task Hsw Hj
    |j task Hsw|j task Hsw]; subst; simpl; try (split; [reflexivity|exact Hsame]).
  - split; [apply length_alter|]. intros j1 t1 t2 H1 H2.
    eapply (Halter Running); eauto. intros t0 Ht0. left. split; congruence.
  - split; [apply length_alter|]. intros j1 t1 t2 H1 H2.
    eapply (Halter Complete); eauto. intros t0 Ht0. right.
    destruct (inv_held _ _ _ Inv _ _ _ _ Hsw) as (t & Ht & Hst & _).
    split; [|reflexivity]. rewrite Ht in Ht0. injection Ht0 as <-. exact Hst.
Qed.

(** X3: In every run of the loop of [run_all] and at every step of a subworld,
    the status that rank 0 holds of a task stays or moves from [Waiting] to
    [Running] or from [Running] to [Complete]; no status is [Unknown], the
    list keeps its length and the tasks keep their priorities.
    [set_complete] is called by every rank of a subworld, so
    [set_complete_local] runs more than once on a task: a call on a task
    that has been handed out, which is [Running] or [Complete], returns,
    leaves that task [Complete] and touches no other task.  No task goes
    back to [Waiting] while the loop runs. *)
Theorem status_moves_forward (schedule : list nat) (vtask : list MacroTask)
    (u u1 u2 : universe_state) (sw : nat) :
  loop_steps schedule (run_all_enter vtask u) = Ok u1 ->
  loop_step sw u1 = Ok u2 ->
  length (taskq u2) = length (taskq u1) /\
  (forall j t1 t2, taskq u1 !! j = Some t1 -> taskq u2 !! j = Some t2 ->
     priority t2 = priority t1 /\
     stat t1 <> Unknown /\
     (stat t2 = stat t1 \/
      (stat t1 = Waiting /\ stat t2 = Running) \/
      (stat t1 = Running /\ stat t2 = Complete))) /\
  (forall j t1, taskq u1 !! j = Some t1 -> stat t1 <> Waiting ->
     (stat t1 = Running \/ stat t1 = Complete) /\
     exists tq' t2,
       set_complete_local 0 (Z.of_nat j) (taskq u1) = Ok tq' /\
       length tq' = length (taskq u1) /\
       tq' !! j = Some t2 /\ stat t2 = Complete /\ priority t2 = priority t1 /\
       (forall j', j' <> j -> tq' !! j' = taskq u1 !! j')).
Proof.
  intros Hloop Hstep.
  destruct (loop_step_status _ _ _ _ _ _ Hloop Hstep) as [Hlen Hmove].
  split; [exact Hlen|]. split; [exact Hmove|].
  intros j t1 Hj Hnw.
  destruct (loop_invariant_reached _ _ _ _ Hloop) as (ev & _ & Inv).
  split.
  { pose proof (inv_known _ _ _ Inv _ _ Hj) as Hk.
    destruct (stat t1); auto; congruence. }
  exists (alter set_complete j (taskq u1)), (set_complete t1).
  pose proof (lookup_lt_Some _ _ _ Hj) as Hlt.
  split.
  { unfold set_complete_local. simpl.
    destruct (Z.leb_spec 0 (Z.of_nat j)); [|lia].
    destruct (Z.ltb_spec (Z.of_nat j) (Z.of_nat (length (taskq u1)))); [|lia].
    simpl. rewrite Nat2Z.id. reflexivity. }
  split; [apply length_alter|].
  split; [rewrite list_lookup_alter_eq, Hj; reflexivity|].
  split; [reflexivity|]. split; [reflexivity|].
  intros j' Hne. apply list_lookup_alter_ne. congruence.
Qed.

Lemma status_moves_forward_witness :
  exists u1 u2,
    loop_steps (replicate 3 0) (run_all_enter (MacroTask_of_data <$> one_input) new_queue) =
      Ok u1 /\
    loop_step 0 u1 = Ok u2 /\
    stat <$> taskq u1 !! 0 = Some Running /\ stat <$> taskq u2 !! 0 = Some Complete /\
    length (taskq u2) = length (taskq u1).
Proof.
  destruct (loop_steps (replicate 3 0)
              (run_all_enter (MacroTask_of_data <$> one_input) new_queue))
    as [u1| | |] eqn:H1; [|vm_compute in H1; discriminate..].
  destruct (loop_step 0 u1) as [u2| | |] eqn:H2;
    [|vm_compute in H1; injection H1 as <-; vm_compute in H2; discriminate..].
  exists u1, u2. split; [reflexivity|]. split; [exact H2|].
  pose proof (proj1 (status_moves_forward _ _ _ _ _ _ H1 H2)) as Hlen.
  vm_compute in H1. injection H1 as <-. vm_compute in H2. injection H2 as <-.
  split; [reflexivity|]. split; [reflexivity|]. exact Hlen.
Defined.
(** ** [store_task_data] *)

Lemma store_task_data_from_eq (j : nat) (l : list MacroTask)
    (fs : gmap string archive_file) (tr : list event) :
  store_task_data_from j l fs tr =
  ((fun t => with_data (with_f None (data t)) t) <$> l,
   store_all l fs,
   tr ++ imap (fun k t => universe_stored_data (j + k) (data_type.filename (data t))) l).
Proof.
  revert j fs tr. induction l as [|t l IH]; intros j fs tr.
  - simpl. rewrite app_nil_r. reflexivity.
  - cbn [store_task_data_from store_and_clear]. rewrite IH.
    rewrite fmap_cons. cbn [imap]. rewrite <- app_assoc. cbn [app].
    rewrite Nat.add_0_r. f_equal. f_equal. f_equal. apply imap_ext. intros k x _. simpl.
    f_equal. lia.
Qed.

Lemma store_all_snoc (l : list MacroTask) (t : MacroTask) (fs : gmap string archive_file) :
  store_all (l ++ [t]) fs =
  <[data_type.filename (data t) := payload_file (data t)]> (store_all l fs).
Proof. unfold store_all. rewrite foldl_snoc. reflexivity. Qed.

(** The file of a name after all the writes is the payload of the last
    task of that name. *)
Lemma store_all_lookup (l : list MacroTask) (fs : gmap string archive_file) (name : string) :
  store_all l fs !! name =
  match last (filter (fun t => data_type.filename (data t) = name) l) with
  | Some t => Some (payload_file (data t))
  | None => fs !! name
  end.
Proof.
  induction l as [|t l IH] using rev_ind; [reflexivity|].
  rewrite store_all_snoc, filter_app.
  destruct (decide (data_type.filename (data t) = name)) as [<-|Hne].
  - rewrite (filter_cons_True _ t) by reflexivity. rewrite filter_nil.
    rewrite last_snoc, lookup_insert_eq. reflexivity.
  - rewrite (filter_cons_False _ t) by exact Hne. rewrite filter_nil, app_nil_r.
    rewrite lookup_insert_ne by exact Hne. exact IH.
Qed.

Lemma store_all_lookup_NoDup (l : list MacroTask) (fs : gmap string archive_file)
    (t : MacroTask) :
  NoDup (filenames l) -> t ∈ l ->
  store_all l fs !! data_type.filename (data t) = Some (payload_file (data t)).
Proof.
  induction l as [|t1 l IH] using rev_ind; intros Hnd Ht; [inversion Ht|].
  rewrite store_all_snoc.
  unfold filenames in Hnd. rewrite fmap_app in Hnd. apply NoDup_app in Hnd.
  destruct Hnd as (Hnd & Hdisj & _).
  apply elem_of_app in Ht as [Ht|Ht].
  - rewrite lookup_insert_ne; [apply IH; assumption|].
    intros Heq. apply (Hdisj (data_type.filename (data t))).
    + apply list_elem_of_fmap. eauto.
    + rewrite <- Heq. simpl. left.
  - apply list_elem_of_singleton in Ht. subst t1. apply lookup_insert_eq.
Qed.


(** ** The order in which the tasks are handed out *)

Lemma claimed_elements_app (tr ev : list event) :
  claimed_elements (tr ++ ev) = claimed_elements tr ++ claimed_elements ev.
Proof. apply omap_app. Qed.

(** The tasks handed out so far are the first [m] of the list, in their
    order, and the tasks that wait are those from [m] on. *)
Lemma loop_transition_claim_order (sw : nat) (u : universe_state) (ev : list event)
    (u' : universe_state) (tr : list event) :
  loop_transition sw u ev u' ->
  loop_invariant (taskq u) (subworlds u) tr /\
  (exists m, claimed_elements tr = seq 0 m /\ m <= length (taskq u) /\
     forall j t, taskq u !! j = Some t -> (stat t = Waiting <-> m <= j)) ->
  loop_invariant (taskq u') (subworlds u') (tr ++ ev) /\
  (exists m, claimed_elements (tr ++ ev) = seq 0 m /\ m <= length (taskq u') /\
     forall j t, taskq u' !! j = Some t -> (stat t = Waiting <-> m <= j)).
Proof.
  intros Htrans (Inv & m & Hcl & Hm & Hw).
  split; [apply (proj2 (loop_transition_frame _ _ _ _ Htrans)), Inv|].
  rewrite claimed_elements_app.
  inversion Htrans as
    [Hsw|Hsw Hnone|j t Hsw Ht Hst Hmin|j task x Hsw Hx|j task Hsw|j task Hsw Hj
    |j task Hsw|j task Hsw]; subst; simpl;
    try (exists m; rewrite ?app_nil_r; auto; fail).
  - assert (Hjm : j = m).
    { pose proof (proj1 (Hw _ _ Ht) Hst) as Hle.
      pose proof (lookup_lt_Some _ _ _ Ht) as Hlt.
      destruct (decide (j = m)) as [->|Hne]; [reflexivity|].
      destruct (lookup_lt_is_Some_2 (taskq u) m) as [t' Ht']; [lia|].
      destruct (Hmin m t' ltac:(lia) Ht'). apply (Hw _ _ Ht'). lia. }
    subst j. exists (S m). rewrite Hcl, seq_S. split; [reflexivity|].
    split; [rewrite length_alter; apply lookup_lt_Some in Ht; lia|].
    intros j1 t1 H1.
    destruct (lookup_alter_with_stat _ _ _ _ _ H1) as (t0 & Ht0 & _ & [[-> Hs]|[Hne ->]]).
    + rewrite Hs. split; [discriminate|lia].
    + rewrite (Hw _ _ Ht0). lia.
  - exists m. rewrite app_nil_r. split; [exact Hcl|].
    split; [rewrite length_alter; exact Hm|].
    intros j1 t1 H1.
    destruct (lookup_alter_with_stat _ _ _ _ _ H1) as (t0 & Ht0 & _ & [[-> Hs]|[Hne ->]]).
    + rewrite Hs. split; [discriminate|]. intros Hle.
      destruct (inv_held _ _ _ Inv _ _ _ _ Hsw) as (t & Ht & Hst & _).
      rewrite Ht in Ht0. injection Ht0 as <-.
      apply (Hw _ _ Ht) in Hle. rewrite Hst in Hle. discriminate.
    + apply (Hw _ _ Ht0).
Qed.

(** X5: Whatever the subworlds and the order of their steps, the loop of
    [run_all] hands the tasks out by increasing task number, each once: the
    numbers claimed in a run are 0, 1, ..., [m-1] in this order, the tasks
    from [m] on are those that still wait, and when every subworld has left
    the loop, [m] is the length of the list. *)
Theorem tasks_claimed_in_order (schedule : list nat) (vtask : list MacroTask)
    (u u' : universe_state) :
  loop_steps schedule (run_all_enter vtask u) = Ok u' ->
  exists ev m,
    trace u' = trace (run_all_enter vtask u) ++ ev /\
    claimed_elements ev = seq 0 m /\
    m <= length (taskq u') /\
    (forall j t, taskq u' !! j = Some t -> (stat t = Waiting <-> m <= j)) /\
    (0 < length (subworlds u) -> forallb has_left (subworlds u') = true ->
     m = length (taskq u')).
Proof.
  intros Hloop.
  destruct (run_all_enter_start vtask u) as [Hall Hsws].
  destruct (loop_steps_induction _ loop_transition_claim_order _ _ _ [] Hloop)
    as (ev & Htr & Inv & m & Hcl & Hm & Hw).
  { split; [rewrite Hsws; apply loop_invariant_start, Hall|].
    exists 0. split; [reflexivity|]. split; [lia|].
    intros j t Hj. split; [lia|]. intros _.
    eapply Forall_lookup_1 in Hall; eauto. }
  exists ev, m.
  split; [exact Htr|]. split; [exact Hcl|]. split; [exact Hm|]. split; [exact Hw|].
  intros Hk Hleft.
  destruct (decide (m = length (taskq u'))) as [Heq|Hne]; [exact Heq|].
  destruct (lookup_lt_is_Some_2 (taskq u') m) as [t Ht]; [lia|].
  assert (Hlen : 0 < length (subworlds u')).
  { destruct (loop_steps_frame _ _ _ Hloop) as (ev' & Hframe & _).
    rewrite (frame_subworlds _ _ _ Hframe), Hsws, length_replicate. exact Hk. }
  destruct (loop_invariant_finished _ _ _ m t Inv Hlen Hleft Ht) as (Hs & _).
  pose proof (proj2 (Hw _ _ Ht) (Nat.le_refl m)) as Hwait. congruence.
Qed.

Lemma tasks_claimed_in_order_witness :
  exists u',
    loop_steps seven_steps (run_all_enter (MacroTask_of_data <$> one_input) new_queue) =
      Ok u' /\
    exists ev, trace u' = trace (run_all_enter (MacroTask_of_data <$> one_input) new_queue)
                          ++ ev /\
               claimed_elements ev = [0].
Proof.
  destruct (loop_steps seven_steps
              (run_all_enter (MacroTask_of_data <$> one_input) new_queue))
    as [u'| | |] eqn:Hloop; [|vm_compute in Hloop; discriminate..].
  exists u'. split; [reflexivity|].
  destruct (tasks_claimed_in_order _ _ _ _ Hloop) as (ev & m & Htr & Hcl & _).
  exists ev. split; [exact Htr|].
  vm_compute in Hloop. injection Hloop as <-.
  vm_compute in Htr. injection Htr as <-. reflexivity.
Defined.

(** ** No run of [run_all] or [map] fails *)

Lemma sum_list_steps_left_polling (k : nat) :
  sum_list (steps_left <$> replicate k polling) = k.
Proof. induction k as [|k IH]; [reflexivity|]. simpl. unfold fmap in IH. lia. Qed.

(** The work before the loop of [run_all]: six steps for each task and one
    for each subworld. *)
Lemma work_left_start (vtask : list MacroTask) (u : universe_state) :
  work_left (run_all_enter vtask u) =
  6 * (length (taskq u) + length vtask) + length (subworlds u).
Proof.
  destruct (run_all_enter_start vtask u) as [Hall Hsws].
  unfold work_left. rewrite Hsws, sum_list_steps_left_polling.
  unfold waiting_count. rewrite filter_all.
  - unfold run_all_enter, store_task_data. cbn [taskq files trace].
    rewrite enroll_0, store_task_data_from_eq. cbn [taskq].
    rewrite !length_fmap, length_app. reflexivity.
  - intros t Ht. rewrite Forall_forall in Hall. apply Hall, Ht.
Qed.

(** [run_all] returns when the subworlds take their steps in turn. *)
Lemma run_all_returns (vtask : list MacroTask) (u : universe_state) :
  (forall t, t ∈ taskq u ++ vtask -> no_result_name (data t)) ->
  exists u',
    run_all (round_robin (length (subworlds u))
               (6 * (length (taskq u) + length vtask) + length (subworlds u)))
      vtask u = Ok u'.
Proof.
  intros Hnames.
  destruct (rounds_ready _ _ [] (run_all_enter_ready vtask u Hnames)
              (Nat.eq_le_incl _ _ (work_left_start vtask u)))
    as (u5 & ev5 & Hloop5 & _ & _ & Hall5).
  destruct (run_all_enter_start vtask u) as [_ Hsws].
  rewrite Hsws, length_replicate in Hloop5.
  exists u5. unfold run_all. rewrite Hloop5, bind_Ok.
  unfold fence_after_loop. rewrite Hall5. reflexivity.
Qed.

(** X6: When every payload holds a function, no two tasks share a file and
    no payload is in a file named like a result, no order of the steps of
    the subworlds makes the loop of [run_all] throw or leave what the
    language defines: every file a subworld reads is there and holds what is
    read from it, and every task number passed to [set_complete] is inside
    the list.  [run_all] and, on a
    queue with a subworld, [map] on the same tasks either return or are
    still at the fence after the loop; and [run_all] returns when the
    subworlds take their steps in turn, six rounds for each task and one for
    each subworld.  (The archive of a function that holds none is not among
    the sources, and the read of a file that another subworld has written
    with no fence of the universe between is not defined; the statement
    leaves both out.) *)
Theorem run_all_never_fails (schedule : list nat) (vtask : list MacroTask)
    (u : universe_state) :
  (forall t, t ∈ taskq u ++ vtask -> is_initialized (data_type.f (data t)) = true) ->
  NoDup (filenames (taskq u ++ vtask)) ->
  (forall t, t ∈ taskq u ++ vtask -> no_result_name (data t)) ->
  (exists u', loop_steps schedule (run_all_enter vtask u) = Ok u') /\
  ((exists u', run_all schedule vtask u = Ok u') \/ run_all schedule vtask u = Blocked) /\
  (forall task1 vdata,
     vtask = MacroTask_of_data <$> vdata -> 0 < length (subworlds u) ->
     (exists vresult u', map schedule task1 vdata u = Ok (vresult, u')) \/
     map schedule task1 vdata u = Blocked) /\
  (exists u',
     run_all (round_robin (length (subworlds u))
                (6 * (length (taskq u) + length vtask) + length (subworlds u)))
       vtask u = Ok u').
Proof.
  intros _ _ Hnames.
  destruct (loop_steps_ready schedule _ [] (run_all_enter_ready vtask u Hnames))
    as (u4 & ev & Hloop & Hready & Hlen & _).
  split; [eauto|]. split; [|split].
  - unfold run_all. rewrite Hloop, bind_Ok. unfold fence_after_loop.
    destruct (forallb has_left (subworlds u4)); eauto.
  - intros task1 vdata -> Hk.
    unfold map, run_all. rewrite Hloop, bind_Ok. unfold fence_after_loop.
    destruct (forallb has_left (subworlds u4)) eqn:Hall; [|right; reflexivity].
    left. rewrite bind_Ok. apply collect_returns. intros i Hi.
    destruct Hready as [Inv _ _ Hres]. simpl in Inv, Hres.
    assert (Hlen4 : length (taskq u4) = length (taskq u) + length vdata).
    { destruct (loop_steps_frame _ _ _ Hloop) as (ev' & Hframe & _).
      rewrite (filenames_length _ _ (frame_filenames _ _ _ Hframe)).
      unfold run_all_enter, store_task_data. simpl. rewrite enroll_0.
      destruct (store_task_data_from 0 _ (files u) (trace u)) as [[tq2 fs2] tr2] eqn:Hstore.
      simpl. destruct (store_task_data_from_spec _ _ _ _ _ _ _ Hstore) as (_ & _ & Hn & _).
      rewrite (filenames_length _ _ Hn), length_fmap, length_app, length_fmap.
      reflexivity. }
    destruct (run_all_enter_start (MacroTask_of_data <$> vdata) u) as [_ Hsws].
    rewrite Hsws, length_replicate in Hlen.
    destruct (lookup_lt_is_Some_2 (taskq u4) i ltac:(lia)) as [t Ht].
    destruct (loop_invariant_finished _ _ _ i t Inv ltac:(lia) Hall Ht) as (_ & sw & Hev).
    apply (Hres sw i).
    assert (Hin : stored_result sw i (result_name i) ∈ steps_on i ev).
    { rewrite Hev. unfold loop_body_events. rewrite !elem_of_cons. auto 10. }
    apply list_elem_of_filter in Hin. tauto.
  - exact (run_all_returns vtask u Hnames).
Qed.

Lemma run_all_never_fails_witness :
  (forall t, t ∈ taskq new_queue ++ (MacroTask_of_data <$> one_input) ->
             is_initialized (data_type.f (data t)) = true) /\
  NoDup (filenames (taskq new_queue ++ (MacroTask_of_data <$> one_input))) /\
  (forall t, t ∈ taskq new_queue ++ (MacroTask_of_data <$> one_input) ->
             no_result_name (data t)) /\
  exists u', loop_steps [0; 0; 0] (run_all_enter (MacroTask_of_data <$> one_input) new_queue) =
             Ok u'.
Proof.
  assert (H0 : forall t, t ∈ taskq new_queue ++ (MacroTask_of_data <$> one_input) ->
                         is_initialized (data_type.f (data t)) = true).
  { intros t Ht. apply list_elem_of_singleton in Ht. subst t. reflexivity. }
  assert (H : forall t, t ∈ taskq new_queue ++ (MacroTask_of_data <$> one_input) ->
                        no_result_name (data t)).
  { intros t Ht. apply list_elem_of_singleton in Ht. subst t.
    apply (dummy_no_result_name _ 0). reflexivity. }
  assert (Hnd : NoDup (filenames (taskq new_queue ++ (MacroTask_of_data <$> one_input))))
    by (apply NoDup_singleton).
  split; [exact H0|]. split; [exact Hnd|]. split; [exact H|].
  exact (proj1 (run_all_never_fails [0; 0; 0] _ new_queue H0 Hnd H)).
Defined.

(** ** The content of the files through the loop *)

Lemma data_alter_with_stat (s : Status) (j : nat) (tq : list MacroTask) :
  data <$> alter (with_stat s) j tq = data <$> tq.
Proof.
  apply list_eq. intros j1. rewrite !list_lookup_fmap.
  destruct (decide (j = j1)) as [<-|Hne].
  - rewrite list_lookup_alter_eq. destruct (tq !! j); reflexivity.
  - rewrite list_lookup_alter_ne by exact Hne. reflexivity.
Qed.

(** No step of the loop touches a payload of the task list of rank 0. *)
Lemma loop_transition_data (sw : nat) (u u' : universe_state) (ev : list event) :
  loop_transition sw u ev u' -> data <$> taskq u' = data <$> taskq u.
Proof.
  intros Htrans. inversion Htrans; subst; simpl; try reflexivity;
    apply data_alter_with_stat.
Qed.

Lemma payload_file_read (fs : gmap string archive_file) (h : Z) (x0 x : data_type.t) :
  data_type_read fs h x0 = Ok x ->
  fs !! data_type.filename x0 = Some (payload_file x) /\
  data_type.filename x = data_type.filename x0.
Proof.
  unfold data_type_read.
  destruct (fs !! data_type.filename x0) as [[d' i' c|?]|]; [|discriminate..].
  intros [= <-]. split; [|reflexivity].
  unfold payload_file. simpl. destruct c; reflexivity.
Qed.

Lemma elem_of_data_filenames (tq : list MacroTask) (x : data_type.t) :
  x ∈ data <$> tq -> data_type.filename x ∈ filenames tq.
Proof.
  intros (t & -> & Ht)%list_elem_of_fmap. apply elem_of_filenames. eauto.
Qed.

Section Content.

Variables (xs : list data_type.t) (fs0 : gmap string archive_file).

(** The file of every payload of the list holds the [d] and the [i] of the
    payload when the loop starts. *)
Hypothesis payloads_stored : forall x, x ∈ xs ->
  exists c, fs0 !! data_type.filename x =
            Some (data_archive (data_type.d x) (data_type.i x) c).

Lemma loop_transition_content (sw : nat) (u : universe_state) (ev : list event)
    (u' : universe_state) (tr : list event) :
  loop_transition sw u ev u' -> loop_content xs fs0 u tr ->
  loop_content xs fs0 u' (tr ++ ev).
Proof.
  intros Htrans [Hready Hdata Hfiles Hsws Hstored].
  pose proof (loop_transition_ready _ _ _ _ _ Htrans Hready) as (Hready' & _ & _).
  pose proof (loop_transition_data _ _ _ _ Htrans) as Hdata'.
  pose proof (ready_invariant _ _ Hready) as Inv.
  assert (Hheld : forall j pc task, subworlds u !! sw = Some (working j pc task) ->
            exists x, xs !! j = Some x /\ x ∈ xs /\
                      data_type.filename (data task) = data_type.filename x).
  { intros j pc task Hsw.
    destruct (inv_held _ _ _ Inv _ _ _ _ Hsw) as (t & Ht & _ & Hname & _).
    exists (data t). rewrite <- Hdata, list_lookup_fmap, Ht.
    split; [reflexivity|]. split; [|exact Hname].
    apply list_elem_of_fmap. exists t. split; [reflexivity|].
    eapply list_elem_of_lookup_2, Ht. }
  assert (Hnores : forall x j, x ∈ xs -> data_type.filename x <> result_name j).
  { intros x j Hx. rewrite <- Hdata in Hx.
    apply list_elem_of_fmap in Hx as (t & -> & Ht).
    apply (ready_names _ _ Hready t Ht). }
  assert (Hins : forall w0 w, subworlds u !! sw = Some w0 -> subworld_content xs fs0 w ->
            forall sw1 w1, <[sw := w]> (subworlds u) !! sw1 = Some w1 ->
                           subworld_content xs fs0 w1).
  { intros w0 w Hsw Hw sw1 w1 H1.
    destruct (lookup_insert_subworld _ _ _ _ _ _ Hsw H1) as [[_ ->]|[_ Hold]];
      [exact Hw|eapply Hsws, Hold]. }
  assert (Hold : forall (fs : gmap string archive_file),
            (forall j, fs !! result_name j = files u !! result_name j) ->
            forall sw1 j, stored_result sw1 j (result_name j) ∈ tr ++ [] ->
              exists x, xs !! j = Some x /\
                fs !! result_name j =
                  Some (function_archive (Some (functor_gaussian (data_type.d x))))).
  { intros fs Hfs sw1 j Hin. rewrite app_nil_r in Hin. rewrite Hfs. eauto. }
  assert (Hnew : forall e, (forall sw1 j, e <> stored_result sw1 j (result_name j)) ->
            forall (fs : gmap string archive_file),
            (forall j, fs !! result_name j = files u !! result_name j) ->
            forall sw1 j, stored_result sw1 j (result_name j) ∈ tr ++ [e] ->
              exists x, xs !! j = Some x /\
                fs !! result_name j =
                  Some (function_archive (Some (functor_gaussian (data_type.d x))))).
  { intros e He fs Hfs sw1 j [Hin|Hin]%elem_of_app.
    - rewrite Hfs. eauto.
    - apply list_elem_of_singleton in Hin. destruct (He _ _ (eq_sym Hin)). }
  inversion Htrans as
    [Hsw|Hsw Hnone|j t Hsw Ht Hst Hmin|j task x Hsw Hx|j task Hsw|j task Hsw Hj
    |j task Hsw|j task Hsw]; subst u'; subst ev;
    (split; [exact Hready'|exact (eq_trans Hdata' Hdata)|..]); cbn [files subworlds].
  - exact Hfiles.
  - exact Hsws.
  - apply Hold. reflexivity.
  - exact Hfiles.
  - eapply Hins; [exact Hsw|exact I].
  - apply Hold. reflexivity.
  - exact Hfiles.
  - eapply Hins; [exact Hsw|]. simpl. split; discriminate.
  - apply Hnew; [discriminate|reflexivity].
  - exact Hfiles.
  - eapply Hins; [exact Hsw|]. simpl. split; [intros _|discriminate].
    destruct (Hheld _ _ _ Hsw) as (x0 & _ & Hx0 & Hname).
    destruct (payload_file_read _ _ _ _ Hx) as [Hfile Hname'].
    rewrite Hname'. rewrite Hname in Hfile |- *. rewrite <- (Hfiles _ Hx0). exact Hfile.
  - apply Hnew; [discriminate|reflexivity].
  - exact Hfiles.
  - eapply Hins; [exact Hsw|].
    pose proof (Hsws _ _ Hsw) as [Hloaded _]. specialize (Hloaded eq_refl).
    simpl. split; [intros _; exact Hloaded|intros _].
    destruct (Hheld _ _ _ Hsw) as (x0 & Hj0 & Hx0 & Hname).
    exists x0, (next_handle u). split; [exact Hj0|].
    unfold run, with_result. simpl. do 3 f_equal.
    destruct (payloads_stored _ Hx0) as (c & Hc).
    rewrite Hname, Hc in Hloaded. injection Hloaded as -> _ _. reflexivity.
  - apply Hnew; [discriminate|reflexivity].
  - exact Hfiles.
  - eapply Hins; [exact Hsw|]. pose proof (Hsws _ _ Hsw) as [Hloaded Hres].
    simpl. split; intros _; auto.
  - apply Hnew; [discriminate|reflexivity].
  - intros x Hx. pose proof (Hsws _ _ Hsw) as [Hloaded _]. specialize (Hloaded eq_refl).
    destruct (decide (data_type.filename (data task) = data_type.filename x)) as [Heq|Hne].
    + rewrite Heq, lookup_insert_eq. rewrite <- Heq. symmetry. exact Hloaded.
    + rewrite lookup_insert_ne by exact Hne. apply Hfiles, Hx.
  - eapply Hins; [exact Hsw|]. pose proof (Hsws _ _ Hsw) as [_ Hres].
    simpl. split; [discriminate|intros _; auto].
  - apply Hnew; [discriminate|]. intros j1.
    destruct (Hheld _ _ _ Hsw) as (x0 & _ & Hx0 & Hname).
    apply lookup_insert_ne. rewrite Hname. apply Hnores, Hx0.
  - intros x Hx. rewrite lookup_insert_ne by (apply not_eq_sym, Hnores, Hx).
    apply Hfiles, Hx.
  - eapply Hins; [exact Hsw|]. exact I.
  - intros sw1 j1 Hin. pose proof (Hsws _ _ Hsw) as [_ Hres].
    destruct (Hres eq_refl) as (x0 & h & Hj0 & Hr).
    destruct (decide (j1 = j)) as [->|Hne].
    + exists x0. split; [exact Hj0|]. rewrite lookup_insert_eq, Hr. reflexivity.
    + rewrite lookup_insert_ne by (intros Heq; apply Hne; symmetry;
                                   apply result_name_inj, Heq).
      apply elem_of_app in Hin as [Hin|Hin]; [eauto|].
      apply list_elem_of_singleton in Hin. congruence.
Qed.

Lemma loop_steps_content (schedule : list nat) (u u' : universe_state) (tr : list event) :
  loop_steps schedule u = Ok u' -> loop_content xs fs0 u tr ->
  exists ev, trace u' = trace u ++ ev /\ loop_content xs fs0 u' (tr ++ ev).
Proof. apply (loop_steps_induction _ loop_transition_content). Qed.

End Content.
(** ** What [run_all] and [map] leave in the files *)

(** The state in which [run_all] enters its loop: the payloads of the list
    with their functions cleared, and the file of every payload holding the
    payload, when no two tasks share a file. *)
Lemma run_all_enter_content (vtask : list MacroTask) (u : universe_state) :
  (forall t, t ∈ taskq u ++ vtask -> no_result_name (data t)) ->
  NoDup (filenames (taskq u ++ vtask)) ->
  data <$> taskq (run_all_enter vtask u) =
    (fun t => with_f None (data t)) <$> (taskq u ++ vtask) /\
  (forall t, t ∈ taskq u ++ vtask ->
     files (run_all_enter vtask u) !! data_type.filename (data t) =
     Some (payload_file (data t))) /\
  loop_content (data <$> taskq (run_all_enter vtask u)) (files (run_all_enter vtask u))
    (run_all_enter vtask u) [].
Proof.
  intros Hnames Hnd.
  pose proof (run_all_enter_ready vtask u Hnames) as Hready.
  destruct (run_all_enter_start vtask u) as [_ Hsws].
  revert Hready Hsws. unfold run_all_enter, store_task_data. cbn [taskq files trace].
  rewrite enroll_0, store_task_data_from_eq. cbn [taskq files trace subworlds next_handle].
  intros Hready Hsws.
  split; [rewrite <- !list_fmap_compose; reflexivity|].
  split.
  - intros t Ht.
    assert (Hin : set_waiting t ∈ set_waiting <$> (taskq u ++ vtask))
      by (apply list_elem_of_fmap; eauto).
    apply (store_all_lookup_NoDup _ (files u) (set_waiting t)); [|exact Hin].
    rewrite filenames_set_waiting. exact Hnd.
  - split; [exact Hready|reflexivity|reflexivity|..]; cbn [subworlds].
    + intros sw w [-> _]%lookup_replicate. exact I.
    + intros sw j H. inversion H.
Qed.

(** The loop of a call of [run_all], from its start to a state it comes
    to, with what it keeps of the content of the files. *)
Lemma run_all_loop_content (schedule : list nat) (vtask : list MacroTask)
    (u u4 : universe_state) :
  (forall t, t ∈ taskq u ++ vtask -> no_result_name (data t)) ->
  NoDup (filenames (taskq u ++ vtask)) ->
  loop_steps schedule (run_all_enter vtask u) = Ok u4 ->
  exists ev,
    trace u4 = trace (run_all_enter vtask u) ++ ev /\
    loop_content ((fun t => with_f None (data t)) <$> (taskq u ++ vtask))
      (files (run_all_enter vtask u)) u4 ev.
Proof.
  intros Hnames Hnd Hloop.
  destruct (run_all_enter_content vtask u Hnames Hnd) as (Hxs & Hfs & Hcontent).
  rewrite Hxs in Hcontent.
  apply (loop_steps_content _ _) with (schedule := schedule) (tr := []);
    [|exact Hloop|exact Hcontent].
  intros x (t & -> & Ht)%list_elem_of_fmap.
  change (data_type.filename (with_f None (data t))) with (data_type.filename (data t)).
  rewrite (Hfs t Ht). unfold payload_file. simpl. eauto.
Qed.

(** Once every subworld has left the loop, the result file of every task
    holds the projection of [gaussian(d)] for the [d] of the payload. *)
Lemma result_files_content (xs : list data_type.t) (fs0 : gmap string archive_file)
    (u : universe_state) (ev : list event) (j : nat) (x : data_type.t) :
  loop_content xs fs0 u ev -> 0 < length (subworlds u) ->
  forallb has_left (subworlds u) = true -> xs !! j = Some x ->
  files u !! result_name j =
    Some (function_archive (Some (functor_gaussian (data_type.d x)))).
Proof.
  intros [Hready Hdata _ _ Hstored] Hk Hall Hj.
  assert (Ht : exists t, taskq u !! j = Some t).
  { rewrite <- Hdata, list_lookup_fmap in Hj.
    destruct (taskq u !! j) as [t|]; [eauto|discriminate]. }
  destruct Ht as (t & Ht).
  destruct (loop_invariant_finished _ _ _ j t (ready_invariant _ _ Hready) Hk Hall Ht)
    as (_ & sw & Hev).
  assert (Hin : stored_result sw j (result_name j) ∈ steps_on j ev).
  { rewrite Hev. unfold loop_body_events. rewrite !elem_of_cons. auto 10. }
  apply list_elem_of_filter in Hin. destruct Hin as [_ Hin].
  destruct (Hstored _ _ Hin) as (x' & Hx' & Hfile). congruence.
Qed.



(** The second loop of [map] reads the result files in the order of the
    task numbers and changes no file. *)
Lemma collect_results (c : nat -> option coefficients) (first n i : nat)
    (u u' : universe_state) (vresult : list Function) :
  (forall i', i <= i' < i + n -> files u !! result_name i' = Some (function_archive (c i'))) ->
  collect first i n u = Ok (vresult, u') ->
  (fun r : Function => coeffs <$> r) <$> vresult = c <$> seq i n.
Proof.
  revert i u u' vresult. induction n as [|n IH]; intros i u u' vresult Hfiles; simpl.
  - intros [= <- <-]. reflexivity.
  - unfold function_read. rewrite (Hfiles i) by lia. rewrite bind_Ok.
    destruct (collect first (S i) n _) as [[v u1]| | |] eqn:Hrec; try discriminate.
    rewrite bind_Ok. intros [= <- <-]. rewrite fmap_cons. f_equal.
    + destruct (c i); reflexivity.
    + eapply IH; [|exact Hrec]. simpl. intros i' Hi'. apply Hfiles. lia.
Qed.

(** What [map] returns, position by position: the function at position
    [i] has the coefficients found in the file [result_of_task<i>], those of
    the task at position [i] of the whole list. *)
Lemma map_results_by_position (schedule : list nat) (task1 : MacroTask)
    (vdata : list data_type.t) (u u' : universe_state) (vresult : list Function) :
  0 < length (subworlds u) ->
  (forall t, t ∈ taskq u -> no_result_name (data t)) ->
  Forall no_result_name vdata ->
  NoDup (filenames (taskq u) ++ (data_type.filename <$> vdata)) ->
  map schedule task1 vdata u = Ok (vresult, u') ->
  (fun r : Function => coeffs <$> r) <$> vresult =
  (fun j => (fun x => functor_gaussian (data_type.d x)) <$>
            ((data <$> taskq u) ++ vdata) !! j) <$> seq 0 (length vdata).
Proof.
  intros Hk Hold Hnew Hnd. unfold map, run_all.
  set (vtask := MacroTask_of_data <$> vdata).
  assert (Hnames : forall t, t ∈ taskq u ++ vtask -> no_result_name (data t)).
  { intros t [Ht|Ht]%elem_of_app; [apply Hold, Ht|].
    apply list_elem_of_fmap in Ht as (x & -> & Hx).
    rewrite Forall_forall in Hnew. apply (Hnew x Hx). }
  assert (Hnd' : NoDup (filenames (taskq u ++ vtask))).
  { unfold filenames, vtask. rewrite fmap_app, <- list_fmap_compose. exact Hnd. }
  destruct (loop_steps schedule (run_all_enter vtask u)) as [u4| | |] eqn:Hloop;
    try discriminate.
  rewrite bind_Ok. unfold fence_after_loop.
  destruct (forallb has_left (subworlds u4)) eqn:Hall; [|discriminate].
  rewrite bind_Ok. intros Hcol.
  destruct (run_all_loop_content _ _ _ _ Hnames Hnd' Hloop) as (ev & _ & Hcontent).
  assert (Hk4 : 0 < length (subworlds u4)).
  { destruct (loop_steps_frame _ _ _ Hloop) as (ev' & Hframe & _).
    destruct (run_all_enter_start vtask u) as [_ Hsws].
    rewrite (frame_subworlds _ _ _ Hframe), Hsws, length_replicate. exact Hk. }
  eapply collect_results; [|exact Hcol].
  intros j Hj. simpl in Hj.
  assert (Hlt : j < length ((data <$> taskq u) ++ vdata))
    by (rewrite length_app; lia).
  destruct (lookup_lt_is_Some_2 _ _ Hlt) as [x Hx]. rewrite Hx. simpl.
  apply (result_files_content _ _ _ _ j (with_f None x) Hcontent Hk4 Hall).
  assert (Hdata : data <$> (taskq u ++ vtask) = (data <$> taskq u) ++ vdata).
  { unfold vtask. rewrite fmap_app, <- list_fmap_compose. f_equal. apply list_fmap_id. }
  rewrite (list_fmap_compose data (with_f None)), Hdata, list_lookup_fmap, Hx.
  reflexivity.
Qed.
Lemma gaussians_of_inputs (vdata : list data_type.t) :
  (fun j => (fun x => functor_gaussian (data_type.d x)) <$> vdata !! j) <$>
    seq 0 (length vdata) =
  (fun x => Some (functor_gaussian (data_type.d x))) <$> vdata.
Proof.
  apply list_eq. intros j. rewrite !list_lookup_fmap.
  destruct (decide (j < length vdata)) as [Hj|Hj].
  - rewrite lookup_seq_lt by exact Hj.
    destruct (lookup_lt_is_Some_2 _ _ Hj) as [x Hx]. simpl. rewrite Hx. reflexivity.
  - rewrite lookup_seq_ge by lia. rewrite lookup_ge_None_2 by lia. reflexivity.
Qed.

(** X8: What [map] returns, for inputs and tasks in distinct files not named
    like a result: as many functions as inputs, and at position [i] the
    projection of [gaussian(d)] for the [d] of the task at position [i] of
    the whole task list, read back from the file [result_of_task<i>].  On a
    queue that held no task this is the input at position [i]: [map] returns
    the gaussians of its inputs in their order.  On a queue that held tasks
    before, the first positions are the results of those tasks, not of the
    inputs. *)
Theorem map_results (schedule : list nat) (task1 : MacroTask)
    (vdata : list data_type.t) (u u' : universe_state) (vresult : list Function) :
  0 < length (subworlds u) ->
  (forall t, t ∈ taskq u -> no_result_name (data t)) ->
  Forall no_result_name vdata ->
  NoDup (filenames (taskq u) ++ (data_type.filename <$> vdata)) ->
  map schedule task1 vdata u = Ok (vresult, u') ->
  length vresult = length vdata /\
  (forall i x, i < length vdata -> ((data <$> taskq u) ++ vdata) !! i = Some x ->
     exists h, vresult !! i = Some (Some (mkImpl h (functor_gaussian (data_type.d x))))) /\
  (taskq u = [] ->
   (fun r : Function => coeffs <$> r) <$> vresult =
   (fun x => Some (functor_gaussian (data_type.d x))) <$> vdata).
Proof.
  intros Hk Hold Hnew Hnd Hmap.
  pose proof (map_results_by_position _ _ _ _ _ _ Hk Hold Hnew Hnd Hmap) as H.
  split; [|split].
  - apply (f_equal length) in H. rewrite !length_fmap, length_seq in H. exact H.
  - intros i x Hi Hx.
    apply (f_equal (fun l => l !! i)) in H.
    rewrite !list_lookup_fmap, lookup_seq_lt in H by exact Hi. simpl in H.
    rewrite Hx in H. simpl in H.
    destruct (vresult !! i) as [[[h c]|]|]; simpl in H; try discriminate.
    injection H as ->. eauto.
  - intros Hq. rewrite H, Hq. apply gaussians_of_inputs.
Qed.

Lemma map_results_witness :
  exists vresult u',
    map seven_steps (task_with 0 Unknown 0) one_input new_queue = Ok (vresult, u') /\
    (fun r : Function => coeffs <$> r) <$> vresult = [Some (functor_gaussian 0)].
Proof.
  assert (H1 : 0 < length (subworlds new_queue)) by (simpl; lia).
  assert (H2 : forall t, t ∈ taskq new_queue -> no_result_name (data t))
    by (intros t Ht; inversion Ht).
  assert (H3 : Forall no_result_name one_input).
  { repeat constructor. apply (dummy_no_result_name _ 0). reflexivity. }
  assert (H4 : NoDup (filenames (taskq new_queue) ++ (data_type.filename <$> one_input)))
    by (apply NoDup_singleton).
  destruct (map seven_steps (task_with 0 Unknown 0) one_input new_queue)
    as [[vresult u']| | |] eqn:Hmap; [|vm_compute in Hmap; discriminate..].
  exists vresult, u'. split; [reflexivity|].
  exact (proj2 (proj2 (map_results _ _ _ _ _ _ H1 H2 H3 H4 Hmap)) eq_refl).
Defined.

(** ** A new queue *)

(** X9: The constructor and [map] together, on a universe of [N] ranks with
    [1 <= k <= N] subworlds: the constructor returns a queue with no task,
    [k] subworlds and the files as they are; on that queue [map] returns for
    a schedule of the subworlds, and whenever it returns it gives the
    gaussians of the inputs in their order and has removed no file.  The
    inputs hold a function each and are in distinct files not named like a
    result. *)
Theorem new_queue_map (N k : nat) (fs : gmap string archive_file) (h : Z)
    (task1 : MacroTask) (vdata : list data_type.t) :
  1 <= k -> k <= N ->
  Forall (fun x => is_initialized (data_type.f x) = true) vdata ->
  Forall no_result_name vdata ->
  NoDup (data_type.filename <$> vdata) ->
  macro_taskq N k fs h = Ok (mkUniverse [] fs [] (replicate k polling) h) /\
  (exists schedule vresult u',
     map schedule task1 vdata (mkUniverse [] fs [] (replicate k polling) h) =
       Ok (vresult, u')) /\
  (forall schedule vresult u',
     map schedule task1 vdata (mkUniverse [] fs [] (replicate k polling) h) =
       Ok (vresult, u') ->
     (fun r : Function => coeffs <$> r) <$> vresult =
       (fun x => Some (functor_gaussian (data_type.d x))) <$> vdata /\
     length (taskq u') = length vdata /\
     (forall name, is_Some (fs !! name) -> is_Some (files u' !! name))).
Proof.
  intros Hk HkN _ Hnew Hnd.
  set (q := mkUniverse [] fs [] (replicate k polling) h).
  assert (H1 : 0 < length (subworlds q)) by (simpl; rewrite length_replicate; lia).
  assert (H2 : forall t, t ∈ taskq q -> no_result_name (data t))
    by (intros t Ht; inversion Ht).
  split; [|split].
  - unfold macro_taskq. rewrite (create_worlds_returns N k Hk 0) by lia. reflexivity.
  - eexists. apply (map_returns task1 vdata q H1 H2 Hnew).
  - intros schedule vresult u' Hmap.
    pose proof (map_results_by_position _ _ _ _ _ _ H1 H2 Hnew Hnd Hmap) as H.
    split; [rewrite H; apply gaussians_of_inputs|].
    revert Hmap. unfold map.
    destruct (run_all schedule (MacroTask_of_data <$> vdata) q) as [ur| | |] eqn:Hrun;
      try discriminate.
    rewrite bind_Ok. intros Hcol.
    destruct (run_all_spec _ _ _ _ H1 Hrun) as (_ & _ & _ & Hn & _ & Hf & _).
    destruct (collect_spec _ _ _ _ _ _ Hcol) as (_ & Hfiles & _ & Hframe).
    split.
    + rewrite (filenames_length _ _ (frame_filenames _ _ _ Hframe)).
      rewrite (filenames_length _ _ Hn). simpl. apply length_fmap.
    + intros name Hname. rewrite Hfiles. apply Hf, Hname.
Qed.

Lemma new_queue_map_witness :
  1 <= 1 /\ 1 <= 1 /\
  Forall (fun x => is_initialized (data_type.f x) = true) one_input /\
  Forall no_result_name one_input /\
  NoDup (data_type.filename <$> one_input) /\
  macro_taskq 1 1 ∅ 0 = Ok new_queue.
Proof.
  assert (H1 : 1 <= 1) by lia.
  assert (H3 : Forall no_result_name one_input).
  { repeat constructor. apply (dummy_no_result_name _ 0). reflexivity. }
  assert (H4 : NoDup (data_type.filename <$> one_input)) by (apply NoDup_singleton).
  assert (H2 : Forall (fun x => is_initialized (data_type.f x) = true) one_input)
    by (repeat constructor).
  split; [exact H1|]. split; [exact H1|]. split; [exact H2|]. split; [exact H3|].
  split; [exact H4|].
  exact (proj1 (new_queue_map 1 1 ∅ 0 (task_with 0 Unknown 0) one_input H1 H1 H2 H3 H4)).
Defined.
(** ** The ranks inside a subworld *)

Lemma length_by_lookup {A : Type} (l : list A) (n : nat) :
  l !! n = None -> (forall q, q < n -> is_Some (l !! q)) -> length l = n.
Proof.
  intros Hn Hq. apply lookup_ge_None in Hn.
  destruct (decide (length l = n)) as [|Hne]; [assumption|].
  destruct (Hq (length l) ltac:(lia)) as [x Hx].
  apply lookup_lt_Some in Hx. lia.
Qed.

(** [process_list[j]] holds the ranks [j], [j + k], [j + 2k], ... below [m],
    in this order. *)
Lemma process_group_lookup (k m j q : nat) :
  1 <= k -> j < k ->
  process_group k m j !! q =
  if decide (j + q * k < m) then Some (j + q * k) else None.
Proof.
  intros Hk Hj. revert q. induction m as [|m IH]; intros q.
  - rewrite decide_False by lia. reflexivity.
  - rewrite process_group_S.
    destruct (decide (m mod k = j)) as [Hmod|Hmod].
    + pose proof (Nat.div_mod_eq m k) as Hdm.
      assert (Hlen : length (process_group k m j) = m / k).
      { apply length_by_lookup.
        - rewrite IH, decide_False; [reflexivity|nia].
        - intros q' Hq'. rewrite IH, decide_True; [eauto|nia]. }
      destruct (Nat.lt_total q (m / k)) as [Hlt|[->|Hgt]].
      * rewrite lookup_app_l by lia. rewrite IH.
        rewrite decide_True by nia. rewrite decide_True by nia. reflexivity.
      * rewrite lookup_app_r by lia. rewrite Hlen, Nat.sub_diag. simpl.
        rewrite decide_True by nia. f_equal. nia.
      * rewrite lookup_ge_None_2 by (rewrite length_app; simpl; lia).
        rewrite decide_False by nia. reflexivity.
    + rewrite app_nil_r, IH.
      assert (Hne : j + q * k <> m).
      { intros <-. apply Hmod. rewrite Nat.Div0.mod_add. apply Nat.mod_small, Hj. }
      destruct (decide (j + q * k < m)).
      * rewrite decide_True by lia. reflexivity.
      * rewrite decide_False by lia. reflexivity.
Qed.

(** X10: The world [create_worlds] gives rank [r] in a universe of [N] ranks
    with [1 <= k <= N] subworlds lists the ranks [r mod k], [r mod k + k],
    [r mod k + 2k], ... below [N] in this order, the order in which they are
    passed to [Incl]: the rank of [r] in its subworld is [r / k], rank 0 of
    the subworld is universe rank [r mod k], so the first [k] ranks of the
    universe are the ranks 0 of the subworlds, and universe rank 0 is rank 0
    of its subworld.  The subworld has [N / k] ranks and one more when
    [r mod k < N mod k]: the sizes of two subworlds differ by one at most. *)
Theorem subworld_ranks (N k r : nat) :
  1 <= k -> k <= N -> r < N ->
  create_worlds N r k = Ok (Some (round_robin_world N k r)) /\
  (forall q, round_robin_world N k r !! q =
             if decide (r mod k + q * k < N) then Some (r mod k + q * k) else None) /\
  round_robin_world N k r !! (r / k) = Some r /\
  round_robin_world N k r !! 0 = Some (r mod k) /\
  length (round_robin_world N k r) =
    N / k + (if decide (r mod k < N mod k) then 1 else 0) /\
  (forall r2, r2 < N ->
     length (round_robin_world N k r2) <= length (round_robin_world N k r) + 1).
Proof.
  intros Hk HkN Hr.
  assert (Hlookup : forall r' q, round_robin_world N k r' !! q =
            if decide (r' mod k + q * k < N) then Some (r' mod k + q * k) else None).
  { intros r' q. apply process_group_lookup; [exact Hk|].
    apply Nat.mod_upper_bound. lia. }
  assert (Hlen : forall r', length (round_robin_world N k r') =
            N / k + (if decide (r' mod k < N mod k) then 1 else 0)).
  { intros r'.
    pose proof (Nat.div_mod_eq N k) as HN.
    pose proof (Nat.mod_upper_bound N k ltac:(lia)) as HNk.
    pose proof (Nat.mod_upper_bound r' k ltac:(lia)) as Hr'k.
    apply length_by_lookup.
    - rewrite Hlookup, decide_False; [reflexivity|].
      destruct (decide (r' mod k < N mod k)); nia.
    - intros q Hq. rewrite Hlookup, decide_True; [eauto|].
      destruct (decide (r' mod k < N mod k)); nia. }
  pose proof (Nat.div_mod_eq r k) as Hdm.
  pose proof (Nat.mod_upper_bound r k ltac:(lia)) as Hrk.
  split; [apply create_worlds_returns; assumption|].
  split; [apply Hlookup|].
  split; [rewrite Hlookup, decide_True by nia; f_equal; nia|].
  split; [rewrite Hlookup, decide_True by nia; f_equal; lia|].
  split; [apply Hlen|].
  intros r2 _. rewrite !Hlen.
  destruct (decide (r2 mod k < N mod k)), (decide (r mod k < N mod k)); lia.
Qed.

Lemma subworld_ranks_witness :
  1 <= 3 /\ 3 <= 8 /\ 4 < 8 /\
  create_worlds 8 4 3 = Ok (Some (round_robin_world 8 3 4)) /\
  round_robin_world 8 3 4 = [1; 4; 7] /\
  round_robin_world 8 3 4 !! (4 / 3) = Some 4.
Proof.
  assert (H1 : 1 <= 3) by lia. assert (H2 : 3 <= 8) by lia. assert (H3 : 4 < 8) by lia.
  split; [exact H1|]. split; [exact H2|]. split; [exact H3|].
  destruct (subworld_ranks 8 3 4 H1 H2 H3) as (Hc & _ & Hpos & _).
  split; [exact Hc|]. split; [reflexivity|exact Hpos].
Defined.
(** ** The stream of a payload *)

Lemma store_bytes_bytes (n : nat) (v : Z) :
  Forall (fun b => 0 <= b < 256)%Z (store_bytes n v).
Proof.
  revert v. induction n as [|n IH]; intros v; simpl; constructor; [|apply IH].
  change 255%Z with (Z.ones 8). rewrite Z.land_ones by lia.
  apply Z.mod_pos_bound. lia.
Qed.

(** X11: [data_type::serialize] writes 13 bytes for a payload without a
    function and 21 for one with a function, each below 256.  Read into an
    object [x0], the stream gives [i] and [d] of the payload that was
    written; the file name of [x0] stays, and so does the function of [x0]
    when the stream carries none: [f] is set when the stream has one and is
    not cleared otherwise. *)
Theorem data_type_serialize_onto (implementation_at : Z -> coefficients)
    (x0 x : data_type.t) (rest : list Z) :
  representable x ->
  length (data_type_store x) = (if is_initialized (data_type.f x) then 21 else 13) /\
  Forall (fun b => 0 <= b < 256)%Z (data_type_store x) /\
  data_type_load implementation_at x0 (data_type_store x ++ rest) =
    Ok ({| data_type.d := data_type.d x; data_type.i := data_type.i x;
           data_type.f := match data_type.f x with
                          | Some impl => Some (found_behind implementation_at impl)
                          | None => data_type.f x0
                          end;
           data_type.filename := data_type.filename x0 |}, rest).
Proof.
  intros (Hi & Hd & Hf). split; [|split].
  - unfold data_type_store, store_int, store_double, store_pointer, store_bool.
    rewrite !length_app, !length_store_bytes.
    destruct (data_type.f x); simpl; rewrite ?length_store_bytes; reflexivity.
  - unfold data_type_store, store_int, store_double, store_pointer, store_bool.
    repeat apply Forall_app_2; try apply store_bytes_bytes.
    + destruct (is_initialized (data_type.f x)); repeat constructor; lia.
    + destruct (data_type.f x); [apply store_bytes_bytes|constructor].
  - unfold data_type_load, data_type_store.
    rewrite <- !app_assoc.
    rewrite load_store_int by exact Hi. rewrite bind_Ok.
    rewrite load_store_double by exact Hd. rewrite bind_Ok.
    rewrite load_store_bool. rewrite bind_Ok.
    destruct (data_type.f x) as [impl|]; cbn [is_initialized].
    + rewrite load_store_pointer by exact Hf. reflexivity.
    + reflexivity.
Qed.

Lemma data_type_serialize_onto_witness :
  representable (with_f None (data running_task)) /\
  data_type_load (fun _ => add_scalar 3) (data running_task)
    (data_type_store (with_f None (data running_task))) =
  Ok (data running_task, []).
Proof.
  assert (Hr : representable (with_f None (data running_task)))
    by (unfold representable; simpl; lia).
  split; [exact Hr|].
  pose proof (proj2 (proj2 (data_type_serialize_onto (fun _ => add_scalar 3)
                              (data running_task) _ [] Hr))) as H.
  rewrite app_nil_r in H. exact H.
Defined.

(** ** A stream that ends early *)

Lemma archive_load_take (k n : nat) (v : Z) (rest : list Z) :
  archive_load k (take n (store_bytes k v ++ rest)) =
  if n <? k then Thrown "BufferInputArchive: not enough data"
  else Ok ((v mod 2 ^ (8 * Z.of_nat k))%Z, take (n - k) rest).
Proof.
  destruct (Nat.ltb_spec n k) as [Hlt|Hge].
  - unfold archive_load.
    destruct (Nat.ltb_spec (length (take n (store_bytes k v ++ rest))) k) as [_|H];
      [reflexivity|].
    rewrite length_take in H. lia.
  - rewrite take_app, length_store_bytes.
    rewrite take_ge by (rewrite length_store_bytes; lia).
    apply archive_load_store_bytes.
Qed.

Lemma load_bool_take (b : bool) (n : nat) (rest : list Z) :
  load_bool (take n (store_bool b ++ rest)) =
  if n <? 1 then Thrown "BufferInputArchive: not enough data"
  else Ok (b, take (n - 1) rest).
Proof.
  destruct n as [|n]; [reflexivity|].
  simpl. rewrite Nat.sub_0_r. destruct b; reflexivity.
Qed.

(** X12: A stream that ends early gives no task: on every proper beginning of
    the stream of a task pointer, null or not, [load] throws for want of
    data; it returns no task and leaves nothing to what the language
    defines. *)
Theorem load_truncated (address : Z) (implementation_at : Z -> coefficients)
    (ii n : nat) (mtb_ptr : option MacroTask) :
  (0 <= address < 2 ^ 64)%Z ->
  n < length (store address mtb_ptr) ->
  load address implementation_at ii (take n (store address mtb_ptr)) =
    Thrown "BufferInputArchive: not enough data".
Proof.
  intros Haddr. destruct mtb_ptr as [t|].
  - unfold store, MacroTask_store, data_type_store, load.
    rewrite bool_decide_eq_true_2 by eauto.
    unfold store_pointer, store_int, store_double.
    rewrite !length_app, !length_store_bytes. cbn [store_bool length].
    intros Hn.
    change [1%Z] with (store_bool true). rewrite load_bool_take.
    destruct (Nat.ltb_spec n 1); [reflexivity|]. rewrite bind_Ok.
    unfold load_pointer. rewrite archive_load_take.
    destruct (Nat.ltb_spec (n - 1) 8); [reflexivity|]. rewrite bind_Ok.
    change (2 ^ (8 * Z.of_nat 8))%Z with (2 ^ 64)%Z.
    rewrite Z.mod_small, Z.eqb_refl by exact Haddr.
    unfold allocate_and_deserialize, data_type_default, data_type_load.
    unfold load_int. rewrite archive_load_take.
    destruct (Nat.ltb_spec (n - 1 - 8) 4); [reflexivity|]. rewrite !bind_Ok.
    unfold load_double. rewrite archive_load_take.
    destruct (Nat.ltb_spec (n - 1 - 8 - 4) 8); [reflexivity|]. rewrite !bind_Ok.
    rewrite load_bool_take.
    destruct (Nat.ltb_spec (n - 1 - 8 - 4 - 8) 1) as [|Hge]; [reflexivity|].
    rewrite !bind_Ok.
    destruct (data_type.f (data t)) as [impl|]; cbn [is_initialized length] in *.
    + unfold load_pointer.
      rewrite <- (app_nil_r (store_bytes 8 (handle impl))), archive_load_take.
      rewrite length_store_bytes in Hn.
      destruct (Nat.ltb_spec (n - 1 - 8 - 4 - 8 - 1) 8); [reflexivity|lia].
    + simpl in Hn. lia.
  - simpl. intros Hn. destruct n as [|n]; [reflexivity|lia].
Qed.

Lemma load_truncated_witness :
  (0 <= 4198400 < 2 ^ 64)%Z /\
  29 < length (store 4198400 (Some running_task)) /\
  load 4198400 (fun _ => add_scalar 3) 7 (take 29 (store 4198400 (Some running_task))) =
    Thrown "BufferInputArchive: not enough data".
Proof.
  assert (Ha : (0 <= 4198400 < 2 ^ 64)%Z) by lia.
  assert (Hn : 29 < length (store 4198400 (Some running_task))) by (simpl; lia).
  split; [exact Ha|]. split; [exact Hn|].
  exact (load_truncated 4198400 (fun _ => add_scalar 3) 7 29 (Some running_task) Ha Hn).
Defined.
(** ** The two [localize] *)

(** X13: [localize] of a function: when the function is initialized and bound
    to the origin, the call returns the same coefficients under a new
    handle; a call that returns has removed the file [filename+id], also
    when the file was there before the call, and has changed no other file
    and no task; when nothing is saved the call reads what it finds under
    the name, and throws when there is no such file. *)
Theorem localize_moves (bound_to_origin : bool) (data : Function) (id : nat)
    (filename : string) (u : universe_state) :
  (forall impl,
     data = Some impl -> bound_to_origin = true ->
     exists u', localize bound_to_origin data id filename u =
                  Ok (Some (mkImpl (next_handle u) (coeffs impl)), u')) /\
  (forall r u',
     localize bound_to_origin data id filename u = Ok (r, u') ->
     files u' = delete (filename +:+ to_string id) (files u) /\
     files u' !! (filename +:+ to_string id) = None /\
     taskq u' = taskq u /\
     exists ev, trace u' = trace u ++ ev /\
       accesses ev = (if (is_initialized data && bound_to_origin)%bool
                      then [Write (filename +:+ to_string id)] else []) ++
                     [Read (filename +:+ to_string id);
                      Remove (filename +:+ to_string id)]) /\
  ((is_initialized data && bound_to_origin)%bool = false ->
   match files u !! (filename +:+ to_string id) with
   | Some (function_archive c) =>
       exists u', localize bound_to_origin data id filename u =
                    Ok (mkImpl (next_handle u) <$> c, u')
   | Some (data_archive _ _ _) =>
       localize bound_to_origin data id filename u =
         Thrown "ParallelInputArchive: type mismatch"
   | None =>
       localize bound_to_origin data id filename u =
         Thrown "ParallelInputArchive: no such file"
   end).
Proof.
  split; [|split].
  - intros impl -> ->. unfold localize. simpl.
    unfold function_read. rewrite lookup_insert_eq. rewrite bind_Ok. eauto.
  - intros r u'. unfold localize.
    destruct (function_read _ _ _) as [r'| | |]; try discriminate.
    rewrite bind_Ok. intros [= <- <-]. simpl.
    destruct (is_initialized data && bound_to_origin)%bool.
    + split; [apply delete_insert_eq|]. split; [apply lookup_delete_eq|].
      split; [reflexivity|]. eexists. rewrite <- app_assoc. split; reflexivity.
    + split; [reflexivity|]. split; [apply lookup_delete_eq|].
      split; [reflexivity|]. eexists. split; reflexivity.
  - intros Hno. unfold localize. rewrite Hno. unfold function_read.
    destruct (files u !! (filename +:+ to_string id)) as [[? ? ?|c]|];
      try reflexivity.
    rewrite bind_Ok. eauto.
Qed.

(** X14: [localize] of a payload writes the payload to its file and reads it
    back: the call returns for every payload, with [d], [i], the file name
    and the coefficients of the function as they were and the function
    under the handle [h]; the file stays, and a second [localize] of what
    was returned leaves the files as they are.  The payload holds a
    function. *)
Theorem localize_data_round_trip (x : data_type.t) (fs : gmap string archive_file)
    (h h' : Z) :
  is_initialized (data_type.f x) = true ->
  exists x' fs',
    localize_data x fs h = Ok (x', fs') /\
    data_type.d x' = data_type.d x /\ data_type.i x' = data_type.i x /\
    data_type.filename x' = data_type.filename x /\
    data_type.f x' = mkImpl h <$> (coeffs <$> data_type.f x) /\
    fs' !! data_type.filename x =
      Some (data_archive (data_type.d x) (data_type.i x) (coeffs <$> data_type.f x)) /\
    (forall name, name <> data_type.filename x -> fs' !! name = fs !! name) /\
    exists x'', localize_data x' fs' h' = Ok (x'', fs') /\
                data_type.f x'' = mkImpl h' <$> (coeffs <$> data_type.f x).
Proof.
  intros _. unfold localize_data, store_and_clear, data_type_read. simpl.
  rewrite lookup_insert_eq. rewrite bind_Ok.
  eexists _, _. split; [reflexivity|]. simpl.
  split; [reflexivity|]. split; [reflexivity|]. split; [reflexivity|].
  split; [reflexivity|]. split; [apply lookup_insert_eq|].
  split; [intros name Hne; apply lookup_insert_ne; congruence|].
  rewrite lookup_insert_eq. rewrite bind_Ok.
  assert (Hc : coeffs <$> (mkImpl h <$> (coeffs <$> data_type.f x)) =
               coeffs <$> data_type.f x)
    by (destruct (data_type.f x); reflexivity).
  rewrite Hc, insert_insert_eq. eexists. split; [reflexivity|]. reflexivity.
Qed.

Lemma localize_data_round_trip_witness :
  is_initialized (data_type.f (example_data 0 0 0 100)) = true /\
  exists x' fs',
    localize_data (example_data 0 0 0 100) ∅ 7 = Ok (x', fs') /\
    data_type.f x' = Some (mkImpl 7 (add_scalar 0)).
Proof.
  assert (H : is_initialized (data_type.f (example_data 0 0 0 100)) = true)
    by reflexivity.
  split; [exact H|].
  destruct (localize_data_round_trip (example_data 0 0 0 100) ∅ 7 8 H)
    as (x' & fs' & Hloc & _ & _ & _ & Hf & _).
  exists x', fs'. split; [exact Hloc|exact Hf].
Defined.

(** ** The fence after the loop *)

Lemma forallb_has_left_polling (sws : list subworld_state) (sw : nat) :
  sws !! sw = Some polling -> forallb has_left sws = false.
Proof.
  intros Hsw. destruct (forallb has_left sws) eqn:Hall; [|reflexivity].
  rewrite forallb_forall in Hall.
  apply list_elem_of_lookup_2, list_elem_of_In, Hall in Hsw. discriminate.
Qed.

(** X15: [run_all] does not return while a subworld has not been through its
    loop: on tasks whose payloads hold a function and are in distinct files
    not named like a result, a run in which one of the subworlds of the
    queue takes no step stays at the fence after the loop, whatever the
    other subworlds do, also when they have run every task. *)
Theorem run_all_waits_for_all (schedule : list nat) (vtask : list MacroTask)
    (u : universe_state) (sw : nat) :
  (forall t, t ∈ taskq u ++ vtask -> is_initialized (data_type.f (data t)) = true) ->
  NoDup (filenames (taskq u ++ vtask)) ->
  (forall t, t ∈ taskq u ++ vtask -> no_result_name (data t)) ->
  sw < length (subworlds u) -> sw ∉ schedule ->
  run_all schedule vtask u = Blocked.
Proof.
  intros _ _ Hnames Hsw Hnot.
  destruct (loop_steps_ready schedule _ [] (run_all_enter_ready vtask u Hnames))
    as (u4 & ev & Hloop & _ & _ & Hother & _).
  unfold run_all. rewrite Hloop, bind_Ok. unfold fence_after_loop.
  rewrite (forallb_has_left_polling _ sw); [reflexivity|].
  rewrite (Hother sw Hnot).
  destruct (run_all_enter_start vtask u) as [_ ->].
  apply lookup_replicate_2, Hsw.
Qed.

Lemma run_all_waits_for_all_witness :
  run_all (replicate 7 0) (MacroTask_of_data <$> one_input)
    (mkUniverse [] ∅ [] [polling; polling] 0) = Blocked.
Proof.
  apply (run_all_waits_for_all _ _ _ 1).
  - intros t Ht. apply list_elem_of_singleton in Ht. subst t. reflexivity.
  - apply NoDup_singleton.
  - intros t Ht. apply list_elem_of_singleton in Ht. subst t.
    apply (dummy_no_result_name _ 0). reflexivity.
  - simpl. lia.
  - intros Hin. apply elem_of_replicate in Hin. destruct Hin as [Hin _]. discriminate.
Defined.

(** ** The files [run_all] and [map] leave alone *)

Lemma store_all_other (l : list MacroTask) (fs : gmap string archive_file) (name : string) :
  name ∉ filenames l -> store_all l fs !! name = fs !! name.
Proof.
  intros Hnot. rewrite store_all_lookup.
  rewrite filter_none; [reflexivity|].
  intros t Ht Heq. apply Hnot, elem_of_filenames. eauto.
Qed.

(** In every run of the loop, a file that is written is the file of the
    payload of a task of the list or the result file of a task of the list. *)
Lemma loop_writes (tq : list MacroTask) (sws : list subworld_state) (ev : list event)
    (e : event) (name : string) :
  loop_invariant tq sws ev -> e ∈ ev -> access_of e = Some (Write name) ->
  name ∈ filenames tq \/ exists j, j < length tq /\ name = result_name j.
Proof.
  intros Inv He Hw.
  pose proof (inv_steps _ _ _ Inv) as Hsteps. rewrite Forall_forall in Hsteps.
  destruct (Hsteps e He) as [j Hj].
  assert (Hin : e ∈ steps_on j ev) by (apply list_elem_of_filter; auto).
  destruct (Nat.lt_ge_cases j (length tq)) as [Hlt|Hge];
    [|rewrite (inv_outside _ _ _ Inv _ Hge) in Hin; inversion Hin].
  destruct (lookup_lt_is_Some_2 tq j Hlt) as [t Ht].
  destruct (loop_invariant_prefix _ _ _ _ _ Inv Ht) as (sw & n & Hev).
  rewrite Hev in Hin. apply elem_of_take in Hin as (i & Hin & _).
  apply list_elem_of_lookup_2 in Hin.
  destruct (elem_of_loop_body_write _ _ _ _ _ Hin Hw) as [->| ->].
  - left. apply elem_of_filenames. exists t. split; [|reflexivity].
    eapply list_elem_of_lookup_2, Ht.
  - right. eauto.
Qed.

(** X16: [run_all] and [map] touch the files of the payloads of the tasks of
    the list and the result files of these tasks and no other: every other
    file is after the call what it was before, and is there if it was. *)
Theorem run_all_other_files (schedule : list nat) (vtask : list MacroTask)
    (u : universe_state) (name : string) :
  name ∉ filenames (taskq u ++ vtask) ->
  (forall j, j < length (taskq u ++ vtask) -> name <> result_name j) ->
  (forall u', run_all schedule vtask u = Ok u' -> files u' !! name = files u !! name) /\
  (forall task1 vdata vresult u',
     vtask = MacroTask_of_data <$> vdata ->
     map schedule task1 vdata u = Ok (vresult, u') ->
     files u' !! name = files u !! name).
Proof.
  intros Hnot Hres.
  assert (Hrun : forall u', run_all schedule vtask u = Ok u' ->
                            files u' !! name = files u !! name).
  { intros u'. unfold run_all.
    destruct (loop_steps schedule (run_all_enter vtask u)) as [u4| | |] eqn:Hloop;
      try discriminate.
    rewrite bind_Ok. unfold fence_after_loop.
    destruct (forallb has_left (subworlds u4)); [|discriminate]. intros [= <-].
    destruct (run_all_enter_start vtask u) as [Hall Hsws].
    destruct (loop_steps_frame _ _ _ Hloop) as (ev & Hframe & Hinv).
    rewrite Hsws in Hinv. specialize (Hinv [] (loop_invariant_start _ _ Hall)).
    simpl in Hinv.
    assert (Hfn : filenames (taskq u4) = filenames (taskq u ++ vtask)).
    { rewrite (frame_filenames _ _ _ Hframe).
      unfold run_all_enter, store_task_data. cbn [taskq files trace].
      rewrite enroll_0, store_task_data_from_eq. cbn [taskq].
      unfold filenames. rewrite <- !list_fmap_compose. reflexivity. }
    rewrite (frame_unwritten _ _ _ Hframe).
    - unfold run_all_enter, store_task_data. cbn [taskq files trace].
      rewrite enroll_0, store_task_data_from_eq. cbn [files].
      apply store_all_other. rewrite filenames_set_waiting. exact Hnot.
    - intros e He Hw.
      destruct (loop_writes _ _ _ _ _ Hinv He Hw) as [Hin|(j & Hj & ->)].
      + apply Hnot. rewrite <- Hfn. exact Hin.
      + apply (Hres j); [|reflexivity].
        rewrite <- (filenames_length _ _ Hfn). exact Hj. }
  split; [exact Hrun|].
  intros task1 vdata vresult u' -> . unfold map.
  destruct (run_all schedule (MacroTask_of_data <$> vdata) u) as [ur| | |] eqn:Hr;
    try discriminate.
  rewrite bind_Ok. intros Hcol.
  destruct (collect_spec _ _ _ _ _ _ Hcol) as (_ & -> & _).
  apply Hrun. reflexivity.
Qed.

Lemma run_all_other_files_witness :
  ("notes" ∉ filenames (taskq new_queue ++ (MacroTask_of_data <$> one_input))) /\
  (forall j, j < length (taskq new_queue ++ (MacroTask_of_data <$> one_input)) ->
             "notes" <> result_name j) /\
  forall u', run_all seven_steps (MacroTask_of_data <$> one_input) new_queue = Ok u' ->
             files u' !! "notes" = files new_queue !! "notes".
Proof.
  assert (H1 : "notes" ∉ filenames (taskq new_queue ++ (MacroTask_of_data <$> one_input))).
  { intros Hin. apply list_elem_of_singleton in Hin. discriminate. }
  assert (H2 : forall j, j < length (taskq new_queue ++ (MacroTask_of_data <$> one_input)) ->
                         "notes" <> result_name j).
  { intros j _. unfold result_name. simpl. discriminate. }
  split; [exact H1|]. split; [exact H2|].
  exact (proj1 (run_all_other_files seven_steps _ new_queue "notes" H1 H2)).
Defined.

(** ** [main] *)

Lemma macro_taskq_returns (N k : nat) (fs : gmap string archive_file) (h : Z) :
  1 <= k -> k <= N ->
  macro_taskq N k fs h = Ok (mkUniverse [] fs [] (replicate k polling) h).
Proof.
  intros Hk HkN. unfold macro_taskq.
  rewrite (create_worlds_returns N k Hk 0) by lia. reflexivity.
Qed.

(** X17: [main], on a universe of one or more ranks and whatever files there
    are: the two queues are built, there are schedules of the subworlds for
    which [main] comes to its end, and whenever it does, [result] holds five
    functions, the projections of [gaussian(d)] for [d] the doubles 0, 1, 2,
    3, 4 in this order. *)
Theorem main_result (double_of_int : Z -> Z) (N : nat) (fs : gmap string archive_file) :
  1 <= N ->
  (exists schedule schedule1 vresult u',
     main double_of_int N schedule schedule1 fs = Ok (vresult, u')) /\
  (forall schedule schedule1 vresult u',
     main double_of_int N schedule schedule1 fs = Ok (vresult, u') ->
     (fun r : Function => coeffs <$> r) <$> vresult =
     (fun i => Some (functor_gaussian (double_of_int i))) <$> [0; 1; 2; 3; 4]%Z).
Proof.
  intros HN. unfold main.
  destruct (main_inputs double_of_int 5 0 0 0) as [[[vdata vtask] ii] h] eqn:Hin.
  vm_compute in Hin. injection Hin as <- <- <- <-.
  set (vdata := [_; _; _; _; _] : list data_type.t).
  set (vtask := [_; _; _; _; _] : list MacroTask).
  assert (Hk : 1 <= Nat.min N 3) by lia.
  assert (HkN : Nat.min N 3 <= N) by lia.
  assert (Hdata : Forall no_result_name vdata).
  { repeat constructor; intros j; unfold result_name; simpl; discriminate. }
  assert (Htask : forall t, t ∈ [] ++ vtask -> no_result_name (data t)).
  { intros t Ht. cbn [app] in Ht. unfold vtask in Ht.
    repeat (apply elem_of_cons in Ht as [->|Ht];
            [intros j; unfold result_name; simpl; discriminate|]).
    inversion Ht. }
  assert (Hnd : NoDup (filenames [] ++ (data_type.filename <$> vdata))).
  { apply (bool_decide_unpack _). vm_compute. exact I. }
  assert (Hres : (fun x => Some (functor_gaussian (data_type.d x))) <$> vdata =
                 (fun i => Some (functor_gaussian (double_of_int i))) <$> [0; 1; 2; 3; 4]%Z)
    by reflexivity.
  rewrite (macro_taskq_returns _ _ _ _ Hk HkN).
  set (q := mkUniverse [] fs [] (replicate (Nat.min N 3) polling) 5%Z).
  assert (Hq1 : forall u : universe_state,
            0 < length (subworlds (mkUniverse [] (files u) []
                                     (replicate (Nat.min N 3) polling) (next_handle u))))
    by (intros u; simpl; rewrite length_replicate; lia).
  assert (Hold : forall t : MacroTask, t ∈ @nil MacroTask -> no_result_name (data t))
    by (intros t Ht; inversion Ht).
  split.
  - destruct (run_all_returns vtask q Htask) as (u & Hrun).
    destruct (map_returns (MacroTask_of_data (fst (data_type_default 10))) vdata
                (mkUniverse [] (files u) [] (replicate (Nat.min N 3) polling)
                   (next_handle u)) (Hq1 u) Hold Hdata) as (vresult & u' & Hmap).
    eexists _, _, vresult, u'. rewrite bind_Ok, Hrun, bind_Ok.
    cbn [data_type_default]. rewrite (macro_taskq_returns _ _ _ _ Hk HkN), bind_Ok.
    exact Hmap.
  - intros schedule schedule1 vresult u'. rewrite bind_Ok.
    destruct (run_all schedule vtask q) as [u| | |]; try discriminate.
    rewrite bind_Ok. cbn [data_type_default].
    rewrite (macro_taskq_returns _ _ _ _ Hk HkN), bind_Ok. intros Hmap.
    rewrite (map_results_by_position _ _ _ _ _ _ (Hq1 u) Hold Hdata Hnd Hmap).
    cbn [taskq fmap list_fmap app]. rewrite gaussians_of_inputs. exact Hres.
Qed.

Lemma main_result_witness :
  1 <= 1 /\
  exists schedule schedule1 vresult u',
    main (fun i => i) 1 schedule schedule1 ∅ = Ok (vresult, u').
Proof.
  assert (H : 1 <= 1) by lia.
  split; [exact H|].
  exact (proj1 (main_result (fun i => i) 1 ∅ H)).
Defined.
